(** * bst-external: the [project_ref] source plugin

    A shallow embedding of [bst_external/sources/project_ref.py]: the
    content digest of a file or directory ([_generate_ref], [unique_key]),
    the mirror population step ([_ensure_mirror]), the consistency query,
    [fetch], [track] and [stage], over a model of the POSIX file system
    and of the parts of Python's [os], [hashlib] and of
    [buildstream] ([utils], [Source.get_mirror_directory],
    [Source.tempdir]) that the plugin calls; and of the configuration
    of [bst_external/elements/tar_element.py]. *)

From Stdlib Require Import ZArith NArith Lia Bool Ascii String.
From stdpp Require Import gmap strings list fin_maps sorting.

Open Scope string_scope.
Open Scope list_scope.

(** ** hashlib.sha256

    Python's [hashlib.sha256()] object: [update] appends bytes to the
    message, [hexdigest] is the lower-case hexadecimal SHA-256 of the
    message fed so far (FIPS 180-4).  Words are 32-bit values held in [N],
    with the wrap-around written out. *)
Module Sha256.

Definition w32 (x : N) : N := N.land x 4294967295.
Definition add32 (x y : N) : N := w32 (x + y).
Definition rotr (n x : N) : N :=
  N.lor (N.shiftr x n) (w32 (N.shiftl x (32 - n))).
Definition not32 (x : N) : N := N.lxor x 4294967295.

Definition Ch (x y z : N) : N := N.lxor (N.land x y) (N.land (not32 x) z).
Definition Maj (x y z : N) : N :=
  N.lxor (N.lxor (N.land x y) (N.land x z)) (N.land y z).
Definition Sigma0 (x : N) : N := N.lxor (N.lxor (rotr 2 x) (rotr 13 x)) (rotr 22 x).
Definition Sigma1 (x : N) : N := N.lxor (N.lxor (rotr 6 x) (rotr 11 x)) (rotr 25 x).
Definition sigma0 (x : N) : N := N.lxor (N.lxor (rotr 7 x) (rotr 18 x)) (N.shiftr x 3).
Definition sigma1 (x : N) : N := N.lxor (N.lxor (rotr 17 x) (rotr 19 x)) (N.shiftr x 10).

(** The constants of FIPS 180-4, from their definition: the first 32
    bits of the fractional parts of the cube roots ([K]) and of the
    square roots ([H0]) of the first primes. *)
Definition is_prime (n : N) : bool :=
  (1 <? n)%N
  && forallb (fun d => negb (n mod N.of_nat d =? 0)%N) (seq 2 (N.to_nat n - 2)).

Definition first_primes (count : nat) : list N :=
  firstn count (filter is_prime (map N.of_nat (seq 2 310))).

(** The integer cube root, by bisection between [lo] and [hi]. *)
Fixpoint cbrt_between (fuel : nat) (lo hi x : N) : N :=
  match fuel with
  | O => lo
  | S fuel' =>
      if (hi - lo <=? 1)%N then lo
      else let mid := ((lo + hi) / 2)%N in
           if (mid * mid * mid <=? x)%N then cbrt_between fuel' mid hi x
           else cbrt_between fuel' lo mid x
  end.

Definition cbrt (x : N) : N := cbrt_between 64 0 (N.shiftl 1 36) x.

Definition K : list N :=
  Eval vm_compute in
    map (fun p => w32 (cbrt (N.shiftl p 96))) (first_primes 64).

Definition H0 : list N :=
  Eval vm_compute in
    map (fun p => w32 (N.sqrt (N.shiftl p 64))) (first_primes 8).

(** The message followed by the bit 1, zeroes, and the 64-bit big-endian
    bit length, up to a multiple of 64 bytes. *)
Definition be_bytes (n : nat) (x : N) : list N :=
  map (fun i => N.land (N.shiftr x (8 * N.of_nat i)) 255) (rev (seq 0 n)).

Definition pad (msg : list N) : list N :=
  let len := length msg in
  let zeros := (64 - (len + 9) mod 64) mod 64 in
  msg ++ [128%N] ++ repeat 0%N zeros ++ be_bytes 8 (8 * N.of_nat len).

Fixpoint be_word (bs : list N) : N :=
  match bs with
  | [] => 0
  | b :: bs' => N.lor (N.shiftl b (8 * N.of_nat (length bs'))) (be_word bs')
  end.

Fixpoint words (n : nat) (bs : list N) : list N :=
  match n with
  | O => []
  | S n' => be_word (firstn 4 bs) :: words n' (skipn 4 bs)
  end.

(** One round: the sixteen most recent schedule words are kept in [win],
    oldest first; its head is W[t]. *)
Definition round (st : list N * list N) (k : N) : list N * list N :=
  let '(v, win) := st in
  match v with
  | [a; b; c; d; e; f; g; h] =>
      let wt := nth 0 win 0%N in
      let t1 := add32 (add32 (add32 (add32 h (Sigma1 e)) (Ch e f g)) k) wt in
      let t2 := add32 (Sigma0 a) (Maj a b c) in
      let wnew := add32 (add32 (add32 (sigma1 (nth 14 win 0%N)) (nth 9 win 0%N))
                               (sigma0 (nth 1 win 0%N))) wt in
      ([add32 t1 t2; a; b; c; add32 d t1; e; f; g], tl win ++ [wnew])
  | _ => st
  end.

Definition compress (h : list N) (block : list N) : list N :=
  let '(v, _) := fold_left round K (h, words 16 block) in
  map (fun p => add32 (fst p) (snd p)) (combine h v).

Fixpoint blocks (n : nat) (h : list N) (bs : list N) : list N :=
  match n with
  | O => h
  | S n' => blocks n' (compress h (firstn 64 bs)) (skipn 64 bs)
  end.

Definition digest (msg : list N) : list N :=
  let p := pad msg in blocks (length p / 64) H0 p.

Definition hexchar (n : N) : ascii :=
  ascii_of_N (if (n <? 10)%N then 48 + n else 87 + n).

Definition hexword (w : N) : string :=
  string_of_list_ascii
    (map (fun i => hexchar (N.land (N.shiftr w (4 * N.of_nat i)) 15)) (rev (seq 0 8))).

Definition hex (ws : list N) : string :=
  fold_right (fun w acc => hexword w +:+ acc) "" ws.

(** The hasher object: the bytes fed so far. *)
Definition hasher := list Byte.byte.
Definition new : hasher := [].
Definition update (h : hasher) (data : list Byte.byte) : hasher := h ++ data.
Definition hexdigest (h : hasher) : string := hex (digest (map Byte.to_N h)).

End Sha256.


(** ** Python strings and [os.path] (posixpath)

    A Python [str] is held as the string of its UTF-8 bytes, so that
    [s.encode('utf-8')] is the byte list of the string and comparing
    strings compares code points.  A file name that is not valid UTF-8,
    which Python holds with surrogate escapes and cannot encode, is not
    a string of the model. *)
Definition encode_utf8 (s : string) : list Byte.byte := list_byte_of_string s.

Module OsPath.

Definition is_sep (c : ascii) : bool := Ascii.eqb c "/".

(** [s.split(os.sep)] *)
Fixpoint split_sep (s : string) : list string :=
  match s with
  | EmptyString => [""]
  | String c s' =>
      if is_sep c then "" :: split_sep s'
      else match split_sep s' with
           | [] => [String c ""]
           | w :: ws => String c w :: ws
           end
  end.

Definition startswith_sep (s : string) : bool :=
  match s with String c _ => is_sep c | EmptyString => false end.

Fixpoint endswith_sep (s : string) : bool :=
  match s with
  | EmptyString => false
  | String c EmptyString => is_sep c
  | String _ s' => endswith_sep s'
  end.

(** [os.path.join(a, b)] *)
Definition join (a b : string) : string :=
  if startswith_sep b then b
  else if decide (a = "") then b
  else if endswith_sep a then a +:+ b
  else a +:+ "/" +:+ b.

(** [os.path.join(a, *bs)] *)
Definition join_all (a : string) (bs : list string) : string :=
  fold_left join bs a.

Fixpoint take_while {A} (f : A → bool) (l : list A) : list A :=
  match l with
  | x :: l' => if f x then x :: take_while f l' else []
  | [] => []
  end.

Fixpoint drop_while {A} (f : A → bool) (l : list A) : list A :=
  match l with
  | x :: l' => if f x then drop_while f l' else l
  | [] => []
  end.

(** [os.path.split(p)]: the tail is what follows the last slash; the
    head loses its trailing slashes unless it consists of slashes only. *)
Definition split (p : string) : string * string :=
  let r := rev (list_ascii_of_string p) in
  let tail_r := take_while (fun c => negb (is_sep c)) r in
  let head_r := drop_while (fun c => negb (is_sep c)) r in
  let head_r' := if forallb is_sep head_r then head_r else drop_while is_sep head_r in
  (string_of_list_ascii (rev head_r'), string_of_list_ascii (rev tail_r)).

Definition basename (p : string) : string := snd (split p).

End OsPath.

(** ** The file system

    A disk is a finite map from canonical absolute paths (the list of
    their components, the root being the empty list) to inodes.  A path
    string is resolved component by component as POSIX does it: empty
    components and [.] are skipped, [..] goes to the parent, a symbolic
    link is replaced by its target (at most [MAXSYMLINKS] times), and a
    relative path starts from the root. *)
Inductive inode :=
  | IFile (mode : Z) (data : string)
  | ILink (target : string)
  | IDir (mode : Z).

#[global] Instance inode_eq_dec : EqDecision inode.
Proof. solve_decision. Defined.

Abbreviation cpath := (list string).
Abbreviation disk := (gmap (list string) inode).

Module Stat.
Definition S_IRWXU : Z := 448.
Definition S_IRUSR : Z := 256.
Definition S_IWUSR : Z := 128.
Definition S_IXUSR : Z := 64.
Definition S_IRGRP : Z := 32.
Definition S_IXGRP : Z := 8.
Definition S_IROTH : Z := 4.
Definition S_IXOTH : Z := 1.
End Stat.

(** Mode of a directory made by [mkdir] under the usual umask 022. *)
Definition default_dir_mode : Z := 493.

Definition node_at (d : disk) (k : cpath) : option inode :=
  match k with
  | [] => Some (IDir default_dir_mode)
  | _ => d !! k
  end.

Definition is_dir (o : option inode) : bool :=
  match o with Some (IDir _) => true | _ => false end.
Definition is_link (o : option inode) : bool :=
  match o with Some (ILink _) => true | _ => false end.
Definition is_nil {A} (l : list A) : bool :=
  match l with [] => true | _ => false end.

Definition MAXSYMLINKS : nat := 40.

Fixpoint walk (fuel : nat) (d : disk) (follow : bool)
    (cwd : cpath) (comps : list string) {struct fuel} : option cpath :=
  (fix go (cwd : cpath) (comps : list string) {struct comps} : option cpath :=
     match comps with
     | [] => Some cwd
     | c :: rest =>
         if decide (c = "" ∨ c = ".") then go cwd rest
         else if decide (c = "..") then go (removelast cwd) rest
         else
           match d !! (cwd ++ [c]) with
           | Some (IDir _) => go (cwd ++ [c]) rest
           | Some (ILink t) =>
               if negb follow && is_nil rest then Some (cwd ++ [c])
               else match fuel with
                    | O => None
                    | S fuel' =>
                        walk fuel' d follow
                          (if OsPath.startswith_sep t then [] else cwd)
                          (OsPath.split_sep t ++ rest)
                    end
           | _ => if is_nil rest then Some (cwd ++ [c]) else None
           end
     end) cwd comps.

(** The canonical path a path string denotes; its last component may be
    missing (as for a file about to be created).  [follow] says whether a
    symbolic link in the last position is followed. *)
Definition resolve (d : disk) (follow : bool) (p : string) : option cpath :=
  if decide (p = "") then None else walk MAXSYMLINKS d follow [] (OsPath.split_sep p).

Definition lstat (d : disk) (p : string) : option inode :=
  k ← resolve d false p; node_at d k.
Definition stat (d : disk) (p : string) : option inode :=
  k ← resolve d true p; node_at d k.

(** ** Exceptions and the [os] functions the plugin calls *)
Inductive exn :=
  | FileNotFoundError
  | FileExistsError
  | NotADirectoryError
  | IsADirectoryError
  | TypeError
  | OSError (msg : string)
  | AssertionError
  | UtilError (msg : string)
  | SourceError (msg : string).

Definition strict_under (k k' : cpath) : Prop := k `prefix_of` k' ∧ k ≠ k'.

#[global] Instance strict_under_dec k k' : Decision (strict_under k k').
Proof. unfold strict_under. apply _. Defined.

Definition keys (d : disk) : list cpath := (map_to_list d).*1.

(** No entry lies below [k]. *)
Definition dir_empty (d : disk) (k : cpath) : bool :=
  forallb (fun k' => negb (bool_decide (strict_under k k'))) (keys d).

(** The disk without [k] and everything below it. *)
Definition remove_tree (k : cpath) (d : disk) : disk :=
  filter (fun kv => ¬ k `prefix_of` kv.1) d.

(** What is found at [k] once the tree at [ksrc] has been moved to
    [kdst]. *)
Definition moved (ksrc kdst : cpath) (d : disk) (k : cpath) : option inode :=
  if decide (kdst `prefix_of` k) then d !! (ksrc ++ drop (length kdst) k)
  else if decide (ksrc `prefix_of` k) then None
  else d !! k.

Definition move_tree (ksrc kdst : cpath) (d : disk) : disk :=
  let rekey k :=
    if decide (ksrc `prefix_of` k) then kdst ++ drop (length ksrc) k else k in
  list_to_map (omap (fun k => pair k <$> moved ksrc kdst d k) (rekey <$> keys d)).

(** A computation that reads and writes a state and may raise: the state
    reached is kept when an exception is raised. *)
Definition SE (St A : Type) : Type := St → (exn + A) * St.

Definition ret {St A} (a : A) : SE St A := fun s => (inr a, s).
Definition raise {St A} (e : exn) : SE St A := fun s => (inl e, s).
Definition bind {St A B} (m : SE St A) (f : A → SE St B) : SE St B :=
  fun s => match m s with
           | (inr a, s') => f a s'
           | (inl e, s') => (inl e, s')
           end.
(** [try: m finally: c] *)
Definition finally {St A} (m : SE St A) (c : SE St unit) : SE St A :=
  fun s => match m s with
           | (r, s') => match c s' with
                        | (inr _, s'') => (r, s'')
                        | (inl e, s'') => (inl e, s'')
                        end
           end.
(** An operation that either changes the disk or raises and leaves it. *)
Definition atomic (op : disk → exn + disk) : SE disk unit :=
  fun d => match op d with
           | inr d' => (inr tt, d')
           | inl e => (inl e, d)
           end.
(** A query of the disk. *)
Definition query {A} (q : disk → exn + A) : SE disk A := fun d => (q d, d).
Definition query_total {A} (q : disk → A) : SE disk A := fun d => (inr (q d), d).

Fixpoint for_each {St A} (l : list A) (body : A → SE St unit) : SE St unit :=
  match l with
  | [] => ret tt
  | x :: l' => bind (body x) (fun _ => for_each l' body)
  end.

Declare Scope se_scope.
Delimit Scope se_scope with se.
Notation "x <- m ;; k" := (bind m (fun x => k))
  (at level 100, m at next level, right associativity) : se_scope.
Notation "m ;;; k" := (bind m (fun _ => k))
  (at level 100, right associativity) : se_scope.
Open Scope se_scope.

Module Os.

(** [os.path.exists], [os.path.isdir]: through symbolic links. *)
Definition exists_ (d : disk) (p : string) : bool := bool_decide (is_Some (stat d p)).
Definition isdir (d : disk) (p : string) : bool := is_dir (stat d p).
(** [os.path.islink], [os.readlink]: the link itself. *)
Definition islink (d : disk) (p : string) : bool := is_link (lstat d p).
Definition lexists (d : disk) (p : string) : bool := bool_decide (is_Some (lstat d p)).

Definition readlink (d : disk) (p : string) : exn + string :=
  match lstat d p with
  | Some (ILink t) => inr t
  | Some _ => inl (OSError "Invalid argument")
  | None => inl FileNotFoundError
  end.

Definition set_mode (m : Z) (n : inode) : inode :=
  match n with
  | IFile _ c => IFile m c
  | IDir _ => IDir m
  | ILink t => ILink t
  end.

(** [os.chmod(p, m)] follows symbolic links. *)
Definition chmod (p : string) (m : Z) (d : disk) : exn + disk :=
  match resolve d true p with
  | Some k =>
      match node_at d k with
      | Some n => inr (<[k := set_mode m n]> d)
      | None => inl FileNotFoundError
      end
  | None => inl FileNotFoundError
  end.

(** [os.mkdir(p, mode)], [mode] being what the umask leaves of it. *)
Definition mkdir (p : string) (mode : Z) (d : disk) : exn + disk :=
  match resolve d false p with
  | Some k =>
      match node_at d k with
      | Some _ => inl FileExistsError
      | None => inr (<[k := IDir mode]> d)
      end
  | None => inl FileNotFoundError
  end.

(** [os.makedirs(name)] with [exist_ok=False]: the missing parents are
    made first, a [FileExistsError] from making them is passed over, and
    the final [mkdir] raises if the directory is there already. *)
Definition makedirs_parts (name : string) : string * string :=
  let '(head, tail) := OsPath.split name in
  if decide (tail = "") then OsPath.split head else (head, tail).

Fixpoint makedirs_go (fuel : nat) (name : string) : SE disk unit :=
  let '(head, tail) := makedirs_parts name in
  missing <- query_total (fun d =>
     bool_decide (head ≠ "") && bool_decide (tail ≠ "") && negb (exists_ d head));;
  if (missing : bool) then
    match fuel with
    | O => raise (OSError "File name too long")
    | S fuel' =>
        (fun d => match makedirs_go fuel' head d with
                  | (inl FileExistsError, d') => (inr tt, d')
                  | r => r
                  end);;;
        if decide (tail = ".") then ret tt else atomic (mkdir name default_dir_mode)
    end
  else atomic (mkdir name default_dir_mode).

Definition makedirs (name : string) : SE disk unit :=
  makedirs_go (String.length name) name.

(** [os.makedirs(name, exist_ok=True)]: the same, but a failure of the
    final [mkdir] is passed over when [name] is a directory. *)
Definition mkdir_exist_ok (name : string) : SE disk unit :=
  fun d => match mkdir name default_dir_mode d with
           | inr d' => (inr tt, d')
           | inl e => if isdir d name then (inr tt, d) else (inl e, d)
           end.

Fixpoint makedirs_exist_ok_go (fuel : nat) (name : string) : SE disk unit :=
  let '(head, tail) := makedirs_parts name in
  missing <- query_total (fun d =>
     bool_decide (head ≠ "") && bool_decide (tail ≠ "") && negb (exists_ d head));;
  if (missing : bool) then
    match fuel with
    | O => raise (OSError "File name too long")
    | S fuel' =>
        (fun d => match makedirs_exist_ok_go fuel' head d with
                  | (inl FileExistsError, d') => (inr tt, d')
                  | r => r
                  end);;;
        if decide (tail = ".") then ret tt else mkdir_exist_ok name
    end
  else mkdir_exist_ok name.

Definition makedirs_exist_ok (name : string) : SE disk unit :=
  makedirs_exist_ok_go (String.length name) name.

(** [os.unlink(p)] *)
Definition unlink (p : string) (d : disk) : exn + disk :=
  match resolve d false p with
  | Some k =>
      match node_at d k with
      | Some (IDir _) => inl IsADirectoryError
      | Some _ => inr (delete k d)
      | None => inl FileNotFoundError
      end
  | None => inl FileNotFoundError
  end.

(** [os.rename(src, dst)], rename(2): neither path is followed in its
    last component; a directory replaces only an empty directory and
    cannot be moved below itself; a file or link replaces anything but a
    directory. *)
Definition rename (src dst : string) (d : disk) : exn + disk :=
  match resolve d false src, resolve d false dst with
  | Some ksrc, Some kdst =>
      match node_at d ksrc with
      | None => inl FileNotFoundError
      | Some n =>
          if decide (ksrc = kdst) then inr d
          else if decide (ksrc = [] ∨ kdst = []) then inl (OSError "Device or resource busy")
          else
            match n, node_at d kdst with
            | IDir _, dst =>
                if decide (ksrc `prefix_of` kdst) then inl (OSError "Invalid argument")
                else match dst with
                     | Some (IDir _) =>
                         if dir_empty d kdst then inr (move_tree ksrc kdst d)
                         else inl (OSError "Directory not empty")
                     | Some _ => inl NotADirectoryError
                     | None => inr (move_tree ksrc kdst d)
                     end
            | _, Some (IDir _) => inl IsADirectoryError
            | _, _ => inr (move_tree ksrc kdst d)
            end
      end
  | _, _ => inl FileNotFoundError
  end.

(** [shutil.rmtree(p)]: refuses a symbolic link and anything that is not
    a directory. *)
Definition rmtree (p : string) (d : disk) : exn + disk :=
  match resolve d false p with
  | Some k =>
      match node_at d k with
      | Some (IDir _) => inr (remove_tree k d)
      | Some (ILink _) => inl (OSError "Cannot call rmtree on a symbolic link")
      | Some (IFile _ _) => inl NotADirectoryError
      | None => inl FileNotFoundError
      end
  | None => inl FileNotFoundError
  end.

End Os.

(** ** buildstream.utils

    The helpers of the BuildStream library that the plugin calls.  They
    are not part of this repository; they are modelled after their
    documented behaviour and after what the plugin's comments and the
    specification say of them. *)
Definition string_le (a b : string) : Prop := String.leb a b = true.

#[global] Instance string_le_dec a b : Decision (string_le a b).
Proof. unfold string_le. apply _. Defined.

Module Utils.

(** [utils.sha256sum(filename)]: the file is read in blocks, each fed to
    one hasher; the digest is that of the whole content.  An [OSError]
    of [open] or [read] is raised again as a [UtilError].  Every regular
    file is taken to be readable by the user: permission bits do not
    stop a read. *)
Definition sha256sum (d : disk) (filename : string) : exn + string :=
  match stat d filename with
  | Some (IFile _ c) =>
      inr (Sha256.hexdigest (Sha256.update Sha256.new (encode_utf8 c)))
  | _ => inl (UtilError "Failed to get a checksum of file")
  end.

(** A name that a directory entry can have. *)
Definition valid_name (c : string) : bool :=
  negb (bool_decide (c = "" ∨ c = "." ∨ c = ".."))
  && forallb (fun a => negb (OsPath.is_sep a)) (list_ascii_of_string c).

(** Every directory strictly between [Sk] and [Sk ++ r] is a real one. *)
Definition real_dirs_between (d : disk) (Sk : cpath) (r : list string) : bool :=
  forallb (fun n => is_dir (d !! (Sk ++ take n r))) (seq 1 (length r - 1)).

(** The relative name under which the entry [k] of the tree rooted at
    [Sk] is listed, if it is: files and symbolic links always, a directory
    only when it is empty and directories are asked for. *)
Definition listed (d : disk) (list_dirs : bool) (Sk : cpath)
    (kv : cpath * inode) : option string :=
  let '(k, v) := kv in
  if decide (strict_under Sk k) then
    let r := drop (length Sk) k in
    if forallb valid_name r && real_dirs_between d Sk r
       && match v with IDir _ => list_dirs && dir_empty d k | _ => true end
    then Some (String.concat "/" r)
    else None
  else None.

(** [utils.list_relative_paths(directory, list_dirs=True)]

    Modelled from the spec: the relative paths of the members below
    [directory] in lexicographically sorted order; symbolic links are
    listed and not entered; non-empty directories are not listed, an
    empty directory is (the walked directory itself as [.]). *)
Definition list_relative_paths (d : disk) (directory : string)
    (list_dirs : bool) : list string :=
  match resolve d true directory with
  | Some Sk =>
      if is_dir (node_at d Sk) then
        let root : list string :=
          if list_dirs && dir_empty d Sk then ["."] else [] in
        merge_sort string_le (root ++ omap (listed d list_dirs Sk) (map_to_list d))
      else []
  | None => []
  end.

(** [os.unlink(dest)] with [ENOENT] passed over and every other failure
    reported as a [UtilError]. *)
Definition unlink_if_exists (dest : string) : SE disk unit :=
  fun d => match Os.unlink dest d with
           | inr d' => (inr tt, d')
           | inl FileNotFoundError => (inr tt, d)
           | inl _ => (inl (UtilError "Failed to remove destination file"), d)
           end.

(** [shutil.copyfile(src, dest)] followed by [shutil.copystat]: the
    content and the mode of [src], through symbolic links. *)
Definition copyfile (src dest : string) (d : disk) : exn + disk :=
  match stat d src with
  | Some (IFile m c) =>
      match resolve d true dest with
      | Some k =>
          match node_at d k with
          | Some (IDir _) => inl IsADirectoryError
          | _ => inr (<[k := IFile m c]> d)
          end
      | None => inl FileNotFoundError
      end
  | Some _ => inl IsADirectoryError
  | None => inl FileNotFoundError
  end.

(** [utils.safe_copy(src, dest)]: unlinks [dest] if it is there, then
    copies the content of [src] (through symbolic links) and its mode. *)
Definition safe_copy (src dest : string) : SE disk unit :=
  unlink_if_exists dest;;;
  atomic (copyfile src dest).

(** The components of a relative name. *)
Definition rel_comps (f : string) : list string :=
  filter (fun c => c ≠ "" ∧ c ≠ ".") (OsPath.split_sep f).

Definition dir_mode_of (o : option inode) : Z :=
  match o with Some (IDir m) => m | _ => default_dir_mode end.

(** The directory [p] below the destination is made if it is missing. *)
Definition ensure_dir (Sk Dk : cpath) (p : list string) : SE disk unit :=
  atomic (fun d =>
    match node_at d (Dk ++ p) with
    | None => inr (<[Dk ++ p := IDir (dir_mode_of (node_at d (Sk ++ p)))]> d)
    | Some (IDir _) => inr d
    | Some _ => inl (UtilError "Destination not a directory")
    end).

(** One member is copied: its parent directories are made, a directory
    is made (or kept) with the mode of the source, a symbolic link is
    made anew with the same target, a file is copied with its mode. *)
Definition copy_member (Sk Dk : cpath) (f : string) : SE disk unit :=
  let r := rel_comps f in
  if bool_decide (".." ∈ r) then raise (UtilError "Source file is missing") else
  src <- query_total (fun d => node_at d (Sk ++ r));;
  match src with
  | None => raise (UtilError "Source file is missing")
  | Some n =>
      for_each (map (fun i => take i r) (seq 0 (length r))) (ensure_dir Sk Dk);;;
      atomic (fun d =>
        match n, node_at d (Dk ++ r) with
        | IDir _, (None | Some (IDir _)) => inr (<[Dk ++ r := n]> d)
        | IDir _, Some _ => inl (UtilError "Destination not a directory")
        | _, Some (IDir _) => inl (UtilError "Destination is a directory")
        | _, _ => inr (<[Dk ++ r := n]> d)
        end)
  end.

(** [utils.copy_files(src, dest, files=None)]

    Modelled from the spec: every listed member of the tree at [src]
    (all of them when [files] is not given) is copied to the same
    relative path below [dest], which is made if it is missing; a
    listing given by the caller is processed in sorted order.  A member
    that cannot be put in place raises. *)
Definition copy_files (src dest : string) (files : option (list string)) : SE disk unit :=
  fun d =>
    match resolve d true src, resolve d true dest with
    | Some Sk, Some Dk =>
        let filelist :=
          match files with
          | Some l => merge_sort string_le l
          | None => list_relative_paths d src true
          end in
        for_each filelist (copy_member Sk Dk) d
    | _, _ => (inl (UtilError "Failed to copy"), d)
    end.

(** [utils._force_rmtree(rootpath)]: [shutil.rmtree] after the
    directories below [rootpath] have been made writable (modes of what
    is removed are not tracked); any failure is a [UtilError]. *)
Definition _force_rmtree (rootpath : string) : SE disk unit :=
  atomic (fun d =>
    match Os.rmtree rootpath d with
    | inr d' => inr d'
    | inl _ => inl (UtilError "Failed to remove cache directory")
    end).

(** [tempfile.mkdtemp(dir=dir)]: a new directory, mode 0o700, under a
    name that is not taken: the first free one of [tmp], [tmp_],
    [tmp__], ... stands for the random choice. *)
Definition TMP_MAX : nat := 100 * 100.

Definition tmp_name (n : nat) : string :=
  "tmp" +:+ string_of_list_ascii (repeat "_"%char n).

Fixpoint mkdtemp_go (fuel n : nat) (dir : string) : SE disk string :=
  fun d =>
    let name := OsPath.join dir (tmp_name n) in
    match Os.mkdir name Stat.S_IRWXU d with
    | inr d' => (inr name, d')
    | inl FileExistsError =>
        match fuel with
        | O => (inl FileExistsError, d)
        | S fuel' => mkdtemp_go fuel' (S n) dir d
        end
    | inl e => (inl e, d)
    end.

Definition mkdtemp (dir : string) : SE disk string := mkdtemp_go TMP_MAX 0 dir.

End Utils.

(** ** The plugin: [ProjectRefSource] *)

(** The fields of the source object.  [mirror_directory] is the path of
    the directory that [Source.get_mirror_directory()] makes and
    returns. *)
Record Source := {
  path : string;
  fullpath : string;
  ref : option string;
  mirror_directory : string
}.

(** What a method can read and change: the source object, the disk and
    the messages given to [Source.warn] (brief, detail). *)
Record world := {
  self : Source;
  fs : disk;
  warnings : list (string * string)
}.

Inductive Consistency := INCONSISTENT | RESOLVED | CACHED.

Definition get_self : SE world Source := fun w => (inr (self w), w).

Definition on_disk {A} (m : SE disk A) : SE world A :=
  fun w => match m (fs w) with
           | (r, d') => (r, {| self := self w; fs := d'; warnings := warnings w |})
           end.

Definition warn (brief detail : string) : SE world unit :=
  fun w => (inr tt, {| self := self w; fs := fs w;
                       warnings := warnings w ++ [(brief, detail)] |}).

(** [Source.get_mirror_directory()]: the directory is made if it is
    missing ([os.makedirs(directory, exist_ok=True)]) and its path is
    returned. *)
Definition get_mirror_directory (s : Source) : SE world string :=
  on_disk (Os.makedirs_exist_ok (mirror_directory s));;;
  ret (mirror_directory s).

(** [utils._tempdir(dir=dir)], a context manager: a scratch directory
    made inside [dir] and removed on every way out of the body. *)
Definition _tempdir {A} (dir : string) (body : string → SE world A) : SE world A :=
  fun w =>
    match Utils.mkdtemp dir (fs w) with
    | (inl e, d') => (inl e, {| self := self w; fs := d'; warnings := warnings w |})
    | (inr td, d') =>
        finally (body td)
          (isd <- on_disk (query_total (fun d => Os.isdir d td));;
           if (isd : bool) then on_disk (Utils._force_rmtree td) else ret tt)
          {| self := self w; fs := d'; warnings := warnings w |}
    end.

(** [Source.tempdir()]: a scratch directory inside the mirror
    directory. *)
Definition tempdir {A} (s : Source) (body : string → SE world A) : SE world A :=
  mirrordir <- get_mirror_directory s;;
  _tempdir mirrordir body.

(** Truth value of an optional string: [None] and [''] are false. *)
Definition truthy (o : option string) : bool :=
  match o with
  | Some s => negb (bool_decide (s = ""))
  | None => false
  end.

(** The line feed. *)
Definition LF : string := String (ascii_of_nat 10) "".

(** ["{}".format(x)] *)
Definition format_opt (o : option string) : string :=
  match o with Some s => s | None => "None" end.

Module ProjectRefSource.

(** [configure]: [path] and [ref] come from the node. *)
Definition configure (project_directory mirror_dir : string)
    (node_path : string) (node_ref : option string) : Source :=
  {| path := node_path;
     fullpath := OsPath.join project_directory node_path;
     ref := node_ref;
     mirror_directory := mirror_dir |}.

Definition get_unique_key (s : Source) : string * option string := (path s, ref s).

Definition get_ref (s : Source) : option string := ref s.

(** A YAML mapping node whose members are strings. *)
Abbreviation node := (gmap string string).

(** [load_ref]: [ref] is read from the node again. *)
Definition load_ref (nd : node) (s : Source) : Source :=
  {| path := path s; fullpath := fullpath s; ref := nd !! "ref";
     mirror_directory := mirror_directory s |}.

(** [set_ref]: [node['ref'] = self.ref = ref] *)
Definition set_ref (new_ref : string) (nd : node) (s : Source) : Source * node :=
  ({| path := path s; fullpath := fullpath s; ref := Some new_ref;
      mirror_directory := mirror_directory s |},
   <["ref" := new_ref]> nd).

Definition preflight (s : Source) : unit := tt.

(** Create a unique key for a file *)
Definition unique_key (d : disk) (filename : string) : exn + string :=
  if Os.isdir d filename then inr "0"
  else if Os.islink d filename then Os.readlink d filename
  else Utils.sha256sum d filename.

Fixpoint unique_parts (d : disk) (filelist : list (string * string))
    : exn + list (string * string) :=
  match filelist with
  | [] => inr []
  | (relpath, full) :: rest =>
      match unique_key d full with
      | inl e => inl e
      | inr k =>
          match unique_parts d rest with
          | inl e => inl e
          | inr ks => inr ((relpath, k) :: ks)
          end
      end
  end.

Definition feed (h : Sha256.hasher) (part : string * string) : Sha256.hasher :=
  let '(rel, sha) := part in
  Sha256.update (Sha256.update h (encode_utf8 rel)) (encode_utf8 sha).

Definition _generate_ref (s : Source) (d : disk) (full : string) : exn + string :=
  let filelist :=
    if Os.isdir d full then
      map (fun relpath => (relpath, OsPath.join full relpath))
          (Utils.list_relative_paths d full true)
    else [(path s, full)] in
  match unique_parts d filelist with
  | inl e => inl e
  | inr parts => inr (Sha256.hexdigest (fold_left feed parts Sha256.new))
  end.

(** [os.path.join(self.get_mirror_directory(), sha or self.ref)] *)
Definition _get_mirror_file (s : Source) (sha : option string) : SE world string :=
  directory <- get_mirror_directory s;;
  match (if truthy sha then sha else ref s) with
  | Some name => ret (OsPath.join directory name)
  | None => raise TypeError
  end.

(** The first part of the body of [_ensure_mirror]: the subject is
    copied below the scratch directory [td]; the result is the final
    value of [targetdir]. *)
Definition scratch_copy (s : Source) (td : string) : SE world string :=
  let targetdir := OsPath.join td "moveable" in
  isd <- on_disk (query_total (fun d => Os.isdir d (fullpath s)));;
  if (isd : bool) then
    on_disk (Utils.copy_files (fullpath s) targetdir None);;;
    ret targetdir
  else
    on_disk (Os.makedirs targetdir);;;
    let '(base, _) := OsPath.split (path s) in
    let basefolder := OsPath.join targetdir base in
    on_disk (Os.makedirs basefolder);;;
    let targetdir := OsPath.join targetdir (path s) in
    on_disk (Utils.safe_copy (fullpath s) targetdir);;;
    ret targetdir.

(** The last part: what is at [targetdir] is moved to the entry named
    by the digest, over what may be there. *)
Definition publish (s : Source) (targetdir sha256 : string) : SE world unit :=
  mirror_file <- _get_mirror_file s (Some sha256);;
  present <- on_disk (query_total (fun d => Os.exists_ d mirror_file));;
  (if (present : bool)
   then mirror_file <- _get_mirror_file s (Some sha256);;
        on_disk (Utils._force_rmtree mirror_file)
   else ret tt);;;
  mirror_file <- _get_mirror_file s (Some sha256);;
  on_disk (atomic (Os.rename targetdir mirror_file)).

Definition _ensure_mirror : SE world string :=
  s <- get_self;;
  tempdir s (fun td =>
    targetdir <- scratch_copy s td;;
    sha256 <- on_disk (query (fun d => _generate_ref s d targetdir));;
    publish s targetdir sha256;;;
    ret sha256).

Definition fetch_message (p sha256 : string) (r : option string) : string :=
  "File imported from " +:+ p +:+ " has sha256sum '" +:+ sha256
    +:+ "', not '" +:+ format_opt r +:+ "'!".

Definition fetch : SE world unit :=
  s <- get_self;;
  sha256 <- _ensure_mirror;;
  if decide (Some sha256 ≠ ref s)
  then raise (SourceError (fetch_message (path s) sha256 (ref s)))
  else ret tt.

Definition track_detail (p : string) (r : option string) (new_ref : string) : string :=
  "When tracking, new ref differs from current ref:" +:+ LF
    +:+ "  Tracked path: " +:+ p +:+ LF
    +:+ "  Current ref: " +:+ format_opt r +:+ LF
    +:+ "  New ref: " +:+ new_ref +:+ LF.

Definition track : SE world string :=
  s <- get_self;;
  new_ref <- _ensure_mirror;;
  (if truthy (ref s) && bool_decide (ref s ≠ Some new_ref)
   then warn "Local files have changed" (track_detail (path s) (ref s) new_ref)
   else ret tt);;;
  ret new_ref.

Definition get_consistency : SE world Consistency :=
  s <- get_self;;
  match ref s with
  | None => ret INCONSISTENT
  | Some _ =>
      mirror_file <- _get_mirror_file s None;;
      present <- on_disk (query_total (fun d => Os.exists_ d mirror_file));;
      if (present : bool) then ret CACHED else ret RESOLVED
  end.

Definition rwxr_xr_x : Z :=
  Z.lor Stat.S_IRWXU (Z.lor Stat.S_IRGRP (Z.lor Stat.S_IXGRP
    (Z.lor Stat.S_IROTH Stat.S_IXOTH))).
Definition rw_r__r__ : Z :=
  Z.lor Stat.S_IRUSR (Z.lor Stat.S_IWUSR (Z.lor Stat.S_IRGRP Stat.S_IROTH)).

Definition assert_ {St} (b : bool) : SE St unit :=
  if b then ret tt else raise AssertionError.

(** The copy made by [stage]; it returns [files]. *)
Definition stage_copy (directory : string) : SE world (list string) :=
  s <- get_self;;
  isd <- on_disk (query_total (fun d => Os.isdir d (fullpath s)));;
  if (isd : bool) then
    files <- on_disk (query_total (fun d =>
               Utils.list_relative_paths d (fullpath s) true));;
    on_disk (Utils.copy_files (fullpath s) directory (Some files));;;
    ret files
  else
    let destfile := OsPath.join directory (OsPath.basename (path s)) in
    let files := [OsPath.basename (path s)] in
    on_disk (Utils.safe_copy (fullpath s) destfile);;;
    ret files.

(** The body of [for i in range(1, len(dirs))]. *)
Definition stage_chmod_dir (directory : string) (dirs : list string) (i : nat)
    : SE disk unit :=
  let d := OsPath.join_all directory (take i dirs) in
  ok <- query_total (fun dk => Os.isdir dk d && negb (Os.islink dk d));;
  assert_ ok;;;
  atomic (Os.chmod d rwxr_xr_x).

(** The body of [for f in files]. *)
Definition stage_chmod_one (directory f : string) : SE disk unit :=
  let dirs := OsPath.split_sep f in
  for_each (seq 1 (length dirs - 1)) (stage_chmod_dir directory dirs);;;
  let p := OsPath.join directory f in
  lnk <- query_total (fun dk => Os.islink dk p);;
  if (lnk : bool) then ret tt
  else
    isd <- query_total (fun dk => Os.isdir dk p);;
    if (isd : bool) then atomic (Os.chmod p rwxr_xr_x)
    else
      st <- query (fun dk => match stat dk p with
                             | Some n => inr n
                             | None => inl FileNotFoundError
                             end);;
      let st_mode := match st with IFile m _ | IDir m => m | ILink _ => 0%Z end in
      if decide (Z.land st_mode Stat.S_IXUSR ≠ 0%Z)
      then atomic (Os.chmod p rwxr_xr_x)
      else atomic (Os.chmod p rw_r__r__).

Definition stage_chmod (directory : string) (files : list string) : SE disk unit :=
  for_each files (stage_chmod_one directory).

Definition stage (directory : string) : SE world unit :=
  files <- stage_copy directory;;
  on_disk (stage_chmod directory files).

End ProjectRefSource.

(** [msg] contains [x]. *)
Definition mentions (msg x : string) : Prop :=
  ∃ pre post : string, msg = pre +:+ x +:+ post.

(** What [stage] makes of the mode of a staged member. *)
Definition normalized (n : inode) : inode :=
  match n with
  | IDir _ => IDir ProjectRefSource.rwxr_xr_x
  | IFile m c =>
      IFile (if decide (Z.land m Stat.S_IXUSR ≠ 0%Z)
             then ProjectRefSource.rwxr_xr_x else ProjectRefSource.rw_r__r__) c
  | ILink t => ILink t
  end.

(** ** The element plugin: [TarElement]

    A shallow embedding of [bst_external/elements/tar_element.py]: the
    validation of the configuration ([configure], [preflight]), the
    cache key and the names that [assemble] derives from the
    configuration through its dictionaries.  The archive itself is
    written by Python's [tarfile] and is not modelled. *)
Module TarElement.

Inductive error :=
  | ElementError (msg : string)
  | KeyError (key : string).

(** Permitted checksums *)
Definition CHECKSUMS : gset string := {[ "sha1"; "sha256"; "sha512"; "md5" ]}.

(** The fields of the element; [name] is what [str(self)] gives. *)
Record Element := {
  name : string;
  filename : string;
  compression : string;
  include_checksums : list string
}.

(** [configure]: the members of the node, [include-checksums] being
    [[]] when it is not given. *)
Definition configure (element_name node_filename node_compression : string)
    (node_checksums : option (list string)) : error + Element :=
  let e := {| name := element_name;
              filename := node_filename;
              compression := node_compression;
              include_checksums := default [] node_checksums |} in
  if bool_decide (compression e ∈ ["none"; "gzip"; "xz"; "bzip2"]) then inr e
  else inl (ElementError
              (name e +:+ ": Invalid compression option " +:+ compression e)).

(** [preflight]; the order in which the unsupported checksums are
    named is that of a Python set, which is not specified: here it is
    that of [elements]. *)
Definition preflight (e : Element) : error + unit :=
  let checksums_set : gset string := list_to_set (include_checksums e) in
  if bool_decide (checksums_set ⊆ CHECKSUMS) then inr tt
  else
    let unsupported := elements (checksums_set ∖ CHECKSUMS) in
    inl (ElementError
           (name e +:+ ": Unsupported checksum(s) " +:+ String.concat ", " unsupported)).

(** The values of the cache key. *)
Inductive value :=
  | VStr (s : string)
  | VList (l : list string).

Definition get_unique_key (e : Element) : gmap string value :=
  <["include-checksums" := VList (include_checksums e)]>
    (<["compression" := VStr (compression e)]>
       (<["filename" := VStr (filename e)]> ∅)).

(** [d[k]] *)
Definition getitem (d : gmap string string) (k : string) : error + string :=
  match d !! k with
  | Some v => inr v
  | None => inl (KeyError k)
  end.

(** The dictionaries of [assemble]. *)
Definition compress_map : gmap string string :=
  {[ "none" := ""; "gzip" := "gz"; "xz" := "xz"; "bzip2" := "bz2" ]}.
Definition extension_map : gmap string string :=
  {[ "none" := ".tar"; "gzip" := ".tar.gz"; "xz" := ".tar.xz"; "bzip2" := ".tar.bz2" ]}.
(** The keys of [hash_map]. *)
Definition hash_map : gset string := {[ "sha1"; "sha256"; "sha512"; "md5" ]}.

(** [tarname] in [assemble] *)
Definition assemble_tarname (e : Element) (outputdir : string) : error + string :=
  match getitem extension_map (compression e) with
  | inr ext => inr (OsPath.join outputdir (filename e +:+ ext))
  | inl err => inl err
  end.

(** [mode] in [assemble] *)
Definition assemble_mode (e : Element) : error + string :=
  match getitem compress_map (compression e) with
  | inr c => inr ("w:" +:+ c)
  | inl err => inl err
  end.

(** The keys of [hashes] in [assemble], in the order of their first
    insertion: one path for every checksum asked for. *)
Fixpoint assemble_hashes (e : Element) (outputdir : string)
    (checksums : list string) (hashes : list string) : error + list string :=
  match checksums with
  | [] => inr hashes
  | hash_type :: rest =>
      let hash_path :=
        OsPath.join outputdir (filename e +:+ "." +:+ hash_type +:+ "sum") in
      if bool_decide (hash_type ∈ hash_map) then
        assemble_hashes e outputdir rest
          (if bool_decide (hash_path ∈ hashes) then hashes else hashes ++ [hash_path])
      else inl (KeyError hash_type)
  end.

End TarElement.

(** ** Concrete projects used to run the plugin *)
Module Examples.

Definition mirror : string := "/cache/project_ref".

(** A project with a single file [files/bob.txt] and a directory
    [files/sally], an empty mirror directory and an empty directory
    [/out] to stage into. *)
Definition project : disk :=
  list_to_map [
    (["proj"], IDir 493%Z);
    (["proj"; "files"], IDir 493%Z);
    (["proj"; "files"; "bob.txt"], IFile 420%Z ("Hi bob" +:+ LF));
    (["proj"; "files"; "sally"], IDir 448%Z);
    (["proj"; "files"; "sally"; "sally.hello"],
       IFile 420%Z ("Hello from Sally" +:+ LF));
    (["proj"; "files"; "sally"; "run.sh"], IFile 448%Z "#!/bin/sh");
    (["proj"; "files"; "sally"; "docs"], IDir 448%Z);
    (["proj"; "files"; "sally"; "docs"; "readme"], IFile 384%Z "read me");
    (["proj"; "files"; "sally"; "latest"], ILink "docs/readme");
    (["proj"; "files"; "sally"; "empty"], IDir 448%Z);
    (["cache"], IDir 493%Z);
    (["cache"; "project_ref"], IDir 493%Z);
    (["out"], IDir 493%Z)
  ].

Definition world_of (p : string) (r : option string) (d : disk) : world :=
  {| self := ProjectRefSource.configure "/proj" mirror p r;
     fs := d; warnings := [] |}.

Definition bob_digest : string :=
  "9bd8752e4baf89bf80d6a0f49fa5667220f349cb9de291b503153bcf099b3775".

(** A tree with an empty directory [d] and a symbolic link [l] to it. *)
Definition linked : disk :=
  list_to_map [
    (["proj"], IDir 493%Z);
    (["proj"; "files"], IDir 493%Z);
    (["proj"; "files"; "tree"], IDir 493%Z);
    (["proj"; "files"; "tree"; "d"], IDir 493%Z);
    (["proj"; "files"; "tree"; "l"], ILink "d");
    (["cache"], IDir 493%Z);
    (["cache"; "project_ref"], IDir 493%Z)
  ].

(** A tree whose symbolic link [l] points to the directory [shared]
    next to the tree. *)
Definition escaping : disk :=
  list_to_map [
    (["proj"], IDir 493%Z);
    (["proj"; "files"], IDir 493%Z);
    (["proj"; "files"; "shared"], IDir 493%Z);
    (["proj"; "files"; "tree"], IDir 493%Z);
    (["proj"; "files"; "tree"; "a.txt"], IFile 420%Z "a");
    (["proj"; "files"; "tree"; "l"], ILink "../shared");
    (["cache"], IDir 493%Z);
    (["cache"; "project_ref"], IDir 493%Z)
  ].

End Examples.

(** * Predicates of the statements *)

(** The inode without its mode and content: what path resolution looks
    at. *)
Definition shape (n : inode) : inode :=
  match n with
  | IFile _ _ => IFile 0 ""
  | ILink t => ILink t
  | IDir _ => IDir 0
  end.

Definition same_shape (d d' : disk) : Prop :=
  ∀ k, shape <$> node_at d k = shape <$> node_at d' k.

Definition evolves (d1 d : disk) : Prop :=
  ∀ k, node_at d k = node_at d1 k ∨ node_at d k = normalized <$> node_at d1 k.

Definition normal_at (d1 d : disk) (k : cpath) : Prop :=
  node_at d k = normalized <$> node_at d1 k.

(** The member at the path [p] of the copy [d1] has its normalized mode
    in [d]. *)
Definition settled (d1 d : disk) (p : string) : Prop :=
  ∃ k n, resolve d1 false p = Some k ∧ node_at d1 k = Some n ∧ normal_at d1 d k.

Definition refines (d1 d d2 : disk) : Prop :=
  evolves d1 d2 ∧ ∀ k, normal_at d1 d k → normal_at d1 d2 k.

Definition no_sep (c : string) : Prop :=
  forallb (fun a => negb (OsPath.is_sep a)) (list_ascii_of_string c) = true.

(** Every directory from [cwd] (excluded) down to [cwd ++ r] (included)
    is a real directory. *)
Definition dirs_below (d : disk) (cwd : cpath) (r : list string) : Prop :=
  ∀ i, 0 < i ≤ length r → is_dir (node_at d (cwd ++ take i r)) = true.

(** The path string [p] names the directory [k] and goes to it through
    real directories only, without [..]. *)
Definition real_dir_path (d : disk) (p : string) (k : cpath) : Prop :=
  p ≠ "" ∧ Utils.rel_comps p = k
  ∧ Forall (fun c => Utils.valid_name c = true) k ∧ dirs_below d [] k.

(** What is in [d] is in [d'] unchanged. *)
Definition extends (d d' : disk) : Prop :=
  ∀ k, is_Some (node_at d k) → node_at d' k = node_at d k.

(** A directory of [d] is a directory of [d']. *)
Definition dirs_preserved (d d' : disk) : Prop :=
  ∀ k, is_dir (node_at d k) = true → is_dir (node_at d' k) = true.

(** [d'] differs from [d] at [Dk] and below only. *)
Definition changes_below (Dk : cpath) (d d' : disk) : Prop :=
  ∀ k, ¬ Dk `prefix_of` k → node_at d' k = node_at d k.

(** A member of the source that is in place below the destination stays
    in place. *)
Definition keeps_copies (Sk Dk : cpath) (d d' : disk) : Prop :=
  ∀ q, is_Some (node_at d (Sk ++ q)) →
       node_at d (Dk ++ q) = node_at d (Sk ++ q) →
       node_at d' (Dk ++ q) = node_at d (Sk ++ q).

(** The destination and all directories above [Dk ++ r] are real
    directories. *)
Definition dest_ready (d : disk) (Dk : cpath) (r : list string) : Prop :=
  ∀ i, i < length r → is_dir (node_at d (Dk ++ take i r)) = true.

(** A check of [real_dir_path] that can be run. *)
Definition real_dir_pathb (d : disk) (p : string) (k : cpath) : bool :=
  negb (bool_decide (p = "")) && bool_decide (Utils.rel_comps p = k)
  && forallb Utils.valid_name k
  && forallb (fun i => is_dir (node_at d (take i k))) (seq 1 (length k)).

Definition is_hex (c : ascii) : bool :=
  let n := N_of_ascii c in
  ((48 <=? n) && (n <=? 57) || (97 <=? n) && (n <=? 102))%N.

(** Every entry of the disk lies in a directory. *)
Definition well_formed (d : disk) : Prop :=
  ∀ k c, is_Some (d !! (k ++ [c])) → is_dir (node_at d k) = true.

(** A check of [well_formed] that can be run. *)
Definition well_formedb (d : disk) : bool :=
  forallb (fun k => is_nil k || is_dir (node_at d (removelast k))) (keys d).

(** [d'] differs from [d] at [Dk] and below only, and what was a
    directory is one still. *)
Definition stays_below (Dk : cpath) (d d' : disk) : Prop :=
  changes_below Dk d d' ∧ dirs_preserved d d'.
(** The relative name of a staged member: [.], or names joined by
    slashes whose directories are real directories below [Dk]. *)
Definition staged_name (d : disk) (Dk : cpath) (f : string) : Prop :=
  f = "." ∨
  ∃ r c, f = String.concat "/" (r ++ [c])
         ∧ Forall (fun c => Utils.valid_name c = true) (r ++ [c])
         ∧ dirs_below d Dk r.

(** [d'] differs from [d] strictly below the directory [M] only. *)
Definition changes_inside (M : cpath) (d d' : disk) : Prop :=
  (∀ k, ¬ M `prefix_of` k → node_at d' k = node_at d k)
  ∧ (is_dir (node_at d M) = true → is_dir (node_at d' M) = true).

(** The node [n] found at the relative path [q] of a copy comes from the
    tree at [Sk]: the tree has something at [q], and the same file when
    [n] is a file. *)
Definition from_subject (d : disk) (Sk : cpath) (q : list string) (n : inode) : Prop :=
  is_Some (node_at d (Sk ++ q))
  ∧ ∀ m c, n = IFile m c → node_at d (Sk ++ q) = Some (IFile m c).

(** Everything below [Dk] comes from the tree at [Sk]. *)
Definition copied_from (d : disk) (Sk Dk : cpath) (da : disk) : Prop :=
  ∀ q n, node_at da (Dk ++ q) = Some n → from_subject d Sk q n.

(** The computation [m] does not look below [E]: on two disks that are
    the same outside [E] it returns the same, and leaves disks that are
    the same outside [E]. *)
Definition blind_to {X : Type} (E : cpath) (m : SE disk X) : Prop :=
  ∀ da db r da', changes_below E da db → m da = (r, da') →
    ∃ db', m db = (r, db') ∧ changes_below E da' db'.

(** [d'] has no symbolic link where [d] has none. *)
Definition no_new_links (d d' : disk) : Prop :=
  ∀ k, is_link (node_at d' k) = true → is_link (node_at d k) = true.

(** No symbolic link at [Sk] or below it. *)
Definition link_free (d : disk) (Sk : cpath) : Prop :=
  ∀ q, is_link (node_at d (Sk ++ q)) = false.

(** A check of [link_free] that can be run. *)
Definition link_freeb (d : disk) (Sk : cpath) : bool :=
  forallb (fun kv : cpath * inode =>
             negb (bool_decide (Sk `prefix_of` kv.1) && is_link (Some kv.2)))
          (map_to_list d).

(** * Properties *)

Import ProjectRefSource.

(** ** The hash function on known inputs *)

Example sha256_empty :
  Sha256.hexdigest Sha256.new
  = "e3b0c44298fc1c149afbf4c8996fb92427ae41e4649b934ca495991b7852b855".
Proof. vm_compute. reflexivity. Qed.

Example sha256_abc :
  Sha256.hexdigest (Sha256.update Sha256.new (encode_utf8 "abc"))
  = "ba7816bf8f01cfea414140de5dae2223b00361a396177a9cb410ff61f20015ad".
Proof. vm_compute. reflexivity. Qed.

Example sha256_two_blocks :
  Sha256.hexdigest (Sha256.update Sha256.new (encode_utf8
     "abcdbcdecdefdefgefghfghighijhijkijkljklmklmnlmnomnopnopq"))
  = "248d6a61d20638b8e5c026930c3e6039a33ce45964ff2167f6ecedd419db06c1".
Proof. vm_compute. reflexivity. Qed.

(** ** Running a computation step by step *)

Lemma bind_ok {St A B} (m : SE St A) (f : A → SE St B) s a s1 :
  m s = (inr a, s1) → bind m f s = f a s1.
Proof. unfold bind. intros ->. reflexivity. Qed.

Lemma bind_raise {St A B} (m : SE St A) (f : A → SE St B) s e s1 :
  m s = (inl e, s1) → bind m f s = (inl e, s1).
Proof. unfold bind. intros ->. reflexivity. Qed.

Lemma bind_inv_ok {St A B} (m : SE St A) (f : A → SE St B) s b s' :
  bind m f s = (inr b, s') →
  ∃ a s1, m s = (inr a, s1) ∧ f a s1 = (inr b, s').
Proof.
  unfold bind. destruct (m s) as [[e|a] s1]; intros H.
  - discriminate.
  - eauto.
Qed.

Lemma world_eta (w : world) :
  {| self := self w; fs := fs w; warnings := warnings w |} = w.
Proof. destruct w; reflexivity. Qed.

Lemma on_disk_query_total {A} (q : disk → A) (w : world) :
  on_disk (query_total q) w = (inr (q (fs w)), w).
Proof. unfold on_disk, query_total. simpl. by rewrite world_eta. Qed.

Lemma on_disk_query {A} (q : disk → exn + A) (w : world) :
  on_disk (query q) w = (q (fs w), w).
Proof. unfold on_disk, query. simpl. by rewrite world_eta. Qed.

(** ** fetch and track *)

Lemma append_assoc (a b c : string) : (a +:+ b) +:+ c = a +:+ b +:+ c.
Proof.
  induction a as [|x a IH]; [reflexivity|].
  change (String x ((a +:+ b) +:+ c) = String x (a +:+ b +:+ c)).
  by rewrite IH.
Qed.

Lemma mentions_here (x post : string) : mentions (x +:+ post) x.
Proof. exists "", post. reflexivity. Qed.

Lemma mentions_later (pre msg x : string) :
  mentions msg x → mentions (pre +:+ msg) x.
Proof.
  intros (p & q & ->). exists (pre +:+ p), q. by rewrite append_assoc.
Qed.

Create HintDb mentions.
#[local] Hint Resolve mentions_here mentions_later : mentions.

Lemma fetch_message_mentions (p sha256 r : string) :
  let msg := fetch_message p sha256 (Some r) in
  mentions msg p ∧ mentions msg sha256 ∧ mentions msg r.
Proof. unfold fetch_message, format_opt. repeat split; auto 10 with mentions. Qed.

Lemma track_detail_mentions (p r new_ref : string) :
  let detail := track_detail p (Some r) new_ref in
  mentions detail p ∧ mentions detail r ∧ mentions detail new_ref.
Proof. unfold track_detail, format_opt. repeat split; auto 20 with mentions. Qed.

(** C2. With a declared ref [r], and the mirror population returning
    the digest [sha256]: [fetch] raises if and only if [sha256] differs
    from [r]; the error is the [SourceError] whose message contains the
    path of the source, the computed digest and the declared one; when
    the digests are equal [fetch] returns without error.  In both cases
    the world is the one the mirror population left. *)
Theorem fetch_raises_iff_mismatch (w w1 : world) (r sha256 : string) :
  ref (self w) = Some r →
  _ensure_mirror w = (inr sha256, w1) →
  ((∃ e, (fetch w).1 = inl e) ↔ sha256 ≠ r)
  ∧ (sha256 = r → fetch w = (inr tt, w1))
  ∧ (sha256 ≠ r →
       let msg := fetch_message (path (self w)) sha256 (Some r) in
       fetch w = (inl (SourceError msg), w1)
       ∧ mentions msg (path (self w)) ∧ mentions msg r ∧ mentions msg sha256).
Proof.
  intros Hr Hm.
  assert (Hf : fetch w =
    if decide (Some sha256 ≠ Some r)
    then (inl (SourceError (fetch_message (path (self w)) sha256 (Some r))), w1)
    else (inr tt, w1)).
  { unfold fetch, bind, get_self. rewrite Hm, Hr. by destruct (decide _). }
  destruct (decide (Some sha256 ≠ Some r)) as [Hne|Heq].
  - assert (sha256 ≠ r) by congruence.
    split; [|split]; [| done |].
    + rewrite Hf. split; [done | eauto].
    + intros _. split; [done|].
      destruct (fetch_message_mentions (path (self w)) sha256 r) as (? & ? & ?).
      done.
  - assert (sha256 = r).
    { destruct (decide (sha256 = r)) as [|Hn]; [done|].
      exfalso. apply Heq. congruence. }
    split; [|split]; [| done | done].
    rewrite Hf. split; [intros [e He]; discriminate | done].
Qed.

Lemma fetch_raises_iff_mismatch_witness :
  let w := Examples.world_of "files/bob.txt" (Some "abc") Examples.project in
  ((∃ e, (fetch w).1 = inl e) ↔ Examples.bob_digest ≠ "abc")
  ∧ (Examples.bob_digest = "abc" → fetch w = (inr tt, (_ensure_mirror w).2))
  ∧ (Examples.bob_digest ≠ "abc" →
       let msg := fetch_message "files/bob.txt" Examples.bob_digest (Some "abc") in
       fetch w = (inl (SourceError msg), (_ensure_mirror w).2)
       ∧ mentions msg "files/bob.txt" ∧ mentions msg "abc"
       ∧ mentions msg Examples.bob_digest).
Proof.
  apply (fetch_raises_iff_mismatch
           (Examples.world_of "files/bob.txt" (Some "abc") Examples.project)
           (_ensure_mirror
              (Examples.world_of "files/bob.txt" (Some "abc") Examples.project)).2
           "abc" Examples.bob_digest).
  - reflexivity.
  - assert (H : (_ensure_mirror
                   (Examples.world_of "files/bob.txt" (Some "abc") Examples.project)).1
                = inr Examples.bob_digest) by (vm_compute; reflexivity).
    rewrite <- H. apply surjective_pairing.
Defined.

(** C3 as stated fails: with the declared ref set to the empty string
    the new digest differs from it and yet [track] gives no warning. *)
Lemma track_empty_ref_gives_no_warning :
  let w := Examples.world_of "files/bob.txt" (Some "") Examples.project in
  ¬ (warnings (track w).2 ≠ warnings w
     ↔ ∃ r, ref (self w) = Some r ∧ (track w).1 ≠ inr r).
Proof.
  intros w [_ H].
  apply H; [| vm_compute; reflexivity].
  exists "". split; [reflexivity | vm_compute; discriminate].
Qed.

(** C3, amended. [track] always runs the mirror population and returns
    the digest it computed; it never raises on a difference.  It hands
    one warning to [warn] if and only if the declared ref is set to a
    non-empty string that differs from the new digest, and the detail of
    the warning contains the tracked path, the current ref and the new
    ref. *)
Theorem track_returns_new_ref (w w1 : world) (new_ref : string) :
  _ensure_mirror w = (inr new_ref, w1) →
  ((∃ r, ref (self w) = Some r ∧ r ≠ "" ∧ r ≠ new_ref) →
     ∃ r detail,
       ref (self w) = Some r
       ∧ track w = (inr new_ref,
                    {| self := self w1; fs := fs w1;
                       warnings := warnings w1 ++ [("Local files have changed", detail)] |})
       ∧ mentions detail (path (self w)) ∧ mentions detail r
       ∧ mentions detail new_ref)
  ∧ (¬ (∃ r, ref (self w) = Some r ∧ r ≠ "" ∧ r ≠ new_ref) →
     track w = (inr new_ref, w1)).
Proof.
  intros Hm. unfold track, bind, get_self. rewrite Hm. split.
  - intros (r & Hr & Hne & Hdiff). exists r, (track_detail (path (self w)) (Some r) new_ref).
    rewrite Hr. split; [done|]. split.
    + unfold truthy. rewrite bool_decide_eq_false_2 by done.
      rewrite bool_decide_eq_true_2 by congruence. reflexivity.
    + apply track_detail_mentions.
  - intros Hno.
    destruct (truthy (ref (self w)) && bool_decide (ref (self w) ≠ Some new_ref)) eqn:Hc;
      [| reflexivity].
    exfalso. apply Hno. apply andb_true_iff in Hc as [Ht Hd].
    apply bool_decide_eq_true_1 in Hd.
    destruct (ref (self w)) as [r|]; [| discriminate].
    exists r. split; [done|]. split; [| congruence].
    unfold truthy in Ht. apply negb_true_iff, bool_decide_eq_false_1 in Ht. done.
Qed.

Lemma track_returns_new_ref_witness :
  let w := Examples.world_of "files/bob.txt" (Some "abc") Examples.project in
  let w1 := (_ensure_mirror w).2 in
  ((∃ r, ref (self w) = Some r ∧ r ≠ "" ∧ r ≠ Examples.bob_digest) →
     ∃ r detail,
       ref (self w) = Some r
       ∧ track w = (inr Examples.bob_digest,
                    {| self := self w1; fs := fs w1;
                       warnings := warnings w1 ++ [("Local files have changed", detail)] |})
       ∧ mentions detail (path (self w)) ∧ mentions detail r
       ∧ mentions detail Examples.bob_digest)
  ∧ (¬ (∃ r, ref (self w) = Some r ∧ r ≠ "" ∧ r ≠ Examples.bob_digest) →
     track w = (inr Examples.bob_digest, w1)).
Proof.
  apply (track_returns_new_ref
           (Examples.world_of "files/bob.txt" (Some "abc") Examples.project)
           (_ensure_mirror
              (Examples.world_of "files/bob.txt" (Some "abc") Examples.project)).2
           Examples.bob_digest).
  assert (H : (_ensure_mirror
                 (Examples.world_of "files/bob.txt" (Some "abc") Examples.project)).1
              = inr Examples.bob_digest) by (vm_compute; reflexivity).
  rewrite <- H. apply surjective_pairing.
Defined.

(** ** The digest on concrete trees *)

(** C1. The code departs from the claim on a symbolic link that leads
    to a directory: [unique_key] asks [os.path.isdir] first, which
    follows the link, so the token of the link [l -> d] is ["0"] and not
    its target ["d"], and the digest of the tree is the fold over
    [("d", "0"); ("l", "0")]. *)
Theorem unique_key_of_link_to_directory :
  let d := Examples.linked in
  let l := "/proj/files/tree/l" in
  Os.islink d l = true
  ∧ Os.readlink d l = inr "d"
  ∧ unique_key d l = inr "0"
  ∧ Utils.list_relative_paths d "/proj/files/tree" true = ["d"; "l"]
  ∧ _generate_ref (self (Examples.world_of "files/tree" None d)) d "/proj/files/tree"
    = inr (Sha256.hexdigest (fold_left feed [("d", "0"); ("l", "0")] Sha256.new)).
Proof. vm_compute. repeat split; reflexivity. Qed.

(** C8. The digest is not the same for every faithful copy: the mirror
    entry that [_ensure_mirror] publishes for the tree [files/tree] has
    the same members, the same link target and the same file bytes as
    the tree, and a different digest, because the link [l -> ../shared]
    leads to a directory where the tree lies and to nothing where the
    copy lies. *)
Theorem digest_of_a_faithful_copy_differs :
  let w := Examples.world_of "files/tree" None Examples.escaping in
  let tree := "/proj/files/tree" in
  let sha256 := "219e7ba369aec560325d30736317a42d7be49efb38d779d62ebc557e6a0ed0dd" in
  let copy := OsPath.join Examples.mirror sha256 in
  let d' := fs (_ensure_mirror w).2 in
  (_ensure_mirror w).1 = inr sha256
  ∧ Utils.list_relative_paths d' copy true = Utils.list_relative_paths d' tree true
  ∧ Utils.list_relative_paths d' tree true = ["a.txt"; "l"]
  ∧ lstat d' (OsPath.join copy "a.txt") = lstat d' (OsPath.join tree "a.txt")
  ∧ lstat d' (OsPath.join copy "l") = Some (ILink "../shared")
  ∧ lstat d' (OsPath.join tree "l") = Some (ILink "../shared")
  ∧ _generate_ref (self w) d' copy = inr sha256
  ∧ _generate_ref (self w) d' tree
    = inr "965ce22bd839a42e4e0a6bc1f9f2b3a2001a3f5491e0ff15ec2c4131d9706051".
Proof. vm_compute. repeat split; reflexivity. Qed.

(** ** The mirror population on concrete subjects *)

(** C5. For the single-file subject [files/bob.txt] the entry published
    under the digest is the copied file itself: a regular file, not a
    directory, with no [files] segment inside it. *)
Theorem single_file_mirror_entry_is_a_file :
  let w := Examples.world_of "files/bob.txt" None Examples.project in
  let entry := OsPath.join Examples.mirror Examples.bob_digest in
  let d' := fs (_ensure_mirror w).2 in
  (_ensure_mirror w).1 = inr Examples.bob_digest
  ∧ lstat d' entry = Some (IFile 420 ("Hi bob" +:+ LF))
  ∧ Os.isdir d' entry = false
  ∧ Os.lexists d' (OsPath.join entry "files") = false
  ∧ Os.lexists d' (OsPath.join entry "files/bob.txt") = false.
Proof. vm_compute. repeat split; reflexivity. Qed.

(** C9. For the single-file subject [files/bob.txt] the second of two
    mirror populations in succession raises instead of returning the
    digest: the entry left by the first one is a regular file, which
    [_force_rmtree] cannot remove.  The subject is unchanged in between. *)
Theorem second_mirror_population_of_a_file_raises :
  let w := Examples.world_of "files/bob.txt" None Examples.project in
  let w1 := (_ensure_mirror w).2 in
  (_ensure_mirror w).1 = inr Examples.bob_digest
  ∧ lstat (fs w1) (fullpath (self w1)) = lstat (fs w) (fullpath (self w))
  ∧ (_ensure_mirror w1).1 = inl (UtilError "Failed to remove cache directory").
Proof. vm_compute. repeat split; reflexivity. Qed.

(** ** Staging on a concrete subject *)

(** C6 as stated fails: the single-file subject [files/bob.txt] is
    staged as [bob.txt] directly below the destination, and nothing is
    put at [files/bob.txt]. *)
Lemma stage_single_file_drops_directory_segments :
  let w := Examples.world_of "files/bob.txt" None Examples.project in
  let d' := fs (stage "/out" w).2 in
  (stage "/out" w).1 = inr tt
  ∧ Os.lexists d' (OsPath.join "/out" "files/bob.txt") = false
  ∧ Os.lexists d' (OsPath.join "/out" "files") = false
  ∧ lstat d' (OsPath.join "/out" "bob.txt") = Some (IFile 420 ("Hi bob" +:+ LF)).
Proof. vm_compute. repeat split; reflexivity. Qed.

(** ** Path resolution *)

Lemma walk_nil fuel d follow cwd : walk fuel d follow cwd [] = Some cwd.
Proof. destruct fuel; reflexivity. Qed.

Lemma walk_cons fuel d follow cwd c rest :
  walk fuel d follow cwd (c :: rest) =
    if decide (c = "" ∨ c = ".") then walk fuel d follow cwd rest
    else if decide (c = "..") then walk fuel d follow (removelast cwd) rest
    else
      match d !! (cwd ++ [c]) with
      | Some (IDir _) => walk fuel d follow (cwd ++ [c]) rest
      | Some (ILink t) =>
          if negb follow && is_nil rest then Some (cwd ++ [c])
          else match fuel with
               | O => None
               | S fuel' =>
                   walk fuel' d follow
                     (if OsPath.startswith_sep t then [] else cwd)
                     (OsPath.split_sep t ++ rest)
               end
      | _ => if is_nil rest then Some (cwd ++ [c]) else None
      end.
Proof. destruct fuel; reflexivity. Qed.

Lemma same_shape_lookup d d' k c :
  same_shape d d' → shape <$> d !! (k ++ [c]) = shape <$> d' !! (k ++ [c]).
Proof.
  intros H. specialize (H (k ++ [c])). unfold node_at in H.
  destruct (k ++ [c]) eqn:E; [by destruct k | done].
Qed.

Lemma walk_same_shape d d' follow :
  same_shape d d' →
  ∀ fuel cwd comps, walk fuel d follow cwd comps = walk fuel d' follow cwd comps.
Proof.
  intros Hs. induction fuel as [|fuel IHf].
  - intros cwd comps. revert cwd.
    induction comps as [|c rest IH]; intros cwd; [by rewrite !walk_nil|].
    rewrite !walk_cons. repeat case_decide; auto.
    pose proof (same_shape_lookup d d' cwd c Hs) as Hl.
    destruct (d !! (cwd ++ [c])) as [[]|], (d' !! (cwd ++ [c])) as [[]|];
      simpl in Hl; try discriminate; auto.
  - intros cwd comps. revert cwd.
    induction comps as [|c rest IH]; intros cwd; [by rewrite !walk_nil|].
    rewrite !walk_cons. repeat case_decide; auto.
    pose proof (same_shape_lookup d d' cwd c Hs) as Hl.
    destruct (d !! (cwd ++ [c])) as [[]|], (d' !! (cwd ++ [c])) as [[]|];
      simpl in Hl; try discriminate; auto.
    simplify_eq. destruct (negb follow && is_nil rest); auto.
Qed.

Lemma resolve_same_shape d d' follow p :
  same_shape d d' → resolve d follow p = resolve d' follow p.
Proof.
  intros Hs. unfold resolve. case_decide; [done|]. by apply walk_same_shape.
Qed.

(** A path whose last component is no symbolic link resolves to the
    same place whether links are followed there or not. *)
Lemma walk_nofollow_follow d :
  ∀ fuel cwd comps k,
    walk fuel d false cwd comps = Some k →
    is_link (node_at d k) = false →
    walk fuel d true cwd comps = Some k.
Proof.
  induction fuel as [|fuel IHf].
  - intros cwd comps. revert cwd.
    induction comps as [|c rest IH]; intros cwd k; [by rewrite !walk_nil|].
    rewrite !walk_cons. repeat case_decide; auto.
    destruct (d !! (cwd ++ [c])) as [[]|] eqn:El; auto.
    simpl. destruct (is_nil rest); simpl; [|done].
    intros [= <-]. unfold node_at. destruct (cwd ++ [c]) eqn:E; [by destruct cwd|].
    by rewrite El.
  - intros cwd comps. revert cwd.
    induction comps as [|c rest IH]; intros cwd k; [by rewrite !walk_nil|].
    rewrite !walk_cons. repeat case_decide; auto.
    destruct (d !! (cwd ++ [c])) as [[]|] eqn:El; auto.
    simpl. destruct (is_nil rest); simpl; [|by auto].
    intros [= <-]. unfold node_at. destruct (cwd ++ [c]) eqn:E; [by destruct cwd|].
    by rewrite El.
Qed.

Lemma lstat_not_link_stat d p n :
  lstat d p = Some n → is_link (Some n) = false → stat d p = Some n
  ∧ resolve d true p = resolve d false p.
Proof.
  unfold lstat, stat, resolve. case_decide; [done|].
  destruct (walk MAXSYMLINKS d false [] (OsPath.split_sep p)) as [k|] eqn:E; [|done].
  intros Hn Hl. change (node_at d k = Some n) in Hn.
  rewrite (walk_nofollow_follow d _ _ _ k E) by (by rewrite Hn).
  done.
Qed.

Lemma node_at_insert d k v k' :
  node_at (<[k := v]> d) k' =
    if decide (k' = []) then Some (IDir default_dir_mode)
    else if decide (k = k') then Some v else node_at d k'.
Proof.
  unfold node_at. destruct k' as [|c k']; [done|].
  rewrite decide_False by done. rewrite lookup_insert. by repeat case_decide.
Qed.

Lemma walk_follow_cases d :
  ∀ fuel cwd comps,
    walk fuel d false cwd comps = walk fuel d true cwd comps
    ∨ ∃ k, walk fuel d false cwd comps = Some k ∧ is_link (node_at d k) = true.
Proof.
  induction fuel as [|fuel IHf].
  - intros cwd comps. revert cwd.
    induction comps as [|c rest IH]; intros cwd; [left; by rewrite !walk_nil|].
    rewrite !walk_cons. repeat case_decide; auto.
    destruct (d !! (cwd ++ [c])) as [[]|] eqn:El; auto.
    simpl. destruct (is_nil rest); simpl; [|by left].
    right. exists (cwd ++ [c]). split; [done|].
    unfold node_at. destruct (cwd ++ [c]) eqn:E; [by destruct cwd|]. by rewrite El.
  - intros cwd comps. revert cwd.
    induction comps as [|c rest IH]; intros cwd; [left; by rewrite !walk_nil|].
    rewrite !walk_cons. repeat case_decide; auto.
    destruct (d !! (cwd ++ [c])) as [[]|] eqn:El; auto.
    simpl. destruct (is_nil rest); simpl; [|by auto].
    right. exists (cwd ++ [c]). split; [done|].
    unfold node_at. destruct (cwd ++ [c]) eqn:E; [by destruct cwd|]. by rewrite El.
Qed.

Lemma not_islink_resolve d p :
  Os.islink d p = false → resolve d false p = resolve d true p.
Proof.
  unfold Os.islink, lstat, resolve. case_decide; [done|]. intros Hl.
  destruct (walk_follow_cases d MAXSYMLINKS [] (OsPath.split_sep p))
    as [E|(k & E & Hk)]; [done|].
  rewrite E in Hl. simpl in Hl. congruence.
Qed.

(** ** Running the loops *)

Lemma atomic_inv (op : disk → exn + disk) d d' :
  atomic op d = (inr tt, d') → op d = inr d'.
Proof. unfold atomic. destruct (op d); intros [= <-]; done. Qed.

Lemma for_each_cons_inv {St A} (x : A) (l : list A) (body : A → SE St unit) s s' :
  for_each (x :: l) body s = (inr tt, s') →
  ∃ s1, body x s = (inr tt, s1) ∧ for_each l body s1 = (inr tt, s').
Proof.
  simpl. intros H. apply bind_inv_ok in H as ([] & s1 & H1 & H2). eauto.
Qed.

Lemma chmod_inv p m d d' :
  Os.chmod p m d = inr d' →
  ∃ k n, resolve d true p = Some k ∧ node_at d k = Some n
         ∧ d' = <[k := Os.set_mode m n]> d.
Proof.
  unfold Os.chmod. destruct (resolve d true p) as [k|]; [|done].
  destruct (node_at d k) as [n|] eqn:E; [|done]. intros [= <-]. eauto.
Qed.

Lemma isdir_inv d p :
  Os.isdir d p = true →
  ∃ k m, resolve d true p = Some k ∧ node_at d k = Some (IDir m).
Proof.
  unfold Os.isdir, stat. destruct (resolve d true p) as [k|]; [|done].
  simpl. destruct (node_at d k) as [[]|] eqn:E; try done. eauto.
Qed.

(** ** Modes after staging *)

Lemma normalized_idem n : normalized (normalized n) = normalized n.
Proof.
  destruct n as [m c| |]; simpl; [|done|done].
  destruct (decide (Z.land m Stat.S_IXUSR ≠ 0%Z)); reflexivity.
Qed.

Lemma shape_normalized n : shape (normalized n) = shape n.
Proof. by destruct n. Qed.

Lemma evolves_refl d : evolves d d.
Proof. intros k. by left. Qed.

Lemma evolves_same_shape d1 d : evolves d1 d → same_shape d d1.
Proof.
  intros H k. destruct (H k) as [->| ->]; [done|].
  destruct (node_at d1 k); simpl; [|done]. by rewrite shape_normalized.
Qed.

Lemma refines_refl d1 d : evolves d1 d → refines d1 d d.
Proof. by split. Qed.

Lemma refines_trans d1 d d2 d3 :
  refines d1 d d2 → refines d1 d2 d3 → refines d1 d d3.
Proof. intros [_ H1] [H2 H3]. split; auto. Qed.

Lemma settled_refines d1 d d2 p : refines d1 d d2 → settled d1 d p → settled d1 d2 p.
Proof. intros [_ H] (k & n & ? & ? & ?). exists k, n. auto. Qed.

Lemma normalize_step d1 d k n :
  evolves d1 d → node_at d k = Some n →
  refines d1 d (<[k := normalized n]> d) ∧ normal_at d1 (<[k := normalized n]> d) k.
Proof.
  intros He Hn.
  assert (Hroot : normalized <$> node_at d1 [] = node_at d1 []) by reflexivity.
  assert (Hk : Some (normalized n) = normalized <$> node_at d1 k).
  { destruct (He k) as [E|E]; rewrite Hn in E; [by rewrite <- E|].
    destruct (node_at d1 k) as [n'|]; [|done]. simpl in *. simplify_eq.
    by rewrite normalized_idem. }
  assert (Hat : normal_at d1 (<[k := normalized n]> d) k).
  { unfold normal_at. rewrite node_at_insert. case_decide as E0; [by subst|].
    by rewrite decide_True. }
  split; [split|]; [| |done].
  - intros k'. rewrite node_at_insert. case_decide as E0; [subst; by left|].
    case_decide; [subst; by right | apply He].
  - intros k' Hk'. unfold normal_at. rewrite node_at_insert.
    case_decide as E0; [by subst|]. case_decide; [by subst | done].
Qed.

(** Each [chmod] of the loop gives the inode its normalized mode. *)
Lemma chmod_dir_normalizes d p d' :
  Os.isdir d p = true → Os.chmod p rwxr_xr_x d = inr d' →
  ∃ k n, resolve d true p = Some k ∧ node_at d k = Some n
         ∧ d' = <[k := normalized n]> d.
Proof.
  intros Hd Hc. apply isdir_inv in Hd as (k & m & Hk & Hn).
  apply chmod_inv in Hc as (k' & n & Hk' & Hn' & ->). simplify_eq.
  exists k, (IDir m). done.
Qed.

Lemma chmod_file_normalizes d p n d' :
  Os.isdir d p = false → stat d p = Some n →
  Os.chmod p (if decide (Z.land (match n with IFile m _ | IDir m => m | ILink _ => 0%Z end)
                           Stat.S_IXUSR ≠ 0%Z)
              then rwxr_xr_x else rw_r__r__) d = inr d' →
  ∃ k, resolve d true p = Some k ∧ node_at d k = Some n
       ∧ d' = <[k := normalized n]> d.
Proof.
  intros Hd Hs Hc. apply chmod_inv in Hc as (k & n' & Hk & Hn & ->).
  unfold Os.isdir, stat in *. rewrite Hk in Hs, Hd. simpl in Hs, Hd.
  rewrite Hn in Hs, Hd. simplify_eq. exists k. split; [done|]. split; [done|].
  destruct n as [m c| |]; simpl in *; [|done|done].
  by case_decide.
Qed.

Lemma settle_by_normalizing d1 d p k n :
  evolves d1 d → resolve d false p = Some k → node_at d k = Some n →
  refines d1 d (<[k := normalized n]> d) ∧ settled d1 (<[k := normalized n]> d) p
  ∧ ∃ n1, node_at d1 k = Some n1 ∧ shape n1 = shape n.
Proof.
  intros He Hk Hn.
  destruct (normalize_step d1 d k n He Hn) as [Hr Hat].
  assert (∃ n1, node_at d1 k = Some n1 ∧ shape n1 = shape n) as (n1 & Hn1 & Hs).
  { pose proof (evolves_same_shape _ _ He k) as E. rewrite Hn in E.
    destruct (node_at d1 k) as [n1|]; [|done]. simpl in E. exists n1. split; congruence. }
  split; [done|]. split; [|eauto].
  exists k, n1. split; [|done].
  by rewrite <- (resolve_same_shape d d1 false p (evolves_same_shape _ _ He)).
Qed.
Lemma same_shape_sym d d' : same_shape d d' → same_shape d' d.
Proof. intros H k. by rewrite H. Qed.

Lemma stage_chmod_dir_settles directory dirs i d1 d d2 :
  evolves d1 d →
  stage_chmod_dir directory dirs i d = (inr tt, d2) →
  refines d1 d d2
  ∧ settled d1 d2 (OsPath.join_all directory (take i dirs))
  ∧ ∃ m, lstat d1 (OsPath.join_all directory (take i dirs)) = Some (IDir m).
Proof.
  intros He. unfold stage_chmod_dir.
  set (p := OsPath.join_all directory (take i dirs)).
  intros H. apply bind_inv_ok in H as (ok & d0 & Hq & H).
  unfold query_total in Hq. simplify_eq.
  apply bind_inv_ok in H as ([] & d3 & Ha & H).
  destruct (Os.isdir d0 p && negb (Os.islink d0 p)) eqn:Hok; [|done].
  unfold assert_, ret in Ha. simplify_eq.
  apply andb_true_iff in Hok as [Hd Hl]. apply negb_true_iff in Hl.
  apply atomic_inv in H.
  destruct (chmod_dir_normalizes d3 p d2 Hd H) as (k & n & Hk & Hn & ->).
  rewrite <- (not_islink_resolve d3 p Hl) in Hk.
  destruct (settle_by_normalizing d1 d3 p k n He Hk Hn) as (Hr & Hs & n1 & Hn1 & Hsh).
  split; [done|]. split; [done|].
  apply isdir_inv in Hd as (k' & m & Hk' & Hn').
  rewrite <- (not_islink_resolve d3 p Hl) in Hk'.
  rewrite Hk in Hk'. injection Hk' as <-. rewrite Hn in Hn'. injection Hn' as ->.
  destruct n1 as [| |m1]; try done. exists m1.
  unfold lstat.
  rewrite (resolve_same_shape d1 d3 false p) by (by apply same_shape_sym, evolves_same_shape).
  rewrite Hk. done.
Qed.

Lemma stage_chmod_dirs_settle directory dirs d1 :
  ∀ l d d2,
    evolves d1 d →
    for_each l (stage_chmod_dir directory dirs) d = (inr tt, d2) →
    refines d1 d d2
    ∧ ∀ i, i ∈ l →
        settled d1 d2 (OsPath.join_all directory (take i dirs))
        ∧ ∃ m, lstat d1 (OsPath.join_all directory (take i dirs)) = Some (IDir m).
Proof.
  induction l as [|i l IH]; intros d d2 He H.
  - simpl in H. unfold ret in H. simplify_eq. split; [by apply refines_refl|].
    intros i Hi. by apply elem_of_nil in Hi.
  - apply for_each_cons_inv in H as (d3 & H1 & H2).
    destruct (stage_chmod_dir_settles _ _ _ _ _ _ He H1) as (Hr1 & Hs1 & Hm1).
    destruct (IH d3 d2 (proj1 Hr1) H2) as (Hr2 & Hall).
    split; [by eapply refines_trans|].
    intros j Hj. apply elem_of_cons in Hj as [->|Hj]; [|by apply Hall].
    split; [|done]. by eapply settled_refines.
Qed.

Lemma settled_lstat d1 d p :
  evolves d1 d → settled d1 d p →
  is_Some (lstat d1 p) ∧ lstat d p = normalized <$> lstat d1 p.
Proof.
  intros He (k & n & Hk & Hn & Hat). unfold lstat.
  rewrite (resolve_same_shape d d1 false p) by (by apply evolves_same_shape).
  rewrite Hk. simpl. rewrite Hn. split; [eauto|]. rewrite Hat, Hn. done.
Qed.

Lemma stage_chmod_one_settles directory f d1 d d2 :
  evolves d1 d →
  stage_chmod_one directory f d = (inr tt, d2) →
  refines d1 d d2
  ∧ settled d1 d2 (OsPath.join directory f)
  ∧ ∀ i, 1 ≤ i < length (OsPath.split_sep f) →
      settled d1 d2 (OsPath.join_all directory (take i (OsPath.split_sep f)))
      ∧ ∃ m, lstat d1 (OsPath.join_all directory (take i (OsPath.split_sep f)))
             = Some (IDir m).
Proof.
  intros He. unfold stage_chmod_one.
  set (dirs := OsPath.split_sep f). set (p := OsPath.join directory f).
  intros H. apply bind_inv_ok in H as ([] & d3 & Hanc & H).
  destruct (stage_chmod_dirs_settle directory dirs d1 _ d d3 He Hanc) as (Hr1 & Hall).
  assert (He3 : evolves d1 d3) by apply Hr1.
  assert (Hmember : refines d1 d3 d2 ∧ settled d1 d2 p).
  { apply bind_inv_ok in H as (lnk & d4 & Hq & H).
    unfold query_total in Hq. simplify_eq.
    destruct (Os.islink d4 p) eqn:Hl.
    - unfold ret in H. simplify_eq. split; [by apply refines_refl|].
      unfold Os.islink, lstat in Hl.
      destruct (resolve d2 false p) as [k|] eqn:Hk; [|done]. simpl in Hl.
      destruct (node_at d2 k) as [[|t|]|] eqn:Hn; try done.
      rewrite (resolve_same_shape d2 d1 false p) in Hk by (by apply evolves_same_shape).
      destruct (He3 k) as [E|E]; rewrite Hn in E.
      + exists k, (ILink t). split; [done|]. split; [done|].
        unfold normal_at. by rewrite Hn, <- E.
      + destruct (node_at d1 k) as [n1|] eqn:Hn1; [|done]. exists k, n1.
        split; [done|]. split; [done|]. unfold normal_at. by rewrite Hn, Hn1.
    - apply bind_inv_ok in H as (isd & d5 & Hq & H).
      unfold query_total in Hq. simplify_eq.
      destruct (Os.isdir d5 p) eqn:Hd.
      + apply atomic_inv in H.
        destruct (chmod_dir_normalizes d5 p d2 Hd H) as (k & n & Hk & Hn & ->).
        rewrite <- (not_islink_resolve d5 p Hl) in Hk.
        destruct (settle_by_normalizing d1 d5 p k n He3 Hk Hn) as (? & ? & _). done.
      + apply bind_inv_ok in H as (st & d6 & Hq & H).
        unfold query in Hq.
        destruct (stat d5 p) as [n|] eqn:Hst; [|done]. simplify_eq.
        assert (Hc : Os.chmod p
            (if decide (Z.land (match st with IFile m _ | IDir m => m | ILink _ => 0%Z end)
                          Stat.S_IXUSR ≠ 0%Z)
             then rwxr_xr_x else rw_r__r__) d6 = inr d2).
        { case_decide; by apply atomic_inv in H. }
        destruct (chmod_file_normalizes d6 p st d2 Hd Hst Hc) as (k & Hk & Hn & ->).
        rewrite <- (not_islink_resolve d6 p Hl) in Hk.
        destruct (settle_by_normalizing d1 d6 p k st He3 Hk Hn) as (? & ? & _). done. }
  destruct Hmember as [Hr2 Hs2].
  split; [by eapply refines_trans|]. split; [done|].
  intros i Hi.
  destruct (Hall i) as [Hs Hm].
  { apply elem_of_seq. lia. }
  split; [|done]. by eapply settled_refines.
Qed.

Lemma stage_chmod_settles directory d1 :
  ∀ files d d2,
    evolves d1 d →
    stage_chmod directory files d = (inr tt, d2) →
    refines d1 d d2
    ∧ ∀ f, f ∈ files →
        settled d1 d2 (OsPath.join directory f)
        ∧ ∀ i, 1 ≤ i < length (OsPath.split_sep f) →
            settled d1 d2 (OsPath.join_all directory (take i (OsPath.split_sep f)))
            ∧ ∃ m, lstat d1 (OsPath.join_all directory (take i (OsPath.split_sep f)))
                   = Some (IDir m).
Proof.
  unfold stage_chmod.
  induction files as [|f files IH]; intros d d2 He H.
  - simpl in H. unfold ret in H. simplify_eq. split; [by apply refines_refl|].
    intros f Hf. by apply elem_of_nil in Hf.
  - apply for_each_cons_inv in H as (d3 & H1 & H2).
    destruct (stage_chmod_one_settles _ _ _ _ _ He H1) as (Hr1 & Hs1 & Hm1).
    destruct (IH d3 d2 (proj1 Hr1) H2) as (Hr2 & Hall).
    split; [by eapply refines_trans|].
    intros g Hg. apply elem_of_cons in Hg as [->|Hg]; [|by apply Hall].
    split; [by eapply settled_refines|].
    intros i Hi. destruct (Hm1 i Hi) as [Hs Hm]. split; [|done].
    by eapply settled_refines.
Qed.
Lemma on_disk_inv {A} (m : SE disk A) w r w' :
  on_disk m w = (r, w') →
  m (fs w) = (r, fs w') ∧ self w' = self w ∧ warnings w' = warnings w.
Proof.
  unfold on_disk. destruct (m (fs w)) as [r0 d']. intros [= <- <-]. done.
Qed.



(** The scenario of the specification: a directory with an executable
    file and a plain file. *)
Example stage_modes_scenario :
  let w := Examples.world_of "files/sally" None Examples.project in
  let d' := fs (stage "/out" w).2 in
  (stage "/out" w).1 = inr tt
  ∧ lstat d' "/out/run.sh" = Some (IFile rwxr_xr_x "#!/bin/sh")
  ∧ lstat d' "/out/sally.hello" = Some (IFile rw_r__r__ ("Hello from Sally" +:+ LF))
  ∧ lstat d' "/out/docs/readme" = Some (IFile rw_r__r__ "read me")
  ∧ lstat d' "/out/docs" = Some (IDir rwxr_xr_x)
  ∧ lstat d' "/out/empty" = Some (IDir rwxr_xr_x)
  ∧ lstat d' "/out/latest" = Some (ILink "docs/readme").
Proof. vm_compute. repeat split; reflexivity. Qed.
(** ** Path strings and their components *)

Lemma append_cons x (a b : string) : String x a +:+ b = String x (a +:+ b).
Proof. reflexivity. Qed.

Lemma append_nil_l (b : string) : "" +:+ b = b.
Proof. reflexivity. Qed.

Lemma split_sep_ne s : OsPath.split_sep s ≠ [].
Proof.
  destruct s as [|c s]; [done|]. simpl. destruct (OsPath.is_sep c); [done|].
  by destruct (OsPath.split_sep s).
Qed.

Lemma split_sep_app_sep (a b : string) :
  OsPath.split_sep (a +:+ "/" +:+ b) = OsPath.split_sep a ++ OsPath.split_sep b.
Proof.
  induction a as [|c a IH].
  - rewrite append_nil_l. reflexivity.
  - rewrite append_cons. simpl. rewrite IH.
    destruct (OsPath.is_sep c); [done|].
    pose proof (split_sep_ne a). by destruct (OsPath.split_sep a).
Qed.

Lemma split_sep_no_sep s : Forall no_sep (OsPath.split_sep s).
Proof.
  induction s as [|c s IH]; simpl.
  - by constructor.
  - destruct (OsPath.is_sep c) eqn:Ec; [by constructor|].
    destruct (OsPath.split_sep s) as [|w ws]; [by constructor; [unfold no_sep; simpl; rewrite Ec|]|].
    inversion IH; subst. constructor; [|done].
    unfold no_sep in *. simpl. by rewrite Ec.
Qed.

Lemma split_sep_plain (c : string) : no_sep c → OsPath.split_sep c = [c].
Proof.
  induction c as [|x c IH]; [done|]. unfold no_sep. simpl.
  intros H. apply andb_true_iff in H as [Hx Hc]. apply negb_true_iff in Hx.
  rewrite Hx. by rewrite (IH Hc).
Qed.

Lemma concat_cons (c : string) (r : list string) :
  r ≠ [] → String.concat "/" (c :: r) = c +:+ "/" +:+ String.concat "/" r.
Proof. by destruct r. Qed.

Lemma split_sep_concat (r : list string) :
  r ≠ [] → Forall no_sep r → OsPath.split_sep (String.concat "/" r) = r.
Proof.
  induction r as [|c r IH]; [done|]. intros _ H. inversion H; subst.
  destruct r as [|c' r].
  - simpl. by apply split_sep_plain.
  - rewrite concat_cons by done. rewrite split_sep_app_sep, IH by done.
    by rewrite split_sep_plain.
Qed.

Lemma valid_name_no_sep c : Utils.valid_name c = true → no_sep c.
Proof. unfold Utils.valid_name. intros H. by apply andb_true_iff in H as [_ ?]. Qed.

Lemma valid_name_plain c :
  Utils.valid_name c = true → c ≠ "" ∧ c ≠ "." ∧ c ≠ "..".
Proof.
  unfold Utils.valid_name. intros H. apply andb_true_iff in H as [H _].
  apply negb_true_iff, bool_decide_eq_false_1 in H. tauto.
Qed.

Lemma valid_name_iff c :
  Utils.valid_name c = true ↔ (c ≠ "" ∧ c ≠ "." ∧ c ≠ "..") ∧ no_sep c.
Proof.
  split; [intros H; split; [by apply valid_name_plain | by apply valid_name_no_sep]|].
  intros [H1 H2]. unfold Utils.valid_name. apply andb_true_iff. split; [|done].
  apply negb_true_iff, bool_decide_eq_false_2. tauto.
Qed.

Lemma rel_comps_concat (r : list string) :
  Forall (fun c => Utils.valid_name c = true) r → r ≠ [] →
  Utils.rel_comps (String.concat "/" r) = r.
Proof.
  intros H Hne. unfold Utils.rel_comps. rewrite split_sep_concat; [|done|].
  - induction H as [|c r Hc Hr IH]; [done|]. rewrite filter_cons_True.
    + destruct r; [done|]. by rewrite IH.
    + apply valid_name_plain in Hc. tauto.
  - eapply Forall_impl; [done|]. apply valid_name_no_sep.
Qed.

Lemma rel_comps_dot : Utils.rel_comps "." = [].
Proof. reflexivity. Qed.

(** The components of a joined path. *)
Lemma endswith_sep_inv a : OsPath.endswith_sep a = true → ∃ a', a = a' +:+ "/".
Proof.
  induction a as [|c a IH]; [done|]. simpl. destruct a as [|c' a].
  - unfold OsPath.is_sep. intros H. apply Ascii.eqb_eq in H as ->. by exists "".
  - intros H. destruct (IH H) as [a' ->]. by exists (String c a').
Qed.

Lemma split_sep_app_sep_end a : OsPath.split_sep (a +:+ "/") = OsPath.split_sep a ++ [""].
Proof.
  change (a +:+ "/") with (a +:+ "/" +:+ "").
  by rewrite split_sep_app_sep.
Qed.

Lemma rel_comps_app l1 l2 :
  filter (fun c : string => c ≠ "" ∧ c ≠ ".") (l1 ++ l2)
  = filter (fun c : string => c ≠ "" ∧ c ≠ ".") l1
    ++ filter (fun c : string => c ≠ "" ∧ c ≠ ".") l2.
Proof. apply filter_app. Qed.

Lemma rel_comps_join a b :
  a ≠ "" → OsPath.startswith_sep b = false →
  Utils.rel_comps (OsPath.join a b) = Utils.rel_comps a ++ Utils.rel_comps b.
Proof.
  intros Ha Hb. unfold OsPath.join. rewrite Hb. rewrite decide_False by done.
  unfold Utils.rel_comps.
  destruct (OsPath.endswith_sep a) eqn:He.
  - apply endswith_sep_inv in He as [a' ->].
    rewrite append_assoc, split_sep_app_sep, split_sep_app_sep_end.
    rewrite !filter_app. rewrite (filter_cons_False _ ""), filter_nil by tauto.
    by rewrite app_nil_r.
  - by rewrite split_sep_app_sep, filter_app.
Qed.
(** ** Paths through real directories *)

Lemma dirs_below_nil d cwd : dirs_below d cwd [].
Proof. intros i [? Hi]. simpl in Hi. lia. Qed.

Lemma dirs_below_cons d cwd c r :
  dirs_below d cwd (c :: r) ↔
  is_dir (node_at d (cwd ++ [c])) = true ∧ dirs_below d (cwd ++ [c]) r.
Proof.
  split.
  - intros H. split; [apply (H 1); simpl; lia|].
    intros i Hi. specialize (H (S i)). simpl in H. rewrite <- app_assoc. apply H. lia.
  - intros [H1 H2] i Hi. destruct i as [|i]; [lia|]. simpl.
    destruct i as [|i]; [by rewrite take_0|].
    specialize (H2 (S i)). rewrite <- app_assoc in H2. apply H2. simpl in Hi. lia.
Qed.

Lemma dirs_below_app d cwd r1 r2 :
  dirs_below d cwd (r1 ++ r2) ↔ dirs_below d cwd r1 ∧ dirs_below d (cwd ++ r1) r2.
Proof.
  revert cwd. induction r1 as [|c r1 IH]; intros cwd.
  - simpl. rewrite app_nil_r. split; [intros; split; [apply dirs_below_nil|done]|by intros []].
  - simpl. rewrite !dirs_below_cons, IH, <- app_assoc. simpl. tauto.
Qed.

Lemma node_at_snoc d k c : node_at d (k ++ [c]) = d !! (k ++ [c]).
Proof. unfold node_at. destruct (k ++ [c]) eqn:E; [by destruct k|done]. Qed.

Lemma walk_dirs d fuel follow rest :
  ∀ comps cwd,
    Forall (fun c => Utils.valid_name c = true)
           (filter (fun c : string => c ≠ "" ∧ c ≠ ".") comps) →
    dirs_below d cwd (filter (fun c : string => c ≠ "" ∧ c ≠ ".") comps) →
    walk fuel d follow cwd (comps ++ rest)
    = walk fuel d follow (cwd ++ filter (fun c : string => c ≠ "" ∧ c ≠ ".") comps) rest.
Proof.
  induction comps as [|c comps IH]; intros cwd Hv Hd.
  - simpl. by rewrite app_nil_r.
  - simpl. rewrite walk_cons. case_decide as Hskip.
    + rewrite filter_cons_False in Hv, Hd |- * by tauto. by apply IH.
    + rewrite filter_cons_True in Hv, Hd |- * by tauto.
      inversion Hv as [|? ? Hc Hv']; subst.
      apply valid_name_plain in Hc. rewrite decide_False by tauto.
      apply dirs_below_cons in Hd as [Hd1 Hd2].
      rewrite node_at_snoc in Hd1.
      destruct (d !! (cwd ++ [c])) as [[]|]; try done.
      rewrite IH by done. by rewrite <- app_assoc.
Qed.

Lemma walk_last d fuel cwd c :
  Utils.valid_name c = true → walk fuel d false cwd [c] = Some (cwd ++ [c]).
Proof.
  intros Hc. apply valid_name_plain in Hc. rewrite walk_cons.
  rewrite !decide_False by tauto.
  destruct (d !! (cwd ++ [c])) as [[]|]; simpl; by rewrite ?walk_nil.
Qed.

Lemma resolve_real_dir d p k follow :
  real_dir_path d p k → resolve d follow p = Some k.
Proof.
  intros (Hp & <- & Hv & Hd). unfold resolve. rewrite decide_False by done.
  rewrite <- (app_nil_r (OsPath.split_sep p)).
  rewrite walk_dirs by done. by rewrite walk_nil.
Qed.

Lemma real_dir_path_is_dir d p k : real_dir_path d p k → is_dir (node_at d k) = true.
Proof.
  intros (_ & _ & _ & Hd). destruct k as [|c k] using rev_ind; [done|].
  specialize (Hd (length (k ++ [c]))). rewrite take_ge in Hd by lia.
  apply Hd. rewrite length_app. simpl. lia.
Qed.

Lemma join_ne a b : a ≠ "" → OsPath.startswith_sep b = false → OsPath.join a b ≠ "".
Proof.
  intros Ha Hb. unfold OsPath.join. rewrite Hb, decide_False by done.
  destruct a; [done|]. by destruct (OsPath.endswith_sep _).
Qed.

Lemma split_sep_join a b :
  a ≠ "" → OsPath.startswith_sep b = false →
  ∃ X, OsPath.split_sep (OsPath.join a b) = X ++ OsPath.split_sep b
       ∧ filter (fun c : string => c ≠ "" ∧ c ≠ ".") X = Utils.rel_comps a.
Proof.
  intros Ha Hb. unfold OsPath.join. rewrite Hb. rewrite decide_False by done.
  unfold Utils.rel_comps.
  destruct (OsPath.endswith_sep a) eqn:He.
  - apply endswith_sep_inv in He as [a' ->].
    exists (OsPath.split_sep a'). rewrite append_assoc, split_sep_app_sep. split; [done|].
    rewrite split_sep_app_sep_end, filter_app.
    rewrite (filter_cons_False _ ""), filter_nil by tauto. by rewrite app_nil_r.
  - exists (OsPath.split_sep a). by rewrite split_sep_app_sep.
Qed.

Lemma concat_not_abs (r : list string) :
  Forall (fun c => Utils.valid_name c = true) r →
  OsPath.startswith_sep (String.concat "/" r) = false.
Proof.
  intros H. destruct H as [|c r Hc Hr]; [done|].
  assert (OsPath.startswith_sep c = false) as Hs.
  { pose proof (valid_name_no_sep c Hc) as Hn. unfold no_sep in Hn.
    destruct c as [|x c]; [done|]. simpl in *.
    apply andb_true_iff in Hn as [Hn _]. by apply negb_true_iff in Hn. }
  destruct r; [done|]. rewrite concat_cons by done.
  destruct c; [by apply valid_name_plain in Hc as [? _]|done].
Qed.

Lemma filter_valid_names (r : list string) :
  Forall (fun c => Utils.valid_name c = true) r →
  filter (fun c : string => c ≠ "" ∧ c ≠ ".") r = r.
Proof.
  induction 1 as [|x r Hx Hr IH]; [done|].
  apply valid_name_plain in Hx. rewrite filter_cons_True by tauto. by rewrite IH.
Qed.

(** The member [r ++ [c]] of the directory named by [p]. *)
Lemma resolve_member d p k r c :
  real_dir_path d p k →
  Forall (fun c => Utils.valid_name c = true) (r ++ [c]) →
  dirs_below d k r →
  resolve d false (OsPath.join p (String.concat "/" (r ++ [c]))) = Some (k ++ r ++ [c]).
Proof.
  intros Hp Hv Hd.
  pose proof (concat_not_abs _ Hv) as Hrel.
  destruct Hp as (Hne & <- & Hvk & Hdk).
  unfold resolve. rewrite decide_False by (by apply join_ne).
  destruct (split_sep_join p _ Hne Hrel) as (X & -> & HX).
  rewrite split_sep_concat; [| by destruct r | ].
  2:{ eapply Forall_impl; [done|]. apply valid_name_no_sep. }
  apply Forall_app in Hv as [Hvr Hvc]. rewrite Forall_singleton in Hvc.
  rewrite app_assoc.
  assert (Hf : filter (fun c : string => c ≠ "" ∧ c ≠ ".") (X ++ r)
               = Utils.rel_comps p ++ r).
  { by rewrite filter_app, HX, filter_valid_names. }
  rewrite walk_dirs; rewrite Hf.
  - rewrite walk_last by done. simpl. by rewrite <- !app_assoc.
  - by apply Forall_app.
  - by apply dirs_below_app.
Qed.

Lemma resolve_dot d p k follow :
  real_dir_path d p k → resolve d follow (OsPath.join p ".") = Some k.
Proof.
  intros (Hne & <- & Hvk & Hdk).
  unfold resolve. rewrite decide_False by (by apply join_ne).
  destruct (split_sep_join p "." Hne eq_refl) as (X & -> & HX).
  rewrite <- (app_nil_r (X ++ _)).
  rewrite walk_dirs.
  - rewrite walk_nil, filter_app, HX. simpl.
    rewrite filter_cons_False, filter_nil by tauto. by rewrite app_nil_r.
  - rewrite filter_app, HX. simpl.
    rewrite filter_cons_False, filter_nil by tauto. by rewrite app_nil_r.
  - rewrite filter_app, HX. simpl.
    rewrite filter_cons_False, filter_nil by tauto. by rewrite app_nil_r.
Qed.
(** ** Copying a tree *)

Lemma extends_refl d : extends d d.
Proof. by intros k _. Qed.

Lemma extends_trans d1 d2 d3 : extends d1 d2 → extends d2 d3 → extends d1 d3.
Proof.
  intros H1 H2 k Hk. rewrite <- (H1 k Hk). apply H2. by rewrite (H1 k Hk).
Qed.

Lemma extends_dirs_preserved d d' : extends d d' → dirs_preserved d d'.
Proof.
  intros H k Hk. rewrite H; [done|]. by destruct (node_at d k).
Qed.

Lemma dirs_preserved_refl d : dirs_preserved d d.
Proof. by intros k. Qed.

Lemma dirs_preserved_trans d1 d2 d3 :
  dirs_preserved d1 d2 → dirs_preserved d2 d3 → dirs_preserved d1 d3.
Proof. intros H1 H2 k Hk. auto. Qed.

Lemma changes_below_refl Dk d : changes_below Dk d d.
Proof. by intros k _. Qed.

Lemma changes_below_trans Dk d1 d2 d3 :
  changes_below Dk d1 d2 → changes_below Dk d2 d3 → changes_below Dk d1 d3.
Proof. intros H1 H2 k Hk. by rewrite H2, H1. Qed.

Lemma node_at_insert_ne d k v k' :
  k ≠ [] → node_at (<[k := v]> d) k' = if decide (k = k') then Some v else node_at d k'.
Proof.
  intros Hk. rewrite node_at_insert. case_decide as E; [|done].
  subst. by rewrite decide_False.
Qed.

Lemma real_dir_path_preserved d d' p k :
  dirs_preserved d d' → real_dir_path d p k → real_dir_path d' p k.
Proof.
  intros Hp (? & ? & ? & Hd). repeat split; try done.
  intros i Hi. apply Hp, Hd, Hi.
Qed.

Lemma ensure_dir_spec Sk Dk p d d' :
  Dk ≠ [] →
  Utils.ensure_dir Sk Dk p d = (inr tt, d') →
  extends d d' ∧ changes_below Dk d d' ∧ is_dir (node_at d' (Dk ++ p)) = true.
Proof.
  intros HDk H. unfold Utils.ensure_dir in H. apply atomic_inv in H.
  assert (HDp : Dk ++ p ≠ []) by (by destruct Dk).
  destruct (node_at d (Dk ++ p)) as [[]|] eqn:E; simplify_eq.
  - split; [apply extends_refl|]. split; [apply changes_below_refl|]. by rewrite E.
  - split; [|split].
    + intros k Hk. rewrite node_at_insert_ne by done.
      case_decide; [|done]. subst. rewrite E in Hk. by destruct Hk.
    + intros k Hk. rewrite node_at_insert_ne by done.
      case_decide; [|done]. subst. destruct Hk. by apply prefix_app_r.
    + rewrite node_at_insert_ne by done. by rewrite decide_True.
Qed.

Lemma ensure_dirs_spec Sk Dk :
  Dk ≠ [] →
  ∀ l d d',
    for_each l (Utils.ensure_dir Sk Dk) d = (inr tt, d') →
    extends d d' ∧ changes_below Dk d d'
    ∧ ∀ p, p ∈ l → is_dir (node_at d' (Dk ++ p)) = true.
Proof.
  intros HDk. induction l as [|p l IH]; intros d d' H.
  - simpl in H. unfold ret in H. simplify_eq.
    split; [apply extends_refl|]. split; [apply changes_below_refl|].
    intros p Hp. by apply elem_of_nil in Hp.
  - apply for_each_cons_inv in H as (d1 & H1 & H2).
    destruct (ensure_dir_spec _ _ _ _ _ HDk H1) as (He1 & Hc1 & Hd1).
    destruct (IH _ _ H2) as (He2 & Hc2 & Hd2).
    split; [by eapply extends_trans|]. split; [by eapply changes_below_trans|].
    intros q Hq. apply elem_of_cons in Hq as [->|Hq]; [|by apply Hd2].
    by apply (extends_dirs_preserved _ _ He2).
Qed.

Lemma copy_member_spec Sk Dk f d d' :
  Dk ≠ [] →
  Utils.copy_member Sk Dk f d = (inr tt, d') →
  let r := Utils.rel_comps f in
  dirs_preserved d d' ∧ changes_below Dk d d' ∧ keeps_copies Sk Dk d d'
  ∧ is_Some (node_at d (Sk ++ r))
  ∧ node_at d' (Dk ++ r) = node_at d (Sk ++ r)
  ∧ dest_ready d' Dk r
  ∧ ".." ∉ r.
Proof.
  intros HDk H r. unfold Utils.copy_member in H. fold r in H.
  destruct (bool_decide (".." ∈ r)) eqn:Hdd; [done|].
  apply bool_decide_eq_false_1 in Hdd.
  apply bind_inv_ok in H as (src & d0 & Hq & H).
  unfold query_total in Hq. simplify_eq.
  destruct (node_at d0 (Sk ++ r)) as [n|] eqn:Hsrc; [|done].
  apply bind_inv_ok in H as ([] & d1 & Hdirs & H).
  destruct (ensure_dirs_spec Sk Dk HDk _ _ _ Hdirs) as (He & Hc & Hd).
  apply atomic_inv in H.
  assert (HDr : Dk ++ r ≠ []) by (by destruct Dk).
  assert (Hw : d' = <[Dk ++ r := n]> d1
               ∧ (is_dir (node_at d1 (Dk ++ r)) = true → is_dir (Some n) = true)).
  { destruct n, (node_at d1 (Dk ++ r)) as [[]|]; simplify_eq; done. }
  destruct Hw as [-> Hkind]. clear H.
  split; [|split; [|split; [|split; [|split; [|split]]]]]; try done.
  - intros k Hk. rewrite node_at_insert_ne by done.
    pose proof (extends_dirs_preserved _ _ He k Hk) as Hk1.
    case_decide; [subst; by apply Hkind | done].
  - intros k Hk. rewrite node_at_insert_ne by done.
    case_decide; [|by apply Hc]. subst. destruct Hk. by apply prefix_app_r.
  - intros q Hq Heq. rewrite node_at_insert_ne by done.
    case_decide as E.
    + apply app_inv_head in E. subst. done.
    + rewrite He; [done|]. by rewrite Heq.
  - by rewrite node_at_insert_ne, decide_True.
  - intros i Hi. rewrite node_at_insert_ne by done.
    rewrite decide_False.
    + apply Hd. apply list_elem_of_In, in_map_iff. exists i. split; [done|].
      apply in_seq. lia.
    + intros E. apply app_inv_head in E.
      apply (f_equal length) in E. rewrite length_take in E. lia.
Qed.
Lemma not_under_source (Sk Dk q : cpath) :
  ¬ Sk `prefix_of` Dk → ¬ Dk `prefix_of` Sk → ¬ Dk `prefix_of` Sk ++ q.
Proof.
  intros H1 H2 H3.
  destruct (prefix_weak_total Dk Sk (Sk ++ q)) as [?|?]; auto.
  by apply prefix_app_r.
Qed.

Lemma copy_loop_spec (Sk Dk : cpath) (d0 : disk) :
  ¬ Sk `prefix_of` Dk → ¬ Dk `prefix_of` Sk →
  ∀ files d d',
    (∀ q, node_at d (Sk ++ q) = node_at d0 (Sk ++ q)) →
    for_each files (Utils.copy_member Sk Dk) d = (inr tt, d') →
    (∀ q, node_at d' (Sk ++ q) = node_at d0 (Sk ++ q))
    ∧ dirs_preserved d d'
    ∧ (∀ q, is_Some (node_at d0 (Sk ++ q)) →
            node_at d (Dk ++ q) = node_at d0 (Sk ++ q) →
            node_at d' (Dk ++ q) = node_at d0 (Sk ++ q))
    ∧ ∀ f, f ∈ files →
        is_Some (node_at d0 (Sk ++ Utils.rel_comps f))
        ∧ node_at d' (Dk ++ Utils.rel_comps f) = node_at d0 (Sk ++ Utils.rel_comps f)
        ∧ dest_ready d' Dk (Utils.rel_comps f)
        ∧ ".." ∉ Utils.rel_comps f.
Proof.
  intros HSD HDS.
  assert (HDk : Dk ≠ []).
  { intros ->. apply HDS. apply prefix_nil. }
  induction files as [|f files IH]; intros d d' Hsrc H.
  - simpl in H. unfold ret in H. simplify_eq.
    split; [done|]. split; [apply dirs_preserved_refl|]. split; [done|].
    intros f Hf. by apply elem_of_nil in Hf.
  - apply for_each_cons_inv in H as (d1 & H1 & H2).
    destruct (copy_member_spec _ _ _ _ _ HDk H1) as (Hp1 & Hc1 & Hk1 & Hs1 & Hn1 & Hr1 & Hdd1).
    assert (Hsrc1 : ∀ q, node_at d1 (Sk ++ q) = node_at d0 (Sk ++ q)).
    { intros q. rewrite Hc1 by (by apply not_under_source). apply Hsrc. }
    destruct (IH d1 d' Hsrc1 H2) as (Hsrc' & Hp2 & Hk2 & Hall).
    split; [done|]. split; [by eapply dirs_preserved_trans|]. split.
    + intros q Hq Heq. apply Hk2; [done|].
      rewrite <- Hsrc. apply Hk1; rewrite Hsrc; done.
    + intros g Hg. apply elem_of_cons in Hg as [->|Hg]; [|by apply Hall].
      rewrite Hsrc in Hs1, Hn1.
      split; [done|]. split; [by apply Hk2|]. split; [|done].
      intros i Hi. by apply Hp2, Hr1.
Qed.

Lemma copy_files_spec src dest l Sk Dk d d' :
  resolve d true src = Some Sk → resolve d true dest = Some Dk →
  ¬ Sk `prefix_of` Dk → ¬ Dk `prefix_of` Sk →
  Utils.copy_files src dest (Some l) d = (inr tt, d') →
  dirs_preserved d d'
  ∧ ∀ f, f ∈ l →
      is_Some (node_at d (Sk ++ Utils.rel_comps f))
      ∧ node_at d' (Dk ++ Utils.rel_comps f) = node_at d (Sk ++ Utils.rel_comps f)
      ∧ dest_ready d' Dk (Utils.rel_comps f)
      ∧ ".." ∉ Utils.rel_comps f.
Proof.
  intros HS HD HSD HDS. unfold Utils.copy_files. rewrite HS, HD. intros H.
  destruct (copy_loop_spec Sk Dk d HSD HDS _ d d' (fun _ => eq_refl) H)
    as (_ & Hp & _ & Hall).
  split; [done|]. intros f Hf. apply Hall.
  by rewrite merge_sort_Permutation.
Qed.

(** What is listed. *)
Lemma list_relative_paths_inv d p Sk f :
  resolve d true p = Some Sk →
  f ∈ Utils.list_relative_paths d p true →
  f = "." ∨
  ∃ r c, f = String.concat "/" (r ++ [c])
         ∧ Forall (fun c => Utils.valid_name c = true) (r ++ [c])
         ∧ dirs_below d Sk r
         ∧ is_Some (node_at d (Sk ++ r ++ [c])).
Proof.
  intros HS. unfold Utils.list_relative_paths. rewrite HS.
  destruct (is_dir (node_at d Sk)); [|by intros ?%elem_of_nil].
  rewrite merge_sort_Permutation. intros Hf.
  apply elem_of_app in Hf as [Hf|Hf].
  - left. destruct (true && dir_empty d Sk); [|by apply elem_of_nil in Hf].
    by apply list_elem_of_singleton in Hf.
  - right. apply list_elem_of_omap in Hf as ([k v] & Hkv & Hl).
    apply elem_of_map_to_list in Hkv.
    unfold Utils.listed in Hl.
    destruct (decide (strict_under Sk k)) as [[[r0 ->] Hne]|]; [|done].
    rewrite drop_app_length in Hl.
    match type of Hl with (if ?c then _ else _) = _ => destruct c eqn:Hc; [|done] end.
    apply andb_true_iff in Hc as [Hc _]. apply andb_true_iff in Hc as [Hv Hb].
    injection Hl as <-.
    destruct r0 as [|c r _] using rev_ind; [by rewrite app_nil_r in Hne|].
    exists r, c. split; [done|]. split; [|split].
    + apply Forall_forall. intros x Hx. rewrite forallb_forall in Hv.
      apply Hv. by apply list_elem_of_In.
    + intros i Hi. unfold Utils.real_dirs_between in Hb.
      rewrite forallb_forall in Hb. specialize (Hb i).
      rewrite length_app in Hb. simpl in Hb.
      rewrite take_app_le in Hb by lia.
      assert (Hnode : node_at d (Sk ++ take i r) = d !! (Sk ++ take i r)).
      { unfold node_at. destruct (Sk ++ take i r) eqn:E; [|done].
        apply app_eq_nil in E as [_ E]. destruct r, i; simpl in *; done || lia. }
      rewrite Hnode. apply Hb. apply in_seq. lia.
    + rewrite app_assoc, node_at_snoc, <- app_assoc. by rewrite Hkv.
Qed.
(** ** Copying one file *)

(** Resolution once the file or link at [k0] is gone: a path that led
    to [k0] still leads there or leads nowhere. *)
Lemma walk_delete_cases d k0 follow :
  ∀ fuel cwd comps,
    walk fuel d follow cwd comps = Some k0 →
    walk fuel (delete k0 d) follow cwd comps = Some k0
    ∨ walk fuel (delete k0 d) follow cwd comps = None.
Proof.
  assert (Hstep : ∀ fuel,
    (∀ cwd comps, walk fuel d follow cwd comps = Some k0 →
       walk fuel (delete k0 d) follow cwd comps = Some k0
       ∨ walk fuel (delete k0 d) follow cwd comps = None) →
    ∀ comps cwd, walk (S fuel) d follow cwd comps = Some k0 →
       walk (S fuel) (delete k0 d) follow cwd comps = Some k0
       ∨ walk (S fuel) (delete k0 d) follow cwd comps = None).
  { intros fuel IHf. induction comps as [|c rest IH]; intros cwd;
      [rewrite !walk_nil; auto|].
    rewrite !walk_cons. repeat case_decide; auto.
    destruct (decide (cwd ++ [c] = k0)) as [<-|Hne].
    - rewrite lookup_delete_eq. destruct (is_nil rest); auto.
    - rewrite lookup_delete_ne by done.
      destruct (d !! (cwd ++ [c])) as [[]|]; auto.
      destruct (negb follow && is_nil rest); auto. }
  induction fuel as [|fuel IHf]; [|intros cwd comps; by apply Hstep].
  intros cwd comps. revert cwd.
  induction comps as [|c rest IH]; intros cwd; [rewrite !walk_nil; auto|].
  rewrite !walk_cons. repeat case_decide; auto.
  destruct (decide (cwd ++ [c] = k0)) as [<-|Hne].
  - rewrite lookup_delete_eq. destruct (is_nil rest); auto.
  - rewrite lookup_delete_ne by done.
    destruct (d !! (cwd ++ [c])) as [[]|]; auto.
Qed.

(** What is found once [k0] is gone was found before. *)
Lemma walk_delete_found d k0 follow :
  ∀ fuel cwd comps k,
    walk fuel (delete k0 d) follow cwd comps = Some k →
    k ≠ k0 →
    walk fuel d follow cwd comps = Some k.
Proof.
  induction fuel as [|fuel IHf].
  - intros cwd comps. revert cwd.
    induction comps as [|c rest IH]; intros cwd k; [by rewrite !walk_nil|].
    rewrite !walk_cons. repeat case_decide; auto.
    destruct (decide (cwd ++ [c] = k0)) as [<-|Hne].
    + rewrite lookup_delete_eq. destruct (is_nil rest); [|done].
      by intros [= <-] ?.
    + rewrite lookup_delete_ne by done.
      destruct (d !! (cwd ++ [c])) as [[]|]; auto.
  - intros cwd comps. revert cwd.
    induction comps as [|c rest IH]; intros cwd k; [by rewrite !walk_nil|].
    rewrite !walk_cons. repeat case_decide; auto.
    destruct (decide (cwd ++ [c] = k0)) as [<-|Hne].
    + rewrite lookup_delete_eq. destruct (is_nil rest); [|done].
      by intros [= <-] ?.
    + rewrite lookup_delete_ne by done.
      destruct (d !! (cwd ++ [c])) as [[]|]; auto.
      destruct (negb follow && is_nil rest); auto.
Qed.

(** A path to a place where nothing is leads there as well once a file
    is put there. *)
Lemma walk_insert_fresh d k n follow :
  d !! k = None → is_dir (Some n) = false → is_link (Some n) = false →
  ∀ fuel cwd comps,
    walk fuel d follow cwd comps = Some k →
    walk fuel (<[k := n]> d) follow cwd comps = Some k.
Proof.
  intros Hk Hd Hl.
  induction fuel as [|fuel IHf].
  - intros cwd comps. revert cwd.
    induction comps as [|c rest IH]; intros cwd; [by rewrite !walk_nil|].
    rewrite !walk_cons. repeat case_decide; auto.
    destruct (decide (cwd ++ [c] = k)) as [<-|Hne].
    + rewrite lookup_insert_eq, Hk. by destruct n.
    + rewrite lookup_insert_ne by done.
      destruct (d !! (cwd ++ [c])) as [[]|]; auto.
  - intros cwd comps. revert cwd.
    induction comps as [|c rest IH]; intros cwd; [by rewrite !walk_nil|].
    rewrite !walk_cons. repeat case_decide; auto.
    destruct (decide (cwd ++ [c] = k)) as [<-|Hne].
    + rewrite lookup_insert_eq, Hk. by destruct n.
    + rewrite lookup_insert_ne by done.
      destruct (d !! (cwd ++ [c])) as [[]|]; auto.
      destruct (negb follow && is_nil rest); auto.
Qed.
Lemma node_at_delete d k0 k :
  k0 ≠ [] → node_at (delete k0 d) k = if decide (k0 = k) then None else node_at d k.
Proof.
  intros H0. unfold node_at. destruct k as [|c k].
  - by rewrite decide_False.
  - rewrite lookup_delete. by case_decide.
Qed.

Lemma resolve_follow_cases d p :
  resolve d false p = resolve d true p
  ∨ ∃ k, resolve d false p = Some k ∧ is_link (node_at d k) = true.
Proof. unfold resolve. case_decide; [by left|]. apply walk_follow_cases. Qed.

Lemma unlink_if_exists_inv dest d du :
  Utils.unlink_if_exists dest d = (inr tt, du) →
  (du = d ∧ lstat d dest = None)
  ∨ ∃ k0 n0, resolve d false dest = Some k0 ∧ node_at d k0 = Some n0
             ∧ is_dir (Some n0) = false ∧ du = delete k0 d.
Proof.
  unfold Utils.unlink_if_exists, Os.unlink, lstat.
  destruct (resolve d false dest) as [k0|] eqn:Hk0; simpl.
  - destruct (node_at d k0) as [n0|] eqn:Hn0.
    + destruct n0 as [m c|t|m]; intros H.
      * right. exists k0, (IFile m c). injection H as <-. done.
      * right. exists k0, (ILink t). injection H as <-. done.
      * discriminate H.
    + intros H. injection H as <-. by left.
  - intros H. injection H as <-. by left.
Qed.

Lemma copyfile_inv src dest du d1 :
  Utils.copyfile src dest du = inr d1 →
  ∃ m c k, stat du src = Some (IFile m c) ∧ resolve du true dest = Some k
           ∧ d1 = <[k := IFile m c]> du.
Proof.
  unfold Utils.copyfile.
  destruct (stat du src) as [[m c|t|m]|]; try discriminate.
  destruct (resolve du true dest) as [k|]; [|discriminate].
  intros H. exists m, c, k. split; [done|]. split; [done|].
  destruct (node_at du k) as [[]|]; first [discriminate H | by injection H as <-].
Qed.
(** Once the destination has been unlinked, its place is free. *)
Lemma free_after_unlink dest d du k :
  Utils.unlink_if_exists dest d = (inr tt, du) →
  resolve du true dest = Some k →
  resolve du false dest = Some k ∧ node_at du k = None.
Proof.
  intros Hu Hk.
  destruct (unlink_if_exists_inv _ _ _ Hu) as [[-> Hl]|(k0 & n0 & Hk0 & Hn0 & Hnd & ->)].
  - destruct (resolve_follow_cases d dest) as [E|(k' & E & Hlk)].
    + rewrite Hk in E. split; [done|]. unfold lstat in Hl. by rewrite E in Hl.
    + unfold lstat in Hl. rewrite E in Hl. simpl in Hl. rewrite Hl in Hlk. done.
  - assert (H0 : k0 ≠ []).
    { intros ->. simpl in Hn0. injection Hn0 as <-. done. }
    assert (Hgone : node_at (delete k0 d) k0 = None).
    { rewrite node_at_delete by done. by rewrite decide_True. }
    assert (Hcases : resolve (delete k0 d) false dest = Some k0
                     ∨ resolve (delete k0 d) false dest = None).
    { unfold resolve in Hk0 |- *. case_decide; [discriminate|].
      by apply walk_delete_cases. }
    destruct (resolve_follow_cases (delete k0 d) dest) as [E|(k' & E & Hlk)].
    + rewrite Hk in E. destruct Hcases as [E0|E0]; rewrite E0 in E.
      * injection E as <-. done.
      * discriminate.
    + destruct Hcases as [E0|E0]; rewrite E0 in E.
      * injection E as <-. rewrite Hgone in Hlk. done.
      * discriminate.
Qed.

(** The source is read as it was before the destination was unlinked. *)
Lemma source_after_unlink src dest d du n :
  Utils.unlink_if_exists dest d = (inr tt, du) →
  stat du src = Some n → stat d src = Some n.
Proof.
  intros Hu Hs.
  destruct (unlink_if_exists_inv _ _ _ Hu) as [[-> Hl]|(k0 & n0 & Hk0 & Hn0 & Hnd & ->)];
    [done|].
  assert (H0 : k0 ≠ []).
  { intros ->. simpl in Hn0. injection Hn0 as <-. done. }
  unfold stat, resolve in Hs |- *. case_decide; [discriminate|].
  destruct (walk MAXSYMLINKS (delete k0 d) true [] (OsPath.split_sep src))
    as [ks|] eqn:Hks; [|discriminate].
  change (node_at (delete k0 d) ks = Some n) in Hs.
  rewrite node_at_delete in Hs by done.
  destruct (decide (k0 = ks)) as [->|Hne]; [discriminate|].
  rewrite (walk_delete_found d k0 true _ _ _ ks Hks) by done.
  exact Hs.
Qed.

(** After [safe_copy] the destination is a regular file with the content
    and the mode of the source. *)
Lemma safe_copy_spec src dest d d1 :
  Utils.safe_copy src dest d = (inr tt, d1) →
  ∃ m c, stat d src = Some (IFile m c) ∧ lstat d1 dest = Some (IFile m c).
Proof.
  unfold Utils.safe_copy. intros H.
  apply bind_inv_ok in H as ([] & du & Hu & Hw).
  apply atomic_inv in Hw.
  apply copyfile_inv in Hw as (m & c & k & Hsrc & Hk & ->).
  exists m, c. split; [by eapply source_after_unlink|].
  destruct (free_after_unlink _ _ _ _ Hu Hk) as [Hkf Hnone].
  assert (Hk0 : k ≠ []) by (intros ->; discriminate).
  assert (Hlk : du !! k = None) by (by destruct k).
  unfold lstat, resolve in Hkf |- *. case_decide; [discriminate|].
  rewrite (walk_insert_fresh du k (IFile m c) false Hlk eq_refl eq_refl _ _ _ Hkf).
  change (node_at (<[k:=IFile m c]> du) k = Some (IFile m c)).
  rewrite node_at_insert_ne by done. by rewrite decide_True.
Qed.
(** ** Staging copies the members *)

Lemma stage_copy_file directory w files w1 :
  Os.isdir (fs w) (fullpath (self w)) = false →
  stage_copy directory w = (inr files, w1) →
  files = [OsPath.basename (path (self w))]
  ∧ ∃ m c, stat (fs w) (fullpath (self w)) = Some (IFile m c)
      ∧ lstat (fs w1) (OsPath.join directory (OsPath.basename (path (self w))))
        = Some (IFile m c).
Proof.
  intros Hd. unfold stage_copy, bind, get_self.
  rewrite on_disk_query_total, Hd.
  destruct (on_disk (Utils.safe_copy (fullpath (self w))
              (OsPath.join directory (OsPath.basename (path (self w))))) w)
    as [[e|[]] w2] eqn:Hc; [discriminate|].
  intros H. injection H as <- <-. split; [done|].
  apply on_disk_inv in Hc as (Hc & _ & _).
  by apply safe_copy_spec in Hc.
Qed.

Lemma stage_copy_dir directory w files w1 Sk Dk :
  real_dir_path (fs w) (fullpath (self w)) Sk →
  real_dir_path (fs w) directory Dk →
  ¬ Sk `prefix_of` Dk → ¬ Dk `prefix_of` Sk →
  stage_copy directory w = (inr files, w1) →
  files = Utils.list_relative_paths (fs w) (fullpath (self w)) true
  ∧ real_dir_path (fs w1) directory Dk
  ∧ ∀ f, f ∈ files →
      is_Some (node_at (fs w) (Sk ++ Utils.rel_comps f))
      ∧ node_at (fs w1) (Dk ++ Utils.rel_comps f)
        = node_at (fs w) (Sk ++ Utils.rel_comps f)
      ∧ dest_ready (fs w1) Dk (Utils.rel_comps f).
Proof.
  intros HS HD HSD HDS. unfold stage_copy, bind, get_self.
  assert (Hd : Os.isdir (fs w) (fullpath (self w)) = true).
  { unfold Os.isdir, stat. rewrite (resolve_real_dir _ _ _ true HS).
    by apply real_dir_path_is_dir in HS. }
  rewrite on_disk_query_total, Hd, on_disk_query_total.
  set (files0 := Utils.list_relative_paths (fs w) (fullpath (self w)) true).
  destruct (on_disk (Utils.copy_files (fullpath (self w)) directory (Some files0)) w)
    as [[e|[]] w2] eqn:Hc; [discriminate|].
  intros H. injection H as <- <-. split; [done|].
  apply on_disk_inv in Hc as (Hc & _ & _).
  destruct (copy_files_spec _ _ _ Sk Dk _ _
              (resolve_real_dir _ _ _ true HS) (resolve_real_dir _ _ _ true HD)
              HSD HDS Hc) as [Hp Hall].
  split; [by eapply real_dir_path_preserved|].
  intros f Hf. destruct (Hall f Hf) as (? & ? & ? & _). done.
Qed.

Lemma dest_ready_dirs_below d Dk r c :
  dest_ready d Dk (r ++ [c]) → dirs_below d Dk r.
Proof.
  intros H i Hi. specialize (H i). rewrite take_app_le in H by lia.
  apply H. rewrite length_app. simpl. lia.
Qed.

(** A listed member is found at the same relative place in the tree
    and below the destination. *)
Lemma member_paths d0 d1 src dest Sk Dk f :
  real_dir_path d0 src Sk → real_dir_path d1 dest Dk →
  f ∈ Utils.list_relative_paths d0 src true →
  dest_ready d1 Dk (Utils.rel_comps f) →
  lstat d0 (OsPath.join src f) = node_at d0 (Sk ++ Utils.rel_comps f)
  ∧ lstat d1 (OsPath.join dest f) = node_at d1 (Dk ++ Utils.rel_comps f).
Proof.
  intros HS HD Hf Hr.
  destruct (list_relative_paths_inv d0 src Sk f (resolve_real_dir _ _ _ true HS) Hf)
    as [->|(r & c & -> & Hv & Hb & _)].
  - unfold lstat. rewrite !(resolve_dot _ _ _ false) by done.
    rewrite rel_comps_dot, !app_nil_r. done.
  - rewrite rel_comps_concat in Hr |- * by (done || by destruct r).
    unfold lstat.
    rewrite (resolve_member d0 src Sk r c HS Hv Hb).
    rewrite (resolve_member d1 dest Dk r c HD Hv (dest_ready_dirs_below _ _ _ _ Hr)).
    done.
Qed.

Lemma real_dir_pathb_sound d p k :
  real_dir_pathb d p k = true → real_dir_path d p k.
Proof.
  unfold real_dir_pathb. intros H.
  apply andb_true_iff in H as [H Hd]. apply andb_true_iff in H as [H Hv].
  apply andb_true_iff in H as [Hp Hk].
  apply negb_true_iff, bool_decide_eq_false_1 in Hp.
  apply bool_decide_eq_true_1 in Hk.
  split; [done|]. split; [done|]. split.
  - apply Forall_forall. intros x Hx. rewrite forallb_forall in Hv.
    apply Hv. by apply list_elem_of_In.
  - intros i Hi. rewrite forallb_forall in Hd. apply Hd. apply in_seq. lia.
Qed.

(** C6, amended. When [stage] completes: a single-file subject is put
    directly below the destination under the base name of its declared
    path, as a regular file with the content of the source; for a
    directory subject (the subject and the destination being real
    directories that do not contain one another) every member of the
    listing is found below the destination at its relative path, with
    the kind, content and link target it has in the subject.  In both
    cases the mode is the normalized one. *)
Theorem stage_copies_members (directory : string) (w w' : world) :
  stage directory w = (inr tt, w') →
  (Os.isdir (fs w) (fullpath (self w)) = false →
     ∃ m c, stat (fs w) (fullpath (self w)) = Some (IFile m c)
       ∧ lstat (fs w') (OsPath.join directory (OsPath.basename (path (self w))))
         = Some (normalized (IFile m c)))
  ∧ (∀ Sk Dk,
       real_dir_path (fs w) (fullpath (self w)) Sk →
       real_dir_path (fs w) directory Dk →
       ¬ Sk `prefix_of` Dk → ¬ Dk `prefix_of` Sk →
       ∀ f, f ∈ Utils.list_relative_paths (fs w) (fullpath (self w)) true →
         is_Some (lstat (fs w) (OsPath.join (fullpath (self w)) f))
         ∧ lstat (fs w') (OsPath.join directory f)
           = normalized <$> lstat (fs w) (OsPath.join (fullpath (self w)) f)).
Proof.
  unfold stage. intros H.
  apply bind_inv_ok in H as (files & w1 & Hcopy & H).
  apply on_disk_inv in H as (H & _ & _).
  destruct (stage_chmod_settles directory (fs w1) files (fs w1) (fs w')
              (evolves_refl _) H) as ([He _] & Hall).
  split.
  - intros Hd.
    destruct (stage_copy_file _ _ _ _ Hd Hcopy) as (-> & m & c & Hs & Hl).
    exists m, c. split; [done|].
    destruct (Hall (OsPath.basename (path (self w)))) as [Hset _];
      [by apply list_elem_of_singleton|].
    destruct (settled_lstat _ _ _ He Hset) as [_ ->]. by rewrite Hl.
  - intros Sk Dk HS HD HSD HDS f Hf.
    destruct (stage_copy_dir _ _ _ _ Sk Dk HS HD HSD HDS Hcopy) as (-> & HD1 & Hmem).
    destruct (Hmem f Hf) as (Hsome & Hnode & Hready).
    destruct (member_paths (fs w) (fs w1) _ _ Sk Dk f HS HD1 Hf Hready) as [E0 E1].
    destruct (Hall f Hf) as [Hset _].
    destruct (settled_lstat _ _ _ He Hset) as [_ ->].
    rewrite E0, E1, Hnode. done.
Qed.

Lemma stage_copies_members_witness :
  (let w := Examples.world_of "files/bob.txt" None Examples.project in
   ∃ m c, stat (fs w) (fullpath (self w)) = Some (IFile m c)
     ∧ lstat (fs (stage "/out" w).2) (OsPath.join "/out" (OsPath.basename (path (self w))))
       = Some (normalized (IFile m c)))
  ∧ (let w := Examples.world_of "files/sally" None Examples.project in
     ∀ f, f ∈ Utils.list_relative_paths (fs w) (fullpath (self w)) true →
       is_Some (lstat (fs w) (OsPath.join (fullpath (self w)) f))
       ∧ lstat (fs (stage "/out" w).2) (OsPath.join "/out" f)
         = normalized <$> lstat (fs w) (OsPath.join (fullpath (self w)) f)).
Proof.
  split.
  - refine (proj1 (stage_copies_members "/out"
             (Examples.world_of "files/bob.txt" None Examples.project)
             (stage "/out" (Examples.world_of "files/bob.txt" None Examples.project)).2
             _) _).
    + assert (H : (stage "/out"
                     (Examples.world_of "files/bob.txt" None Examples.project)).1
                  = inr tt) by (vm_compute; reflexivity).
      rewrite <- H. apply surjective_pairing.
    + vm_compute. reflexivity.
  - refine (proj2 (stage_copies_members "/out"
             (Examples.world_of "files/sally" None Examples.project)
             (stage "/out" (Examples.world_of "files/sally" None Examples.project)).2
             _) ["proj"; "files"; "sally"] ["out"] _ _ _ _).
    + assert (H : (stage "/out"
                     (Examples.world_of "files/sally" None Examples.project)).1
                  = inr tt) by (vm_compute; reflexivity).
      rewrite <- H. apply surjective_pairing.
    + apply real_dir_pathb_sound. vm_compute. reflexivity.
    + apply real_dir_pathb_sound. vm_compute. reflexivity.
    + intros Hp. apply (prefix_length) in Hp. simpl in Hp. lia.
    + intros [q Hq]. discriminate.
Defined.
(** ** The digest is a string of 64 hexadecimal digits *)

Lemma hexchar_is_hex (x : N) : is_hex (Sha256.hexchar (N.land x 15)) = true.
Proof.
  assert (H : (N.land x 15 < 16)%N).
  { change 15%N with (N.ones 4). rewrite N.land_ones. by apply N.mod_lt. }
  destruct (N.land x 15) as [|p]; [reflexivity|].
  do 4 (destruct p as [p|p|]; try reflexivity); lia.
Qed.

Lemma round_length st k :
  length (fst st) = 8 → length (fst (Sha256.round st k)) = 8.
Proof.
  destruct st as [v win]. simpl.
  do 9 (destruct v as [|? v]; try done).
Qed.

Lemma rounds_length ks : ∀ st,
  length (fst st) = 8 → length (fst (fold_left Sha256.round ks st)) = 8.
Proof.
  induction ks as [|k ks IH]; intros st H; [done|].
  simpl. apply IH. by apply round_length.
Qed.

Lemma compress_length h block : length h = 8 → length (Sha256.compress h block) = 8.
Proof.
  intros H. unfold Sha256.compress.
  pose proof (rounds_length Sha256.K (h, Sha256.words 16 block) H) as Hr.
  destruct (fold_left Sha256.round Sha256.K (h, Sha256.words 16 block)) as [v w].
  simpl in Hr. rewrite length_map, length_combine. lia.
Qed.

Lemma blocks_length n : ∀ h bs, length h = 8 → length (Sha256.blocks n h bs) = 8.
Proof.
  induction n as [|n IH]; intros h bs H; [done|].
  simpl. apply IH. by apply compress_length.
Qed.

Lemma digest_length msg : length (Sha256.digest msg) = 8.
Proof. unfold Sha256.digest. by apply blocks_length. Qed.

Lemma list_ascii_of_string_app (a b : string) :
  list_ascii_of_string (a +:+ b) = list_ascii_of_string a ++ list_ascii_of_string b.
Proof.
  induction a as [|x a IH]; [done|].
  change (String x a +:+ b) with (String x (a +:+ b)). simpl. by rewrite IH.
Qed.

Lemma hexword_hex w : Forall (fun c => is_hex c = true) (list_ascii_of_string (Sha256.hexword w)).
Proof.
  unfold Sha256.hexword. rewrite list_ascii_of_string_of_list_ascii.
  apply Forall_forall. intros c Hc. apply list_elem_of_In, in_map_iff in Hc as (i & <- & _).
  apply hexchar_is_hex.
Qed.

Lemma hex_hex ws : Forall (fun c => is_hex c = true) (list_ascii_of_string (Sha256.hex ws)).
Proof.
  induction ws as [|w ws IH]; [constructor|].
  change (Sha256.hex (w :: ws)) with (Sha256.hexword w +:+ Sha256.hex ws).
  rewrite list_ascii_of_string_app. apply Forall_app. split; [apply hexword_hex|done].
Qed.

Lemma hexword_cons w : ∃ c s, Sha256.hexword w = String c s.
Proof. unfold Sha256.hexword. simpl. eauto. Qed.

Lemma hexdigest_shape h :
  ∃ c s, Sha256.hexdigest h = String c s
         ∧ Forall (fun c => is_hex c = true) (c :: list_ascii_of_string s).
Proof.
  unfold Sha256.hexdigest.
  pose proof (digest_length (map Byte.to_N h)) as Hl.
  pose proof (hex_hex (Sha256.digest (map Byte.to_N h))) as Hh.
  destruct (Sha256.digest (map Byte.to_N h)) as [|w ws]; [done|].
  change (Sha256.hex (w :: ws)) with (Sha256.hexword w +:+ Sha256.hex ws) in Hh |- *.
  destruct (hexword_cons w) as (c & s & E). rewrite E in Hh |- *.
  exists c, (s +:+ Sha256.hex ws). split; [done|]. exact Hh.
Qed.

Lemma is_hex_not_sep c : is_hex c = true → OsPath.is_sep c = false.
Proof.
  intros H. unfold OsPath.is_sep. destruct (Ascii.eqb_spec c "/"); [|done]. by subst.
Qed.

Lemma hexdigest_valid h : Utils.valid_name (Sha256.hexdigest h) = true.
Proof.
  destruct (hexdigest_shape h) as (c & s & -> & Hh).
  apply valid_name_iff. inversion Hh as [|? ? Hc Hs]; subst. split.
  - split; [done|]. split; intros [= -> _]; done.
  - unfold no_sep. simpl. rewrite (is_hex_not_sep c Hc). simpl.
    apply forallb_forall. intros x Hx. rewrite Forall_forall in Hs.
    rewrite is_hex_not_sep; [done|]. apply Hs. by apply list_elem_of_In.
Qed.

Lemma hexdigest_not_tmp h n : Sha256.hexdigest h ≠ Utils.tmp_name n.
Proof.
  destruct (hexdigest_shape h) as (c & s & -> & Hh).
  inversion Hh as [|? ? Hc Hs]; subst. unfold Utils.tmp_name.
  intros [= -> _]. done.
Qed.

Lemma hexdigest_ne h : Sha256.hexdigest h ≠ "".
Proof. by destruct (hexdigest_shape h) as (c & s & -> & _). Qed.

Lemma tmp_name_valid n : Utils.valid_name (Utils.tmp_name n) = true.
Proof.
  apply valid_name_iff. unfold Utils.tmp_name. split.
  - split; [done|]. split; intros [=].
  - unfold no_sep.
    change ("tmp" +:+ ?s) with (String "t" (String "m" (String "p" s))).
    simpl. rewrite list_ascii_of_string_of_list_ascii.
    induction n as [|n IH]; [done|]. simpl. exact IH.
Qed.
(** ** Directories are kept by the steps that build the scratch copy *)

Lemma insert_dirs_preserved d k v :
  (is_dir (node_at d k) = true → is_dir (Some v) = true) →
  dirs_preserved d (<[k := v]> d).
Proof.
  intros H k' Hk'. rewrite node_at_insert.
  case_decide; [done|]. case_decide; [subst; by apply H | done].
Qed.

Lemma delete_dirs_preserved d k :
  is_dir (node_at d k) = false → dirs_preserved d (delete k d).
Proof.
  intros H k' Hk'. unfold node_at in *. destruct k' as [|c k']; [done|].
  rewrite lookup_delete. case_decide; [|done]. subst. congruence.
Qed.

Lemma mkdir_inv p m d d' :
  Os.mkdir p m d = inr d' →
  ∃ k, resolve d false p = Some k ∧ node_at d k = None ∧ d' = <[k := IDir m]> d.
Proof.
  unfold Os.mkdir. destruct (resolve d false p) as [k|]; [|discriminate].
  destruct (node_at d k) eqn:E; [discriminate|].
  intros H. injection H as <-. eauto.
Qed.

Lemma mkdir_dirs_preserved p m d d' : Os.mkdir p m d = inr d' → dirs_preserved d d'.
Proof.
  intros H. apply mkdir_inv in H as (k & _ & Hn & ->).
  apply insert_dirs_preserved. by rewrite Hn.
Qed.

Lemma atomic_dirs_preserved (op : disk → exn + disk) d r d' :
  (∀ d1, op d = inr d1 → dirs_preserved d d1) →
  atomic op d = (r, d') → dirs_preserved d d'.
Proof.
  intros Hop. unfold atomic. destruct (op d) as [e|d1] eqn:E; intros H; injection H as <- <-.
  - apply dirs_preserved_refl.
  - by apply Hop.
Qed.

Lemma makedirs_go_dirs_preserved :
  ∀ fuel name d r d', Os.makedirs_go fuel name d = (r, d') → dirs_preserved d d'.
Proof.
  induction fuel as [|fuel IH]; intros name d r d'.
  - cbn [Os.makedirs_go]. destruct (Os.makedirs_parts name) as [head tail].
    unfold bind, query_total.
    match goal with |- context [if ?c then _ else _] => destruct c end.
    + unfold raise. intros Hm. injection Hm as <- <-. apply dirs_preserved_refl.
    + apply atomic_dirs_preserved. intros d1. apply mkdir_dirs_preserved.
  - cbn [Os.makedirs_go]. destruct (Os.makedirs_parts name) as [head tail].
    unfold bind, query_total.
    match goal with |- context [if ?c then _ else _] => destruct c end.
    + destruct (Os.makedirs_go fuel head d) as [[e|[]] d1] eqn:E.
      * pose proof (IH _ _ _ _ E) as Hp.
        destruct e; try (intros H; injection H as <- <-; exact Hp).
        case_decide as Hdot.
        -- unfold ret. intros Hm. injection Hm as <- <-. exact Hp.
        -- intros Hm. eapply dirs_preserved_trans; [exact Hp|].
           eapply atomic_dirs_preserved; [|exact Hm].
           intros d2. apply mkdir_dirs_preserved.
      * pose proof (IH _ _ _ _ E) as Hp. case_decide as Hdot.
        -- unfold ret. intros Hm. injection Hm as <- <-. exact Hp.
        -- intros Hm. eapply dirs_preserved_trans; [exact Hp|].
           eapply atomic_dirs_preserved; [|exact Hm].
           intros d2. apply mkdir_dirs_preserved.
    + apply atomic_dirs_preserved. intros d1. apply mkdir_dirs_preserved.
Qed.

Lemma makedirs_dirs_preserved name d r d' :
  Os.makedirs name d = (r, d') → dirs_preserved d d'.
Proof. apply makedirs_go_dirs_preserved. Qed.

Lemma safe_copy_dirs_preserved src dest d d' :
  Utils.safe_copy src dest d = (inr tt, d') → dirs_preserved d d'.
Proof.
  unfold Utils.safe_copy. intros H.
  apply bind_inv_ok in H as ([] & du & Hu & Hw).
  apply atomic_inv in Hw.
  eapply dirs_preserved_trans.
  - destruct (unlink_if_exists_inv _ _ _ Hu) as [[-> _]|(k0 & n0 & _ & Hn0 & Hnd & ->)].
    + apply dirs_preserved_refl.
    + apply delete_dirs_preserved. by rewrite Hn0.
  - unfold Utils.copyfile in Hw.
    destruct (stat du src) as [[m c|t|m]|]; try discriminate.
    destruct (resolve du true dest) as [k|]; [|discriminate].
    destruct (node_at du k) as [[]|] eqn:E; first [discriminate Hw | injection Hw as <-];
      apply insert_dirs_preserved; rewrite E; done.
Qed.
Lemma ensure_dir_dirs_preserved Sk Dk p d d' :
  Utils.ensure_dir Sk Dk p d = (inr tt, d') → dirs_preserved d d'.
Proof.
  intros H. unfold Utils.ensure_dir in H. apply atomic_inv in H.
  destruct (node_at d (Dk ++ p)) as [[]|] eqn:E; first [discriminate H | injection H as <-].
  - apply dirs_preserved_refl.
  - apply insert_dirs_preserved. by rewrite E.
Qed.

Lemma for_each_dirs_preserved {A} (body : A → SE disk unit) :
  (∀ x d d', body x d = (inr tt, d') → dirs_preserved d d') →
  ∀ l d d', for_each l body d = (inr tt, d') → dirs_preserved d d'.
Proof.
  intros Hb. induction l as [|x l IH]; intros d d' H.
  - simpl in H. unfold ret in H. injection H as <-. apply dirs_preserved_refl.
  - apply for_each_cons_inv in H as (d1 & H1 & H2).
    eapply dirs_preserved_trans; [by eapply Hb | by eapply IH].
Qed.

Lemma copy_member_dirs_preserved Sk Dk f d d' :
  Utils.copy_member Sk Dk f d = (inr tt, d') → dirs_preserved d d'.
Proof.
  unfold Utils.copy_member.
  destruct (bool_decide (".." ∈ Utils.rel_comps f)); [discriminate|].
  intros H. apply bind_inv_ok in H as (src & d0 & Hq & H).
  unfold query_total in Hq. injection Hq as <- <-.
  destruct (node_at d (Sk ++ Utils.rel_comps f)) as [n|]; [|discriminate].
  apply bind_inv_ok in H as ([] & d1 & Hdirs & H).
  eapply dirs_preserved_trans.
  - eapply for_each_dirs_preserved; [|exact Hdirs].
    intros x ? ?. apply ensure_dir_dirs_preserved.
  - apply atomic_inv in H.
    destruct n, (node_at d1 (Dk ++ Utils.rel_comps f)) as [[]|] eqn:E;
      first [discriminate H | injection H as <-];
      apply insert_dirs_preserved; rewrite E; done.
Qed.

Lemma copy_files_dirs_preserved src dest files d d' :
  Utils.copy_files src dest files d = (inr tt, d') → dirs_preserved d d'.
Proof.
  unfold Utils.copy_files.
  destruct (resolve d true src) as [Sk|]; [|discriminate].
  destruct (resolve d true dest) as [Dk|]; [|discriminate].
  apply for_each_dirs_preserved. intros x ? ?. apply copy_member_dirs_preserved.
Qed.

(** ** Removing and moving a tree *)

Lemma node_at_remove_tree d k k' :
  k ≠ [] →
  node_at (remove_tree k d) k' = if decide (k `prefix_of` k') then None else node_at d k'.
Proof.
  intros Hk. unfold node_at, remove_tree. destruct k' as [|c k'].
  - rewrite decide_False; [done|]. intros Hp. apply prefix_nil_inv in Hp. done.
  - rewrite map_lookup_filter. destruct (d !! (c :: k')) as [n|]; simpl.
    + case_decide.
      * by rewrite option_guard_False by (simpl; tauto).
      * by rewrite option_guard_True.
    + by case_decide.
Qed.

Lemma lookup_build (cands : list cpath) (val : cpath → option inode) k :
  (is_Some (val k) → k ∈ cands) →
  (list_to_map (omap (fun k => pair k <$> val k) cands) : disk) !! k = val k.
Proof.
  intros Hin.
  destruct (val k) as [v|] eqn:Hv.
  - apply elem_of_list_to_map_1'.
    + intros v' Hv'. apply list_elem_of_omap in Hv' as (k' & _ & E).
      destruct (val k') as [v''|] eqn:E'; [|discriminate]. simpl in E.
      injection E as -> ->. congruence.
    + apply list_elem_of_omap. exists k. split; [apply Hin; eauto|]. by rewrite Hv.
  - apply not_elem_of_list_to_map_1. intros Hk.
    apply list_elem_of_fmap in Hk as ([k' v'] & -> & Hkv).
    apply list_elem_of_omap in Hkv as (k'' & _ & E).
    destruct (val k'') as [v''|] eqn:E'; [|discriminate]. simpl in E.
    injection E as -> ->. simpl in Hv. congruence.
Qed.

Lemma lookup_move_tree ksrc kdst d k :
  ¬ ksrc `prefix_of` kdst →
  move_tree ksrc kdst d !! k = moved ksrc kdst d k.
Proof.
  intros Hnp. unfold move_tree. apply lookup_build.
  intros [v Hv]. unfold moved in Hv.
  apply list_elem_of_fmap.
  destruct (decide (kdst `prefix_of` k)) as [[q ->]|Hd].
  - rewrite drop_app_length in Hv. exists (ksrc ++ q). split.
    + rewrite decide_True by (by apply prefix_app_r). by rewrite drop_app_length.
    + unfold keys. apply list_elem_of_fmap. exists (ksrc ++ q, v). split; [done|].
      by apply elem_of_map_to_list.
  - destruct (decide (ksrc `prefix_of` k)) as [Hs|Hs]; [discriminate|].
    exists k. split; [by rewrite decide_False|].
    unfold keys. apply list_elem_of_fmap. exists (k, v). split; [done|].
    by apply elem_of_map_to_list.
Qed.
(** ** The mirror population publishes an entry *)

Lemma mkdtemp_go_inv :
  ∀ fuel n dir d td d1,
    Utils.mkdtemp_go fuel n dir d = (inr td, d1) →
    ∃ n', td = OsPath.join dir (Utils.tmp_name n')
          ∧ Os.mkdir td Stat.S_IRWXU d = inr d1.
Proof.
  induction fuel as [|fuel IH]; intros n dir d td d1; cbn [Utils.mkdtemp_go].
  - destruct (Os.mkdir _ _ d) as [e|d'] eqn:E.
    + destruct e; discriminate.
    + intros H. injection H as <- <-. eauto.
  - destruct (Os.mkdir _ _ d) as [e|d'] eqn:E.
    + destruct e; try discriminate. apply IH.
    + intros H. injection H as <- <-. eauto.
Qed.

Lemma concat_singleton (c : string) : String.concat "/" [c] = c.
Proof. reflexivity. Qed.

(** The entry [c] of the directory named by [p]. *)
Lemma resolve_entry d p k c :
  real_dir_path d p k → Utils.valid_name c = true →
  resolve d false (OsPath.join p c) = Some (k ++ [c]).
Proof.
  intros Hp Hc.
  pose proof (resolve_member d p k [] c Hp) as H. simpl in H.
  apply H; [by constructor | apply dirs_below_nil].
Qed.

Lemma real_dir_path_frame d d' p k :
  (∀ i, 0 < i ≤ length k → node_at d' (take i k) = node_at d (take i k)) →
  real_dir_path d p k → real_dir_path d' p k.
Proof.
  intros Hf (? & ? & ? & Hd). repeat split; try done.
  intros i Hi. simpl. rewrite Hf by done. by apply Hd.
Qed.

Lemma prefix_take_length (k q : list string) (i : nat) :
  prefix (k ++ q) (take i k) → (i ≤ length k)%nat → q = [].
Proof.
  intros Hp Hi. apply prefix_length in Hp.
  rewrite length_app, length_take in Hp. destruct q; [done|]. simpl in Hp. lia.
Qed.

Lemma scratch_copy_spec s td w targetdir w1 :
  scratch_copy s td w = (inr targetdir, w1) →
  dirs_preserved (fs w) (fs w1) ∧ self w1 = self w.
Proof.
  unfold scratch_copy. intros H.
  apply bind_inv_ok in H as (isd & w0 & Hq & H).
  rewrite on_disk_query_total in Hq. injection Hq as <- <-.
  destruct (Os.isdir (fs w) (fullpath s)).
  - apply bind_inv_ok in H as ([] & w2 & Hc & H).
    unfold ret in H. injection H as <- <-.
    apply on_disk_inv in Hc as (Hc & Hs & _).
    split; [by eapply copy_files_dirs_preserved | done].
  - apply bind_inv_ok in H as ([] & w2 & Hm1 & H).
    destruct (OsPath.split (path s)) as [base tl].
    apply bind_inv_ok in H as ([] & w3 & Hm2 & H).
    apply bind_inv_ok in H as ([] & w4 & Hc & H).
    unfold ret in H. injection H as <- <-.
    apply on_disk_inv in Hm1 as (Hm1 & Hs1 & _).
    apply on_disk_inv in Hm2 as (Hm2 & Hs2 & _).
    apply on_disk_inv in Hc as (Hc & Hs3 & _).
    split; [|congruence].
    eapply dirs_preserved_trans; [by eapply makedirs_dirs_preserved|].
    eapply dirs_preserved_trans; [by eapply makedirs_dirs_preserved|].
    by eapply safe_copy_dirs_preserved.
Qed.

Lemma _generate_ref_hex s d p sha256 :
  _generate_ref s d p = inr sha256 → ∃ h, sha256 = Sha256.hexdigest h.
Proof.
  unfold _generate_ref.
  destruct (unique_parts d _) as [e|parts]; [discriminate|].
  intros H. injection H as <-. eauto.
Qed.
Lemma take_is_prefix_of_snoc (M : list string) (c : string) (ksrc : cpath) :
  prefix ksrc (M ++ [c]) → ksrc ≠ M ++ [c] → ∃ i, (i ≤ length M)%nat ∧ ksrc = take i M.
Proof.
  intros [q Hq] Hne. exists (length ksrc).
  destruct q as [|x q] using rev_ind; [by rewrite app_nil_r in Hq|].
  rewrite app_assoc in Hq. apply app_inj_tail in Hq as [-> _].
  split; [rewrite length_app; lia|]. by rewrite take_app_length.
Qed.

Lemma rmtree_entry d M mirror_dir c d' :
  real_dir_path d mirror_dir M → Utils.valid_name c = true →
  Utils._force_rmtree (OsPath.join mirror_dir c) d = (inr tt, d') →
  real_dir_path d' mirror_dir M.
Proof.
  intros HM Hc H. unfold Utils._force_rmtree in H. apply atomic_inv in H.
  unfold Os.rmtree in H. rewrite (resolve_entry d mirror_dir M c HM Hc) in H.
  destruct (node_at d (M ++ [c])) as [[]|]; try discriminate H.
  injection H as <-.
  eapply real_dir_path_frame; [|exact HM].
  intros i Hi. rewrite node_at_remove_tree by (by destruct M).
  rewrite decide_False; [done|].
  intros Hp. apply prefix_take_length in Hp; [done | lia].
Qed.

Lemma rename_entry d M mirror_dir c src d' :
  real_dir_path d mirror_dir M → Utils.valid_name c = true →
  Os.rename src (OsPath.join mirror_dir c) d = inr d' →
  real_dir_path d' mirror_dir M ∧ is_Some (node_at d' (M ++ [c])).
Proof.
  intros HM Hc. unfold Os.rename.
  rewrite (resolve_entry d mirror_dir M c HM Hc).
  destruct (resolve d false src) as [ksrc|]; [|discriminate].
  destruct (node_at d ksrc) as [n|] eqn:Hn; [|discriminate].
  destruct (decide (ksrc = M ++ [c])) as [->|Hne].
  { intros H. injection H as <-. split; [done|]. by rewrite Hn. }
  destruct (decide (ksrc = [] ∨ M ++ [c] = [])) as [|Hroot]; [discriminate|].
  assert (Hk0 : ksrc ≠ []) by tauto.
  (* the source is not above the mirror directory *)
  assert (Hdirsrc : prefix ksrc (M ++ [c]) → is_dir (Some n) = true).
  { intros Hp. destruct (take_is_prefix_of_snoc M c ksrc Hp Hne) as (i & Hi & ->).
    destruct HM as (_ & _ & _ & Hd). rewrite <- Hn.
    apply (Hd i). split; [|done]. destruct i; [by rewrite take_0 in Hk0 | lia]. }
  intros H.
  assert (Hmv : ¬ prefix ksrc (M ++ [c]) ∧ d' = move_tree ksrc (M ++ [c]) d).
  { destruct n as [m0 c0|t|m0].
    - split; [intros Hp; by apply Hdirsrc in Hp|].
      destruct (node_at d (M ++ [c])) as [[]|]; first [discriminate H | by injection H as <-].
    - split; [intros Hp; by apply Hdirsrc in Hp|].
      destruct (node_at d (M ++ [c])) as [[]|]; first [discriminate H | by injection H as <-].
    - destruct (decide (prefix ksrc (M ++ [c]))) as [|Hnp]; [discriminate|].
      split; [done|].
      destruct (node_at d (M ++ [c])) as [[]|]; try discriminate H;
        try (by injection H as <-).
      destruct (dir_empty d (M ++ [c])); first [discriminate H | by injection H as <-]. }
  destruct Hmv as [Hnp ->]. split.
  - eapply real_dir_path_frame; [|exact HM].
    intros i Hi. unfold node_at.
    destruct (take i M) as [|x l] eqn:Et; [done|]. rewrite <- Et.
    rewrite lookup_move_tree by done. unfold moved.
    rewrite decide_False.
    + rewrite decide_False; [done|]. intros Hp. apply Hnp.
      etransitivity; [exact Hp|]. etransitivity; [apply prefix_take|]. by apply prefix_app_r.
    + intros Hp. apply prefix_take_length in Hp; [done | lia].
  - rewrite node_at_snoc, lookup_move_tree by done. unfold moved.
    rewrite decide_True by done. rewrite drop_all, app_nil_r.
    destruct ksrc; [done|]. simpl in Hn. by rewrite Hn.
Qed.


(** ** The mirror directory is made on demand *)

Lemma string_of_list_ascii_app (l1 l2 : list ascii) :
  string_of_list_ascii (l1 ++ l2) = string_of_list_ascii l1 +:+ string_of_list_ascii l2.
Proof.
  induction l1 as [|x l1 IH]; [done|]. simpl.
  change (String x ?a +:+ ?b) with (String x (a +:+ b)). by rewrite IH.
Qed.

Lemma resolve_nofollow_follow d p k :
  resolve d false p = Some k → is_link (node_at d k) = false →
  resolve d true p = Some k.
Proof.
  unfold resolve. destruct (decide (p = "")); [done|]. apply walk_nofollow_follow.
Qed.

Lemma take_drop_while {X : Type} (f : X → bool) (l : list X) :
  l = OsPath.take_while f l ++ OsPath.drop_while f l
  ∧ forallb f (OsPath.take_while f l) = true
  ∧ (OsPath.drop_while f l = []
     ∨ ∃ x r, OsPath.drop_while f l = x :: r ∧ f x = false).
Proof.
  induction l as [|y l IH]; simpl; [repeat split; auto|].
  destruct IH as (IH1 & IH2 & IH3).
  destruct (f y) eqn:Ey; simpl.
  - rewrite Ey, IH2. split; [by f_equal|]. split; [done|]. exact IH3.
  - split; [done|]. split; [done|]. right. eauto.
Qed.

Lemma string_of_list_ascii_snoc (l : list ascii) (x : ascii) :
  string_of_list_ascii (l ++ [x]) = string_of_list_ascii l +:+ String x "".
Proof.
  induction l as [|y l IH]; [done|]. simpl. by rewrite IH.
Qed.

Lemma is_sep_inv x : OsPath.is_sep x = true → x = "/"%char.
Proof. unfold OsPath.is_sep. by intros ?%Ascii.eqb_eq. Qed.

Lemma rel_comps_snoc_sep a : Utils.rel_comps (a +:+ "/") = Utils.rel_comps a.
Proof.
  unfold Utils.rel_comps. rewrite split_sep_app_sep_end, filter_app.
  rewrite (filter_cons_False _ ""), filter_nil by tauto. by rewrite app_nil_r.
Qed.

Lemma rel_comps_strip (l : list ascii) :
  Utils.rel_comps (string_of_list_ascii (rev (OsPath.drop_while OsPath.is_sep l)))
  = Utils.rel_comps (string_of_list_ascii (rev l)).
Proof.
  induction l as [|y l IH]; [done|]. simpl.
  destruct (OsPath.is_sep y) eqn:Ey; [|done].
  apply is_sep_inv in Ey as ->.
  by rewrite string_of_list_ascii_snoc, rel_comps_snoc_sep.
Qed.

(** The components of a path are those of its head and its tail. *)
Lemma split_rel_comps p h t :
  OsPath.split p = (h, t) →
  Utils.rel_comps p = Utils.rel_comps h ++ Utils.rel_comps t.
Proof.
  unfold OsPath.split.
  set (f := fun c => negb (OsPath.is_sep c)).
  destruct (take_drop_while f (rev (list_ascii_of_string p))) as (Hl & Hnt & Hd).
  set (tail_r := OsPath.take_while f (rev (list_ascii_of_string p))) in *.
  set (head_r := OsPath.drop_while f (rev (list_ascii_of_string p))) in *.
  assert (Hp : p = string_of_list_ascii (rev head_r) +:+ string_of_list_ascii (rev tail_r)).
  { rewrite <- string_of_list_ascii_app, <- rev_app_distr, <- Hl, rev_involutive.
    by rewrite string_of_list_ascii_of_string. }
  intros [= <- <-].
  destruct Hd as [Hd|(x & r & Hd & Hx)].
  - rewrite Hd in Hp |- *. change (p = string_of_list_ascii (rev tail_r)) in Hp.
    change (Utils.rel_comps p = [] ++ Utils.rel_comps (string_of_list_ascii (rev tail_r))).
    by rewrite <- Hp.
  - apply negb_false_iff, is_sep_inv in Hx. subst x.
    rewrite Hd in Hp. simpl rev in Hp. rewrite string_of_list_ascii_snoc in Hp.
    rewrite append_assoc in Hp.
    assert (Hc : Utils.rel_comps p
                 = Utils.rel_comps (string_of_list_ascii (rev r))
                   ++ Utils.rel_comps (string_of_list_ascii (rev tail_r))).
    { rewrite Hp at 1. unfold Utils.rel_comps. by rewrite split_sep_app_sep, filter_app. }
    rewrite Hc. f_equal. rewrite Hd.
    destruct (forallb OsPath.is_sep ("/"%char :: r)).
    + simpl rev. by rewrite string_of_list_ascii_snoc, rel_comps_snoc_sep.
    + change (OsPath.drop_while OsPath.is_sep ("/"%char :: r))
        with (OsPath.drop_while OsPath.is_sep r).
      by rewrite rel_comps_strip.
Qed.

Lemma makedirs_parts_prefix p head tail :
  Os.makedirs_parts p = (head, tail) →
  Utils.rel_comps head `prefix_of` Utils.rel_comps p.
Proof.
  unfold Os.makedirs_parts. destruct (OsPath.split p) as [h0 t0] eqn:E0.
  apply split_rel_comps in E0. case_decide as Ht.
  - intros E1. apply split_rel_comps in E1. subst t0.
    rewrite E0, E1. change (Utils.rel_comps "") with (@nil string).
    rewrite app_nil_r. by apply prefix_app_r.
  - intros [= <- <-]. rewrite E0. by apply prefix_app_r.
Qed.

Lemma real_dir_path_prefix d p k h :
  real_dir_path d p k → h ≠ "" → Utils.rel_comps h `prefix_of` k →
  real_dir_path d h (Utils.rel_comps h).
Proof.
  intros (Hne & <- & Hv & Hd) Hh [q Hq]. split; [done|]. split; [done|].
  rewrite Hq in Hv, Hd. apply Forall_app in Hv as [Hv _]. split; [done|].
  intros i Hi. specialize (Hd i). rewrite take_app_le in Hd by lia.
  apply Hd. rewrite length_app. lia.
Qed.

Lemma exists_real_dir d p k : real_dir_path d p k → Os.exists_ d p = true.
Proof.
  intros H. unfold Os.exists_, stat. rewrite (resolve_real_dir _ _ _ true H). simpl.
  apply bool_decide_eq_true_2. pose proof (real_dir_path_is_dir _ _ _ H) as Hd.
  by destruct (node_at d k).
Qed.

Lemma isdir_real_dir d p k : real_dir_path d p k → Os.isdir d p = true.
Proof.
  intros H. unfold Os.isdir, stat. rewrite (resolve_real_dir _ _ _ true H). simpl.
  by apply real_dir_path_is_dir in H.
Qed.

Lemma on_disk_eq {A} (m : SE disk A) w r d' :
  m (fs w) = (r, d') →
  on_disk m w = (r, {| self := self w; fs := d'; warnings := warnings w |}).
Proof. unfold on_disk. by intros ->. Qed.

(** [os.makedirs(p, exist_ok=True)] of a directory that is there does
    nothing. *)
Lemma makedirs_exist_ok_real d p k :
  real_dir_path d p k → Os.makedirs_exist_ok p d = (inr tt, d).
Proof.
  intros Hp. unfold Os.makedirs_exist_ok.
  assert (Hfin : Os.mkdir_exist_ok p d = (inr tt, d)).
  { unfold Os.mkdir_exist_ok, Os.mkdir.
    rewrite (resolve_real_dir _ _ _ false Hp).
    pose proof (real_dir_path_is_dir _ _ _ Hp) as Hd.
    destruct (node_at d k) as [n|]; [|done].
    by rewrite (isdir_real_dir _ _ _ Hp). }
  destruct (Os.makedirs_parts p) as [head tail] eqn:Eparts.
  assert (Hmiss : bool_decide (head ≠ "") && bool_decide (tail ≠ "")
                  && negb (Os.exists_ d head) = false).
  { destruct (decide (head = "")) as [->|Hh].
    - by rewrite bool_decide_eq_false_2 by (by intros ?).
    - pose proof (makedirs_parts_prefix _ _ _ Eparts) as Hpre.
      destruct Hp as (? & Hk & ?). rewrite Hk in Hpre.
      assert (Hp' : real_dir_path d p k) by done.
      rewrite (exists_real_dir _ _ _ (real_dir_path_prefix _ _ _ _ Hp' Hh Hpre)).
      by rewrite andb_false_r. }
  destruct (String.length p); cbn [Os.makedirs_exist_ok_go]; rewrite Eparts;
    unfold bind at 1, query_total; rewrite Hmiss; exact Hfin.
Qed.

Lemma get_mirror_directory_real s w M :
  real_dir_path (fs w) (mirror_directory s) M →
  get_mirror_directory s w = (inr (mirror_directory s), w).
Proof.
  intros HM. unfold get_mirror_directory.
  rewrite (bind_ok _ _ _ _ _ (on_disk_eq _ _ _ _ (makedirs_exist_ok_real _ _ _ HM))).
  unfold ret. by rewrite world_eta.
Qed.

(** With the mirror directory in place, [_get_mirror_file] is a join. *)
Lemma _get_mirror_file_real s sha w M :
  real_dir_path (fs w) (mirror_directory s) M →
  _get_mirror_file s sha w
  = (match (if truthy sha then sha else ref s) with
     | Some name => inr (OsPath.join (mirror_directory s) name)
     | None => inl TypeError
     end, w).
Proof.
  intros HM. unfold _get_mirror_file.
  rewrite (bind_ok _ _ _ _ _ (get_mirror_directory_real _ _ _ HM)).
  by destruct (if truthy sha then sha else ref s).
Qed.

Lemma tempdir_real {X : Type} s (body : string → SE world X) w M :
  real_dir_path (fs w) (mirror_directory s) M →
  tempdir s body w = _tempdir (mirror_directory s) body w.
Proof.
  intros HM. unfold tempdir.
  by rewrite (bind_ok _ _ _ _ _ (get_mirror_directory_real _ _ _ HM)).
Qed.

(** ** The consistency query *)




Lemma get_consistency_present w M r :
  real_dir_path (fs w) (mirror_directory (self w)) M →
  ref (self w) = Some r →
  Os.exists_ (fs w) (OsPath.join (mirror_directory (self w)) r) = true →
  get_consistency w = (inr CACHED, w).
Proof.
  intros HM Hr Hex. unfold get_consistency, bind at 1, get_self. rewrite Hr.
  assert (Hmf : _get_mirror_file (self w) None w
                = (inr (OsPath.join (mirror_directory (self w)) r), w)).
  { rewrite (_get_mirror_file_real _ None _ _ HM). cbn [truthy]. by rewrite Hr. }
  rewrite (bind_ok _ _ _ _ _ Hmf).
  rewrite (bind_ok _ _ _ _ _ (on_disk_query_total _ w)).
  by rewrite Hex.
Qed.

(** With the mirror directory in place, the three calls of
    [_get_mirror_file] in [publish] give the same path and change
    nothing. *)
Lemma publish_real s targetdir h w M :
  real_dir_path (fs w) (mirror_directory s) M →
  publish s targetdir (Sha256.hexdigest h) w
  = (present <- on_disk (query_total (fun d =>
        Os.exists_ d (OsPath.join (mirror_directory s) (Sha256.hexdigest h))));;
     (if (present : bool)
      then on_disk (Utils._force_rmtree
                      (OsPath.join (mirror_directory s) (Sha256.hexdigest h)))
      else ret tt);;;
     on_disk (atomic (Os.rename targetdir
                        (OsPath.join (mirror_directory s) (Sha256.hexdigest h))))) w.
Proof.
  intros HM. unfold publish.
  set (sha := Sha256.hexdigest h). set (mf := OsPath.join (mirror_directory s) sha).
  assert (Hmf : ∀ w', real_dir_path (fs w') (mirror_directory s) M →
                      _get_mirror_file s (Some sha) w' = (inr mf, w')).
  { intros w' HM'. rewrite (_get_mirror_file_real _ _ _ _ HM'). unfold truthy.
    by rewrite bool_decide_eq_false_2 by apply hexdigest_ne. }
  rewrite (bind_ok _ _ _ _ _ (Hmf w HM)).
  rewrite !(bind_ok _ _ _ _ _ (on_disk_query_total _ w)).
  destruct (Os.exists_ (fs w) mf).
  - assert (H1 : (mirror_file <- _get_mirror_file s (Some sha);;
                  on_disk (Utils._force_rmtree mirror_file)) w
                 = on_disk (Utils._force_rmtree mf) w)
      by (by rewrite (bind_ok _ _ _ _ _ (Hmf w HM))).
    unfold bind at 1. rewrite H1. unfold bind at 2.
    destruct (on_disk (Utils._force_rmtree mf) w) as [[e|[]] w2] eqn:Erm; [done|].
    assert (HM2 : real_dir_path (fs w2) (mirror_directory s) M).
    { apply on_disk_inv in Erm as (Erm & _ & _).
      unfold Utils._force_rmtree in Erm. apply atomic_inv in Erm.
      unfold Os.rmtree, mf in Erm.
      rewrite (resolve_entry (fs w) (mirror_directory s) M sha HM (hexdigest_valid h)) in Erm.
      destruct (node_at (fs w) (M ++ [sha])) as [[]|]; try discriminate Erm.
      injection Erm as <-. eapply real_dir_path_frame; [|exact HM].
      intros i Hi. rewrite node_at_remove_tree by (by destruct M).
      rewrite decide_False; [done|].
      intros Hp. apply prefix_take_length in Hp; [done|lia]. }
    by rewrite (bind_ok _ _ _ _ _ (Hmf w2 HM2)).
  - unfold bind at 1, ret. by rewrite (bind_ok _ _ _ _ _ (Hmf w HM)).
Qed.

Lemma publish_spec s targetdir h M w w1 :
  real_dir_path (fs w) (mirror_directory s) M →
  publish s targetdir (Sha256.hexdigest h) w = (inr tt, w1) →
  real_dir_path (fs w1) (mirror_directory s) M
  ∧ is_Some (node_at (fs w1) (M ++ [Sha256.hexdigest h]))
  ∧ self w1 = self w.
Proof.
  intros HM. rewrite (publish_real _ _ _ _ _ HM).
  set (mf := OsPath.join (mirror_directory s) (Sha256.hexdigest h)).
  intros H.
  apply bind_inv_ok in H as (present & w0 & Hq & H).
  rewrite on_disk_query_total in Hq. injection Hq as <- <-.
  apply bind_inv_ok in H as ([] & w2 & Hrm & H).
  assert (HM2 : real_dir_path (fs w2) (mirror_directory s) M ∧ self w2 = self w).
  { destruct (Os.exists_ (fs w) mf).
    - apply on_disk_inv in Hrm as (Hrm & Hs & _). split; [|done].
      eapply rmtree_entry; [exact HM | apply hexdigest_valid | exact Hrm].
    - unfold ret in Hrm. by injection Hrm as <-. }
  destruct HM2 as [HM2 Hs2].
  apply on_disk_inv in H as (H & Hs & _). apply atomic_inv in H.
  destruct (rename_entry _ _ _ _ _ _ HM2 (hexdigest_valid h) H) as [? ?].
  split; [done|]. split; [done|]. congruence.
Qed.
Lemma finally_inv_ok {St A} (m : SE St A) (c : SE St unit) s a s' :
  finally m c s = (inr a, s') →
  ∃ s1, m s = (inr a, s1) ∧ c s1 = (inr tt, s').
Proof.
  unfold finally. destruct (m s) as [r s1]. destruct (c s1) as [[e|[]] s2] eqn:Ec; intros H.
  - discriminate H.
  - injection H as -> <-. eauto.
Qed.

Lemma cleanup_spec (mirror_dir : string) M n wb w1 :
  real_dir_path (fs wb) mirror_dir M →
  (isd <- on_disk (query_total (fun d => Os.isdir d (OsPath.join mirror_dir (Utils.tmp_name n))));;
   if (isd : bool)
   then on_disk (Utils._force_rmtree (OsPath.join mirror_dir (Utils.tmp_name n)))
   else ret tt) wb = (inr tt, w1) →
  real_dir_path (fs w1) mirror_dir M
  ∧ (∀ c, c ≠ Utils.tmp_name n → node_at (fs w1) (M ++ [c]) = node_at (fs wb) (M ++ [c]))
  ∧ self w1 = self wb.
Proof.
  intros HM H. apply bind_inv_ok in H as (isd & w0 & Hq & H).
  rewrite on_disk_query_total in Hq. injection Hq as <- <-.
  destruct (Os.isdir (fs wb) _).
  - apply on_disk_inv in H as (H & Hs & _).
    split; [by eapply rmtree_entry; [exact HM | apply tmp_name_valid | exact H]|].
    split; [|done].
    intros c Hc. unfold Utils._force_rmtree in H. apply atomic_inv in H.
    unfold Os.rmtree in H.
    rewrite (resolve_entry _ mirror_dir M _ HM (tmp_name_valid n)) in H.
    destruct (node_at (fs wb) (M ++ [Utils.tmp_name n])) as [[]|]; try discriminate H.
    injection H as <-.
    rewrite node_at_remove_tree by (by destruct M).
    rewrite decide_False; [done|].
    intros [q Hq]. rewrite <- app_assoc in Hq. apply app_inv_head in Hq.
    simpl in Hq. injection Hq as -> _. done.
  - unfold ret in H. injection H as <-. done.
Qed.

(** After a mirror population that returned a digest, the entry named
    by the digest is in the mirror directory and the source object is as
    it was. *)
Lemma _ensure_mirror_publishes w w1 sha256 M :
  real_dir_path (fs w) (mirror_directory (self w)) M →
  _ensure_mirror w = (inr sha256, w1) →
  Os.lexists (fs w1) (OsPath.join (mirror_directory (self w)) sha256) = true
  ∧ real_dir_path (fs w1) (mirror_directory (self w)) M
  ∧ self w1 = self w
  ∧ ∃ h, sha256 = Sha256.hexdigest h.
Proof.
  intros HM. unfold _ensure_mirror, bind at 1, get_self.
  rewrite (tempdir_real _ _ _ _ HM). unfold _tempdir.
  set (s := self w).
  destruct (Utils.mkdtemp (mirror_directory s) (fs w)) as [[e|td] d0] eqn:Htd;
    [discriminate|].
  intros H. apply finally_inv_ok in H as (wb & Hbody & Hclean).
  apply mkdtemp_go_inv in Htd as (n & -> & Hmk).
  apply mkdir_dirs_preserved in Hmk.
  apply bind_inv_ok in Hbody as (targetdir & ws & Hscratch & Hbody).
  apply scratch_copy_spec in Hscratch as [Hp Hs]. simpl in Hp, Hs.
  apply bind_inv_ok in Hbody as (sha & wg & Hg & Hbody).
  rewrite on_disk_query in Hg.
  destruct (_generate_ref s (fs ws) targetdir) as [e|sha'] eqn:Href; [discriminate|].
  injection Hg as <- <-.
  apply _generate_ref_hex in Href as [h ->].
  apply bind_inv_ok in Hbody as ([] & wp & Hpub & Hret).
  unfold ret in Hret. injection Hret as <- <-.
  assert (HMs : real_dir_path (fs ws) (mirror_directory s) M).
  { eapply real_dir_path_preserved; [|exact HM].
    eapply dirs_preserved_trans; [exact Hmk | exact Hp]. }
  destruct (publish_spec _ _ _ _ _ _ HMs Hpub) as (HMp & Hentry & Hsp).
  destruct (cleanup_spec _ _ _ _ _ HMp Hclean) as (HM1 & Hkeep & Hs1).
  split; [|split; [|split]]; [|done|congruence|by eauto].
  unfold Os.lexists, lstat.
  rewrite (resolve_entry _ _ M _ HM1 (hexdigest_valid h)). simpl.
  rewrite Hkeep by apply hexdigest_not_tmp.
  by apply bool_decide_eq_true_2.
Qed.

(** * Further properties *)

(** ** The shape of a digest *)

Lemma string_length_app (a b : string) :
  String.length (a +:+ b) = String.length a + String.length b.
Proof.
  induction a as [|x a IH]; [done|].
  change (String x a +:+ b) with (String x (a +:+ b)). simpl. by rewrite IH.
Qed.

Lemma hex_length ws : String.length (Sha256.hex ws) = 8 * length ws.
Proof.
  induction ws as [|w ws IH]; [done|].
  change (Sha256.hex (w :: ws)) with (Sha256.hexword w +:+ Sha256.hex ws).
  rewrite string_length_app, IH. simpl length.
  change (String.length (Sha256.hexword w)) with 8. lia.
Qed.

Lemma hexdigest_length h : String.length (Sha256.hexdigest h) = 64.
Proof. unfold Sha256.hexdigest. by rewrite hex_length, digest_length. Qed.

(** X1. A digest that [_generate_ref] returns is a string of 64
    lower-case hexadecimal digits: it holds no slash and is no [.] or
    [..], so that it names an entry directly below the mirror
    directory. *)
Theorem generated_ref_is_sha256_hex (s : Source) (d : disk) (p sha256 : string) :
  _generate_ref s d p = inr sha256 →
  String.length sha256 = 64
  ∧ Forall (fun c => is_hex c = true) (list_ascii_of_string sha256)
  ∧ Utils.valid_name sha256 = true.
Proof.
  intros H. apply _generate_ref_hex in H as [h ->].
  split; [apply hexdigest_length|]. split; [|apply hexdigest_valid].
  destruct (hexdigest_shape h) as (c & r & -> & Hh). exact Hh.
Qed.

Lemma generated_ref_is_sha256_hex_witness :
  String.length Examples.bob_digest = 64
  ∧ Forall (fun c => is_hex c = true) (list_ascii_of_string Examples.bob_digest)
  ∧ Utils.valid_name Examples.bob_digest = true.
Proof.
  apply (generated_ref_is_sha256_hex
           (self (Examples.world_of "files/bob.txt" None Examples.project))
           Examples.project "/proj/files/bob.txt").
  vm_compute. reflexivity.
Defined.

(** ** The token of a member *)

(** ** Digests of the smallest subjects *)

Lemma walk_trailing_dot d :
  ∀ fuel cwd comps k,
    walk fuel d true cwd comps = Some k →
    is_dir (node_at d k) = true →
    walk fuel d true cwd (comps ++ ["."]) = Some k.
Proof.
  assert (Hfile : ∀ cwd c, is_dir (d !! (cwd ++ [c])) = is_dir (node_at d (cwd ++ [c]))).
  { intros cwd c. unfold node_at. destruct (cwd ++ [c]) eqn:E; [by destruct cwd|done]. }
  induction fuel as [|fuel IHf].
  - intros cwd comps. revert cwd.
    induction comps as [|c rest IH]; intros cwd k.
    + rewrite walk_nil. intros [= <-] _. rewrite app_nil_l, walk_cons.
      rewrite decide_True by tauto. by rewrite walk_nil.
    + rewrite <- !app_comm_cons, !walk_cons. repeat case_decide; auto.
      destruct (d !! (cwd ++ [c])) as [[]|] eqn:El; auto; simpl; try done.
      * destruct (is_nil rest); [|done]. intros [= <-]. rewrite <- Hfile, El. done.
      * destruct (is_nil rest); [|done]. intros [= <-]. rewrite <- Hfile, El. done.
  - intros cwd comps. revert cwd.
    induction comps as [|c rest IH]; intros cwd k.
    + rewrite walk_nil. intros [= <-] _. rewrite app_nil_l, walk_cons.
      rewrite decide_True by tauto. by rewrite walk_nil.
    + rewrite <- !app_comm_cons, !walk_cons. repeat case_decide; auto.
      destruct (d !! (cwd ++ [c])) as [[]|] eqn:El; auto; simpl.
      * destruct (is_nil rest); [|done]. intros [= <-]. rewrite <- Hfile, El. done.
      * rewrite app_assoc. apply IHf.
      * destruct (is_nil rest); [|done]. intros [= <-]. rewrite <- Hfile, El. done.
Qed.

Lemma walk_dot_empty d follow :
  ∀ fuel cwd comps,
    walk fuel d follow cwd (comps ++ ["."]) = walk fuel d follow cwd (comps ++ [""]).
Proof.
  assert (Hn : ∀ (rest : list string) x, is_nil (rest ++ [x]) = false)
    by (by intros [|? ?] ?).
  induction fuel as [|fuel IHf].
  - intros cwd comps. revert cwd.
    induction comps as [|c rest IH]; intros cwd.
    + rewrite !app_nil_l, !walk_cons. by rewrite !decide_True by tauto.
    + rewrite <- !app_comm_cons, !walk_cons. repeat case_decide; auto.
      destruct (d !! (cwd ++ [c])) as [[]|] eqn:El; auto; by rewrite !Hn.
  - intros cwd comps. revert cwd.
    induction comps as [|c rest IH]; intros cwd.
    + rewrite !app_nil_l, !walk_cons. by rewrite !decide_True by tauto.
    + rewrite <- !app_comm_cons, !walk_cons. repeat case_decide; auto.
      destruct (d !! (cwd ++ [c])) as [[]|] eqn:El; auto; rewrite !Hn; auto.
      rewrite !andb_false_r, !app_assoc. apply IHf.
Qed.

(** The directory [p] is also reached as [p/.]. *)
Lemma resolve_join_dot d p k :
  resolve d true p = Some k → is_dir (node_at d k) = true →
  resolve d true (OsPath.join p ".") = Some k.
Proof.
  unfold resolve. case_decide as Hp; [done|]. intros Hw Hk.
  rewrite decide_False by (by apply join_ne).
  unfold OsPath.join. simpl OsPath.startswith_sep. cbv iota.
  rewrite decide_False by done.
  destruct (OsPath.endswith_sep p) eqn:He.
  - apply endswith_sep_inv in He as [a ->].
    rewrite append_assoc, split_sep_app_sep.
    rewrite split_sep_app_sep_end in Hw.
    change (OsPath.split_sep ".") with ["."].
    rewrite walk_dot_empty. exact Hw.
  - rewrite split_sep_app_sep. change (OsPath.split_sep ".") with ["."].
    by apply walk_trailing_dot.
Qed.

Lemma dir_empty_listed d Sk list_dirs :
  dir_empty d Sk = true → omap (Utils.listed d list_dirs Sk) (map_to_list d) = [].
Proof.
  unfold dir_empty, keys. intros H.
  rewrite forallb_forall in H.
  induction (map_to_list d) as [|[k v] l IH]; [done|].
  simpl. assert (Hk : ¬ strict_under Sk k).
  { specialize (H k). rewrite negb_true_iff, bool_decide_eq_false in H.
    apply H. simpl. by left. }
  rewrite decide_False by done. apply IH. intros x Hx. apply H. simpl. by right.
Qed.

(** X3. Every empty directory has the same digest, whatever its name,
    its mode and the declared path: the listing of an empty directory
    is the one member [.], whose token is ["0"], and the digest is the
    SHA-256 of the two bytes [.0]. *)
Theorem empty_directory_digest (s : Source) (d : disk) (p : string) (Sk : cpath) :
  resolve d true p = Some Sk →
  is_dir (node_at d Sk) = true →
  dir_empty d Sk = true →
  _generate_ref s d p
  = inr "ce5829e1a023d49c88eca9ff6812ded618d4c3ed0d2a572b545609b9c4983153".
Proof.
  intros HS Hd He. unfold _generate_ref.
  assert (Hisd : Os.isdir d p = true) by (unfold Os.isdir, stat; by rewrite HS).
  rewrite Hisd. unfold Utils.list_relative_paths. rewrite HS, Hd, He.
  rewrite dir_empty_listed by done.
  change (merge_sort string_le ((if true && true then ["."] else []) ++ []))
    with ["."].
  cbn [map unique_parts]. unfold unique_key.
  assert (Hdot : Os.isdir d (OsPath.join p ".") = true).
  { unfold Os.isdir, stat. by rewrite (resolve_join_dot d p Sk). }
  rewrite Hdot. vm_compute. reflexivity.
Qed.

Lemma empty_directory_digest_witness :
  _generate_ref (self (Examples.world_of "files/sally/empty" None Examples.project))
    Examples.project "/proj/files/sally/empty"
  = inr "ce5829e1a023d49c88eca9ff6812ded618d4c3ed0d2a572b545609b9c4983153".
Proof.
  apply (empty_directory_digest _ _ _ ["proj"; "files"; "sally"; "empty"]);
    vm_compute; reflexivity.
Defined.



(** ** A single file whose declared path has no directory part *)

Lemma take_while_app_stop {A} (f : A → bool) (l : list A) x r :
  forallb f l = true → f x = false →
  OsPath.take_while f (l ++ x :: r) = l ∧ OsPath.drop_while f (l ++ x :: r) = x :: r.
Proof.
  intros Hl Hx. induction l as [|y l IH]; simpl.
  - by rewrite Hx.
  - simpl in Hl. apply andb_true_iff in Hl as [Hy Hl]. rewrite Hy.
    destruct (IH Hl) as [-> ->]. done.
Qed.

Lemma take_while_all {A} (f : A → bool) (l : list A) :
  forallb f l = true →
  OsPath.take_while f l = l ∧ OsPath.drop_while f l = [].
Proof.
  intros Hl. induction l as [|y l IH]; simpl; [done|].
  simpl in Hl. apply andb_true_iff in Hl as [Hy Hl]. rewrite Hy.
  destruct (IH Hl) as [-> ->]. done.
Qed.

Lemma forallb_rev' {A} (f : A → bool) (l : list A) :
  forallb f l = true → forallb f (rev l) = true.
Proof.
  rewrite !forallb_forall. intros H x Hx. apply H. by apply in_rev.
Qed.


(** A non-empty string that does not end with a slash. *)
Lemma not_endswith_sep_inv a :
  a ≠ "" → OsPath.endswith_sep a = false →
  ∃ l x, list_ascii_of_string a = l ++ [x] ∧ OsPath.is_sep x = false.
Proof.
  induction a as [|c a IH]; [done|]. intros _ He. destruct a as [|c' a].
  - exists [], c. done.
  - destruct IH as (l & x & Hl & Hx); [done|exact He|].
    exists (c :: l), x. simpl in Hl |- *. by rewrite Hl.
Qed.

(** [os.path.split] of a path that ends with the name [c]. *)
Lemma split_name a c :
  a ≠ "" → OsPath.endswith_sep a = false → no_sep c →
  OsPath.split (a +:+ "/" +:+ c) = (a, c).
Proof.
  intros Ha He Hc. destruct (not_endswith_sep_inv a Ha He) as (l & x & Hl & Hx).
  unfold OsPath.split.
  rewrite !list_ascii_of_string_app, Hl.
  change (list_ascii_of_string "/") with ["/"%char].
  rewrite !rev_app_distr. simpl rev. rewrite <- !app_assoc. simpl app.
  destruct (take_while_app_stop (fun c => negb (OsPath.is_sep c))
              (rev (list_ascii_of_string c)) "/"%char (x :: rev l)) as [Ht Hd].
  { by apply forallb_rev'. }
  { done. }
  rewrite Ht, Hd. simpl forallb. rewrite Hx. simpl.
  rewrite Hx. simpl. rewrite !rev_involutive.
  rewrite string_of_list_ascii_of_string. f_equal.
  rewrite <- Hl. apply string_of_list_ascii_of_string.
Qed.

(** [os.path.split] of a path without a slash: the head is empty. *)
Lemma split_no_sep p : no_sep p → OsPath.split p = ("", p).
Proof.
  intros Hp. unfold OsPath.split.
  destruct (take_while_all (fun c => negb (OsPath.is_sep c))
              (rev (list_ascii_of_string p))) as [Ht Hd].
  { by apply forallb_rev'. }
  rewrite Ht, Hd. simpl. rewrite rev_involutive.
  by rewrite string_of_list_ascii_of_string.
Qed.

Lemma endswith_sep_app a c :
  c ≠ "" → OsPath.endswith_sep (a +:+ c) = OsPath.endswith_sep c.
Proof.
  intros Hc. induction a as [|x a IH]; [done|].
  change (String x a +:+ c) with (String x (a +:+ c)).
  simpl. destruct (a +:+ c) eqn:E; [|done].
  destruct a; [|done]. by destruct c.
Qed.

Lemma no_sep_not_endswith c : no_sep c → OsPath.endswith_sep c = false.
Proof.
  unfold no_sep. induction c as [|x c IH]; [done|]. simpl.
  intros H. apply andb_true_iff in H as [Hx Hc]. destruct c; [|by apply IH].
  by apply negb_true_iff.
Qed.

(** The path of the entry [c] of a directory. *)
Lemma join_name a c :
  a ≠ "" → Utils.valid_name c = true →
  OsPath.join a c ≠ "" ∧ OsPath.endswith_sep (OsPath.join a c) = false.
Proof.
  intros Ha Hc. apply valid_name_iff in Hc as [(Hne & _ & _) Hns].
  assert (Hs : OsPath.startswith_sep c = false).
  { destruct c as [|x c]; [done|]. unfold no_sep in Hns. simpl in Hns.
    apply andb_true_iff in Hns as [Hx _]. by apply negb_true_iff. }
  split; [by apply join_ne|].
  unfold OsPath.join. rewrite Hs, decide_False by done.
  destruct (OsPath.endswith_sep a).
  - rewrite endswith_sep_app by done. by apply no_sep_not_endswith.
  - rewrite <- append_assoc, endswith_sep_app by done. by apply no_sep_not_endswith.
Qed.

Lemma join_plain a c :
  a ≠ "" → OsPath.endswith_sep a = false → OsPath.startswith_sep c = false →
  OsPath.join a c = a +:+ "/" +:+ c.
Proof.
  intros Ha He Hs. unfold OsPath.join. by rewrite Hs, He, decide_False.
Qed.

(** The entry [c] of a directory reached through real directories is
    reached through real directories, when it is a directory. *)
Lemma real_dir_path_entry d p k c :
  real_dir_path d p k → Utils.valid_name c = true →
  is_dir (node_at d (k ++ [c])) = true →
  real_dir_path d (OsPath.join p c) (k ++ [c]).
Proof.
  intros (Hp & Hk & Hv & Hd) Hc Hn.
  pose proof (proj1 (valid_name_iff c) Hc) as [(Hne & Hdot & _) Hns].
  assert (Hs : OsPath.startswith_sep c = false).
  { destruct c as [|x c]; [done|]. unfold no_sep in Hns. simpl in Hns.
    apply andb_true_iff in Hns as [Hx _]. by apply negb_true_iff. }
  split; [by apply join_ne|]. split; [|split].
  - rewrite rel_comps_join, Hk by done. f_equal.
    change c with (String.concat "/" [c]) at 1.
    apply rel_comps_concat; [by constructor|done].
  - apply Forall_app. split; [done|by constructor].
  - apply dirs_below_app. split; [done|].
    apply dirs_below_cons. split; [done|apply dirs_below_nil].
Qed.

(** What [mkdtemp] does in a directory reached through real
    directories. *)
Lemma mkdtemp_go_cases d mirror_dir M :
  real_dir_path d mirror_dir M →
  ∀ fuel n,
    Utils.mkdtemp_go fuel n mirror_dir d = (inl FileExistsError, d)
    ∨ ∃ n', node_at d (M ++ [Utils.tmp_name n']) = None
            ∧ Utils.mkdtemp_go fuel n mirror_dir d
              = (inr (OsPath.join mirror_dir (Utils.tmp_name n')),
                 <[M ++ [Utils.tmp_name n'] := IDir Stat.S_IRWXU]> d).
Proof.
  intros HM. induction fuel as [|fuel IH]; intros n; cbn [Utils.mkdtemp_go];
    unfold Os.mkdir; rewrite (resolve_entry d mirror_dir M _ HM (tmp_name_valid n)).
  - destruct (node_at d (M ++ [Utils.tmp_name n])) eqn:E; [by left|].
    right. exists n. done.
  - destruct (node_at d (M ++ [Utils.tmp_name n])) eqn:E; [apply IH|].
    right. exists n. done.
Qed.

(** [os.makedirs] of a name whose parent exists is one [mkdir]. *)
Lemma makedirs_go_present fuel name d head tail :
  Os.makedirs_parts name = (head, tail) → Os.exists_ d head = true →
  Os.makedirs_go fuel name d = atomic (Os.mkdir name default_dir_mode) d.
Proof.
  intros Hp He. destruct fuel; cbn [Os.makedirs_go]; rewrite Hp;
    unfold bind at 1, query_total; rewrite He, !andb_false_r; reflexivity.
Qed.


Lemma valid_name_not_abs c : Utils.valid_name c = true → OsPath.startswith_sep c = false.
Proof.
  intros Hc. apply valid_name_iff in Hc as [_ Hns].
  destruct c as [|x c]; [done|]. unfold no_sep in Hns. simpl in Hns.
  apply andb_true_iff in Hns as [Hx _]. by apply negb_true_iff.
Qed.

(** [os.makedirs] of an entry of an existing directory is one [mkdir]. *)
Lemma makedirs_entry d p k c :
  real_dir_path d p k → OsPath.endswith_sep p = false → Utils.valid_name c = true →
  Os.makedirs (OsPath.join p c) d
  = atomic (Os.mkdir (OsPath.join p c) default_dir_mode) d.
Proof.
  intros Hp He Hc. pose proof (exists_real_dir _ _ _ Hp) as Hex.
  destruct Hp as (Hpne & _).
  pose proof (proj1 (valid_name_iff c) Hc) as [(Hcne & _ & _) Hns].
  unfold Os.makedirs. apply (makedirs_go_present _ _ _ p c); [|done].
  rewrite join_plain by (done || by apply valid_name_not_abs).
  unfold Os.makedirs_parts. rewrite split_name by done.
  by rewrite decide_False.
Qed.

(** [os.makedirs] of an existing directory, spelt with a slash at its
    end, raises [FileExistsError]. *)
Lemma makedirs_existing d p k c :
  real_dir_path d p k → OsPath.endswith_sep p = false → Utils.valid_name c = true →
  is_dir (node_at d (k ++ [c])) = true →
  Os.makedirs (OsPath.join (OsPath.join p c) "") d = (inl FileExistsError, d).
Proof.
  intros Hp Hpe Hc Hn.
  pose proof (real_dir_path_entry d p k c Hp Hc Hn) as Hpc.
  pose proof (exists_real_dir _ _ _ Hp) as Hex.
  destruct Hp as (Hpne & Hp').
  destruct (join_name p c Hpne Hc) as [Hne He].
  pose proof (proj1 (valid_name_iff c) Hc) as [(Hcne & _ & _) Hns].
  rewrite (join_plain (OsPath.join p c) "") by done.
  unfold Os.makedirs.
  assert (Hparts : Os.makedirs_parts (OsPath.join p c +:+ "/" +:+ "") = (p, c)).
  { unfold Os.makedirs_parts. rewrite split_name by done.
    rewrite decide_True by done.
    rewrite join_plain by (done || by apply valid_name_not_abs).
    by rewrite split_name. }
  rewrite (makedirs_go_present _ _ _ _ _ Hparts Hex).
  unfold atomic, Os.mkdir.
  assert (Hr : resolve d false (OsPath.join p c +:+ "/" +:+ "") = Some (k ++ [c])).
  { pose proof (resolve_dot d _ _ false Hpc) as Hdot.
    rewrite (join_plain (OsPath.join p c) ".") in Hdot by done.
    unfold resolve in Hdot |- *.
    rewrite decide_False in Hdot by (by destruct (OsPath.join p c)).
    rewrite decide_False by (by destruct (OsPath.join p c)).
    rewrite split_sep_app_sep in Hdot |- *.
    change (OsPath.split_sep ".") with ["."] in Hdot.
    change (OsPath.split_sep "") with [""].
    by rewrite <- walk_dot_empty. }
  rewrite Hr. by destruct (node_at d (k ++ [c])) as [[]|].
Qed.

(** Making something where nothing was does not change where a path
    that names something leads. *)
Lemma walk_insert_missing d k n follow :
  d !! k = None →
  ∀ fuel cwd comps k',
    walk fuel d follow cwd comps = Some k' → is_Some (node_at d k') →
    walk fuel (<[k := n]> d) follow cwd comps = Some k'.
Proof.
  intros Hk.
  assert (Hlook : ∀ cwd c, d !! (cwd ++ [c]) ≠ None →
            <[k := n]> d !! (cwd ++ [c]) = d !! (cwd ++ [c])).
  { intros cwd c Hne. apply lookup_insert_ne. congruence. }
  assert (Hend : ∀ cwd c k', d !! (cwd ++ [c]) = None →
            Some (cwd ++ [c]) = Some k' → is_Some (node_at d k') → False).
  { intros cwd c k' E [= <-]. rewrite node_at_snoc, E. by intros [? ?]. }
  induction fuel as [|fuel IHf].
  - intros cwd comps. revert cwd.
    induction comps as [|c rest IH]; intros cwd k'; [by rewrite !walk_nil|].
    rewrite !walk_cons. repeat case_decide; auto.
    destruct (d !! (cwd ++ [c])) as [n0|] eqn:El.
    + rewrite Hlook by congruence. rewrite El. destruct n0; auto.
    + destruct (is_nil rest); [|done]. intros H1 H2. by destruct (Hend _ _ _ El H1 H2).
  - intros cwd comps. revert cwd.
    induction comps as [|c rest IH]; intros cwd k'; [by rewrite !walk_nil|].
    rewrite !walk_cons. repeat case_decide; auto.
    destruct (d !! (cwd ++ [c])) as [n0|] eqn:El.
    + rewrite Hlook by congruence. rewrite El. destruct n0; auto.
      destruct (negb follow && is_nil rest); auto.
    + destruct (is_nil rest); [|done]. intros H1 H2. by destruct (Hend _ _ _ El H1 H2).
Qed.

Lemma stat_insert_missing d k n p x :
  k ≠ [] → node_at d k = None → stat d p = Some x → stat (<[k := n]> d) p = Some x.
Proof.
  intros Hk0 Hk. unfold stat, resolve. destruct (decide (p = "")); [done|].
  destruct (walk MAXSYMLINKS d true [] (OsPath.split_sep p)) as [k'|] eqn:E; [|done].
  intros Hx. change (node_at d k' = Some x) in Hx.
  assert (Hd : d !! k = None) by (by destruct k).
  rewrite (walk_insert_missing d k n true Hd _ _ _ _ E) by (by rewrite Hx).
  simpl. rewrite node_at_insert_ne by done.
  rewrite decide_False; [done|]. intros ->. congruence.
Qed.


(** ** The order of a listing *)

Lemma string_compare_trans (a b c : string) :
  String.compare a b ≠ Gt → String.compare b c ≠ Gt → String.compare a c ≠ Gt.
Proof.
  revert b c. induction a as [|x a IH]; intros [|y b] [|z c]; simpl; try done.
  unfold Ascii.compare.
  destruct (N.compare_spec (N_of_ascii x) (N_of_ascii y)),
           (N.compare_spec (N_of_ascii y) (N_of_ascii z)),
           (N.compare_spec (N_of_ascii x) (N_of_ascii z));
    try done; try lia.
  apply IH.
Qed.

#[local] Instance string_le_trans : Transitive string_le.
Proof.
  intros a b c. unfold string_le, String.leb.
  pose proof (string_compare_trans a b c) as H.
  destruct (String.compare a b), (String.compare b c), (String.compare a c);
    try done; intros; exfalso; by apply H.
Qed.

#[local] Instance string_le_antisym : AntiSymm (=) string_le.
Proof. intros a b. apply String.leb_antisym. Qed.

#[local] Instance string_le_total : Total string_le.
Proof. intros a b. apply String.leb_total. Qed.

Lemma merge_sort_perm (l l' : list string) :
  l ≡ₚ l' → merge_sort string_le l = merge_sort string_le l'.
Proof.
  intros H. apply (Sorted_unique string_le); try apply Sorted_merge_sort; try apply _.
  by rewrite !merge_sort_Permutation.
Qed.

(** ** The entry that a mirror population leaves *)

Lemma well_formedb_sound d : well_formedb d = true → well_formed d.
Proof.
  unfold well_formedb. rewrite forallb_forall. intros H k c [v Hv].
  specialize (H (k ++ [c])). rewrite removelast_last in H.
  assert (Hn : is_nil (k ++ [c]) = false) by (by destruct k).
  rewrite Hn in H. apply H. apply list_elem_of_In. unfold keys. apply list_elem_of_fmap.
  exists (k ++ [c], v). split; [done|]. by apply elem_of_map_to_list.
Qed.

(** Removing a tree does not make a path lead to something else. *)
Lemma walk_remove_tree d K follow :
  K ≠ [] →
  ∀ fuel cwd comps k,
    walk fuel (remove_tree K d) follow cwd comps = Some k →
    node_at (remove_tree K d) k = None
    ∨ (walk fuel d follow cwd comps = Some k
       ∧ node_at (remove_tree K d) k = node_at d k).
Proof.
  intros HK.
  assert (Hnil : ∀ cwd, node_at (remove_tree K d) cwd = None
            ∨ node_at (remove_tree K d) cwd = node_at d cwd).
  { intros cwd. rewrite node_at_remove_tree by done. case_decide; auto. }
  assert (Hlook : ∀ k, remove_tree K d !! k = None ∨ remove_tree K d !! k = d !! k).
  { intros k. destruct k as [|c k].
    - destruct (remove_tree K d !! []) eqn:E; [|by left]. right.
      unfold remove_tree in E. apply map_lookup_filter_Some in E as [E _]. done.
    - apply (Hnil (c :: k)). }
  induction fuel as [|fuel IHf].
  - intros cwd comps. revert cwd.
    induction comps as [|c rest IH]; intros cwd k.
    + rewrite !walk_nil. intros [= <-]. destruct (Hnil cwd); auto.
    + rewrite !walk_cons. repeat case_decide; auto.
      destruct (Hlook (cwd ++ [c])) as [E|E]; rewrite E.
      * destruct (is_nil rest); [|done]. intros [= <-]. left. by rewrite node_at_snoc.
      * destruct (d !! (cwd ++ [c])) as [[]|] eqn:El; auto.
        -- destruct (is_nil rest); [|done]. intros [= <-].
           destruct (Hnil (cwd ++ [c])); auto.
        -- destruct (negb follow && is_nil rest); [|done]. intros [= <-].
           destruct (Hnil (cwd ++ [c])); auto.
        -- destruct (is_nil rest); [|done]. intros [= <-].
           destruct (Hnil (cwd ++ [c])); auto.
  - intros cwd comps. revert cwd.
    induction comps as [|c rest IH]; intros cwd k.
    + rewrite !walk_nil. intros [= <-]. destruct (Hnil cwd); auto.
    + rewrite !walk_cons. repeat case_decide; auto.
      destruct (Hlook (cwd ++ [c])) as [E|E]; rewrite E.
      * destruct (is_nil rest); [|done]. intros [= <-]. left. by rewrite node_at_snoc.
      * destruct (d !! (cwd ++ [c])) as [[]|] eqn:El; auto.
        -- destruct (is_nil rest); [|done]. intros [= <-].
           destruct (Hnil (cwd ++ [c])); auto.
        -- destruct (negb follow && is_nil rest); [|by apply IHf]. intros [= <-].
           destruct (Hnil (cwd ++ [c])); auto.
        -- destruct (is_nil rest); [|done]. intros [= <-].
           destruct (Hnil (cwd ++ [c])); auto.
Qed.

Lemma lstat_remove_tree d K p n :
  K ≠ [] → lstat (remove_tree K d) p = Some n → lstat d p = Some n.
Proof.
  intros HK. unfold lstat, resolve. destruct (decide (p = "")); [done|].
  destruct (walk MAXSYMLINKS (remove_tree K d) false [] (OsPath.split_sep p))
    as [k|] eqn:E; [|done].
  intros Hn. change (node_at (remove_tree K d) k = Some n) in Hn.
  destruct (walk_remove_tree d K false HK _ _ _ _ E) as [Hnone|[Hw Heq]]; [congruence|].
  rewrite Hw. simpl. congruence.
Qed.

(** What [os.rename] puts at an entry of the mirror directory is what
    was at the source. *)
Lemma rename_entry_node d M mirror_dir c src d' :
  real_dir_path d mirror_dir M → Utils.valid_name c = true →
  Os.rename src (OsPath.join mirror_dir c) d = inr d' →
  ∃ n, lstat d src = Some n ∧ node_at d' (M ++ [c]) = Some n.
Proof.
  intros HM Hc. unfold Os.rename, lstat.
  rewrite (resolve_entry d mirror_dir M c HM Hc).
  destruct (resolve d false src) as [ksrc|]; [|discriminate]. simpl.
  destruct (node_at d ksrc) as [n|] eqn:Hn; [|discriminate].
  exists n. split; [done|]. revert H.
  destruct (decide (ksrc = M ++ [c])) as [->|Hne].
  { intros H. by injection H as <-. }
  destruct (decide (ksrc = [] ∨ M ++ [c] = [])) as [|Hroot]; [discriminate|].
  assert (Hk0 : ksrc ≠ []) by tauto.
  assert (Hdirsrc : prefix ksrc (M ++ [c]) → is_dir (Some n) = true).
  { intros Hp. destruct (take_is_prefix_of_snoc M c ksrc Hp Hne) as (i & Hi & ->).
    destruct HM as (_ & _ & _ & Hd). rewrite <- Hn.
    apply (Hd i). split; [|done]. destruct i; [by rewrite take_0 in Hk0 | lia]. }
  intros H.
  assert (Hmv : ¬ prefix ksrc (M ++ [c]) ∧ d' = move_tree ksrc (M ++ [c]) d).
  { destruct n as [m0 c0|t|m0].
    - split; [intros Hp; by apply Hdirsrc in Hp|].
      destruct (node_at d (M ++ [c])) as [[]|]; first [discriminate H | by injection H as <-].
    - split; [intros Hp; by apply Hdirsrc in Hp|].
      destruct (node_at d (M ++ [c])) as [[]|]; first [discriminate H | by injection H as <-].
    - destruct (decide (prefix ksrc (M ++ [c]))) as [|Hnp]; [discriminate|].
      split; [done|].
      destruct (node_at d (M ++ [c])) as [[]|]; try discriminate H;
        try (by injection H as <-).
      destruct (dir_empty d (M ++ [c])); first [discriminate H | by injection H as <-]. }
  destruct Hmv as [Hnp ->].
  rewrite node_at_snoc, lookup_move_tree by done. unfold moved.
  rewrite decide_True by done. rewrite drop_all, app_nil_r.
  destruct ksrc; [done|]. exact Hn.
Qed.

(** What [publish] leaves at the entry is what was at [targetdir]. *)
Lemma publish_node s targetdir h M w w1 :
  real_dir_path (fs w) (mirror_directory s) M →
  publish s targetdir (Sha256.hexdigest h) w = (inr tt, w1) →
  ∃ n, lstat (fs w) targetdir = Some n
       ∧ node_at (fs w1) (M ++ [Sha256.hexdigest h]) = Some n.
Proof.
  intros HM. rewrite (publish_real _ _ _ _ _ HM).
  set (mf := OsPath.join (mirror_directory s) (Sha256.hexdigest h)).
  intros H.
  apply bind_inv_ok in H as (present & w0 & Hq & H).
  rewrite on_disk_query_total in Hq. injection Hq as <- <-.
  apply bind_inv_ok in H as ([] & w2 & Hrm & H).
  assert (HM2 : real_dir_path (fs w2) (mirror_directory s) M
                ∧ ∀ n, lstat (fs w2) targetdir = Some n → lstat (fs w) targetdir = Some n).
  { destruct (Os.exists_ (fs w) mf).
    - apply on_disk_inv in Hrm as (Hrm & Hs & _). split.
      + eapply rmtree_entry; [exact HM | apply hexdigest_valid | exact Hrm].
      + unfold Utils._force_rmtree in Hrm. apply atomic_inv in Hrm.
        unfold Os.rmtree, mf in Hrm.
        rewrite (resolve_entry _ _ M _ HM (hexdigest_valid h)) in Hrm.
        destruct (node_at (fs w) (M ++ [Sha256.hexdigest h])) as [[]|]; try discriminate Hrm.
        injection Hrm as <-. intros n. apply lstat_remove_tree. by destruct M.
    - unfold ret in Hrm. by injection Hrm as <-. }
  destruct HM2 as [HM2 Hback].
  apply on_disk_inv in H as (H & Hs & _). apply atomic_inv in H.
  destruct (rename_entry_node _ _ _ _ _ _ HM2 (hexdigest_valid h) H) as (n & Hn & Hentry).
  exists n. split; [by apply Hback|done].
Qed.

Lemma for_each_invariant {X : Type} (P : disk → Prop) (body : X → SE disk unit) :
  (∀ x d d', P d → body x d = (inr tt, d') → P d') →
  ∀ l d d', P d → for_each l body d = (inr tt, d') → P d'.
Proof.
  intros Hb. induction l as [|x l IH]; intros d d' HP H.
  - unfold for_each, ret in H. by injection H as <-.
  - apply for_each_cons_inv in H as (d1 & H1 & H2). eauto.
Qed.

(** Copying a member of a directory leaves a directory, or nothing, at
    the destination itself. *)
Lemma copy_member_root Sk Dk f d d' :
  is_dir (node_at d Sk) = true ∧ is_link (node_at d Dk) = false →
  Utils.copy_member Sk Dk f d = (inr tt, d') →
  is_dir (node_at d' Sk) = true ∧ is_link (node_at d' Dk) = false.
Proof.
  intros [HS HD] H. split.
  { by apply (copy_member_dirs_preserved _ _ _ _ _ H). }
  revert H. unfold Utils.copy_member.
  destruct (bool_decide (".." ∈ Utils.rel_comps f)); [discriminate|].
  intros H. apply bind_inv_ok in H as (src & d0 & Hq & H).
  unfold query_total in Hq. injection Hq as <- <-.
  destruct (node_at d (Sk ++ Utils.rel_comps f)) as [n|] eqn:En; [|discriminate].
  apply bind_inv_ok in H as ([] & d1 & Hdirs & H).
  assert (H1 : is_link (node_at d1 Dk) = false).
  { revert Hdirs. apply (for_each_invariant (fun d => is_link (node_at d Dk) = false)); [|done].
    intros p da db Ha Hb. unfold Utils.ensure_dir in Hb. apply atomic_inv in Hb.
    destruct (node_at da (Dk ++ p)) as [[]|] eqn:E; first [discriminate Hb | injection Hb as <-];
      [done|].
    rewrite node_at_insert. repeat case_decide; done. }
  apply atomic_inv in H.
  assert (Hins : is_link (node_at (<[Dk ++ Utils.rel_comps f := n]> d1) Dk) = false).
  { rewrite node_at_insert. case_decide; [done|]. case_decide as Heq; [|done].
    rewrite <- (app_nil_r Dk) in Heq at 2. apply app_inv_head in Heq.
    rewrite Heq, app_nil_r in En. rewrite En in HS. by destruct n. }
  destruct n, (node_at d1 (Dk ++ Utils.rel_comps f)) as [[]|] eqn:E;
    first [discriminate H | by injection H as <-].
Qed.


(** What the scratch copy leaves at [targetdir] is no symbolic link. *)
Lemma scratch_copy_not_link s td Mt w targetdir w1 :
  real_dir_path (fs w) td Mt → node_at (fs w) (Mt ++ ["moveable"]) = None →
  scratch_copy s td w = (inr targetdir, w1) →
  ∀ n, lstat (fs w1) targetdir = Some n → is_link (Some n) = false.
Proof.
  intros Htd Hfree. unfold scratch_copy. intros H.
  assert (Hv : Utils.valid_name "moveable" = true) by reflexivity.
  apply bind_inv_ok in H as (isd & w0 & Hq & H).
  rewrite on_disk_query_total in Hq. injection Hq as <- <-.
  destruct (Os.isdir (fs w) (fullpath s)) eqn:Hisd.
  - apply bind_inv_ok in H as ([] & w2 & Hc & H).
    unfold ret in H. injection H as <- <-.
    apply on_disk_inv in Hc as (Hc & _ & _).
    pose proof (copy_files_dirs_preserved _ _ _ _ _ Hc) as Hp.
    apply isdir_inv in Hisd as (Sk & m & HS & HSn).
    unfold Utils.copy_files in Hc. rewrite HS in Hc.
    pose proof (resolve_entry _ _ _ _ Htd Hv) as HD.
    rewrite (resolve_nofollow_follow _ _ _ HD) in Hc by (by rewrite Hfree).
    assert (Hinv : is_dir (node_at (fs w2) Sk) = true
                   ∧ is_link (node_at (fs w2) (Mt ++ ["moveable"])) = false).
    { revert Hc. apply (for_each_invariant
        (fun d => is_dir (node_at d Sk) = true
                  ∧ is_link (node_at d (Mt ++ ["moveable"])) = false)).
      - intros f da db. apply copy_member_root.
      - by rewrite HSn, Hfree. }
    intros n. unfold lstat.
    rewrite (resolve_entry _ _ _ _ (real_dir_path_preserved _ _ _ _ Hp Htd) Hv).
    intros Hn. change (node_at (fs w2) (Mt ++ ["moveable"]) = Some n) in Hn.
    rewrite <- Hn. apply Hinv.
  - apply bind_inv_ok in H as ([] & w2 & Hm1 & H).
    destruct (OsPath.split (path s)) as [base tl].
    apply bind_inv_ok in H as ([] & w3 & Hm2 & H).
    apply bind_inv_ok in H as ([] & w4 & Hc & H).
    unfold ret in H. injection H as <- <-.
    apply on_disk_inv in Hc as (Hc & _ & _).
    apply safe_copy_spec in Hc as (m & c & _ & Hl).
    intros n. rewrite Hl. by intros [= <-].
Qed.

(** After a mirror population that returned a digest on a well-formed
    disk, the entry named by the digest is a file or a directory of the
    mirror directory. *)
Lemma _ensure_mirror_entry w w1 sha256 M :
  real_dir_path (fs w) (mirror_directory (self w)) M →
  well_formed (fs w) →
  _ensure_mirror w = (inr sha256, w1) →
  Os.exists_ (fs w1) (OsPath.join (mirror_directory (self w)) sha256) = true
  ∧ self w1 = self w.
Proof.
  intros HM Hwf. unfold _ensure_mirror, bind at 1, get_self.
  rewrite (tempdir_real _ _ _ _ HM). unfold _tempdir.
  set (s := self w).
  destruct (Utils.mkdtemp (mirror_directory s) (fs w)) as [[e|td] d0] eqn:Htd;
    [discriminate|].
  intros H. apply finally_inv_ok in H as (wb & Hbody & Hclean).
  apply mkdtemp_go_inv in Htd as (n & -> & Hmk).
  pose proof (mkdir_dirs_preserved _ _ _ _ Hmk) as Hp0.
  apply mkdir_inv in Hmk as (k & Hk & Hfree & ->).
  rewrite (resolve_entry (fs w) (mirror_directory s) M _ HM (tmp_name_valid n)) in Hk.
  injection Hk as <-.
  set (Mt := M ++ [Utils.tmp_name n]) in *.
  set (d0 := <[Mt := IDir Stat.S_IRWXU]> (fs w)) in *.
  assert (Htd0 : real_dir_path d0 (OsPath.join (mirror_directory s) (Utils.tmp_name n)) Mt).
  { apply real_dir_path_entry; [by eapply real_dir_path_preserved|apply tmp_name_valid|].
    unfold d0. rewrite node_at_insert_ne by (unfold Mt; by destruct M).
    by rewrite decide_True. }
  assert (Hfree0 : node_at d0 (Mt ++ ["moveable"]) = None).
  { unfold d0. rewrite node_at_insert_ne by (unfold Mt; by destruct M).
    rewrite decide_False.
    - rewrite node_at_snoc. destruct (fs w !! (Mt ++ ["moveable"])) eqn:E; [|done].
      pose proof (Hwf Mt "moveable" (mk_is_Some _ _ E)) as Hd. by rewrite Hfree in Hd.
    - intros Heq. apply (f_equal length) in Heq. rewrite length_app in Heq.
      simpl in Heq. lia. }
  apply bind_inv_ok in Hbody as (targetdir & ws & Hscratch & Hbody).
  pose proof (scratch_copy_not_link s _ Mt
                {| self := s; fs := d0; warnings := warnings w |} _ _
                Htd0 Hfree0 Hscratch) as Hnl.
  apply scratch_copy_spec in Hscratch as [Hp Hs]. simpl in Hp, Hs.
  apply bind_inv_ok in Hbody as (sha & wg & Hg & Hbody).
  rewrite on_disk_query in Hg.
  destruct (_generate_ref s (fs ws) targetdir) as [e|sha'] eqn:Href; [discriminate|].
  injection Hg as <- <-.
  apply _generate_ref_hex in Href as [h ->].
  apply bind_inv_ok in Hbody as ([] & wp & Hpub & Hret).
  unfold ret in Hret. injection Hret as <- <-.
  assert (HMs : real_dir_path (fs ws) (mirror_directory s) M).
  { eapply real_dir_path_preserved; [|exact HM].
    eapply dirs_preserved_trans; [exact Hp0 | exact Hp]. }
  destruct (publish_spec _ _ _ _ _ _ HMs Hpub) as (HMp & _ & Hsp).
  destruct (publish_node _ _ _ _ _ _ HMs Hpub) as (nd & Hsrc & Hentry).
  destruct (cleanup_spec _ _ _ _ _ HMp Hclean) as (HM1 & Hkeep & Hs1).
  split; [|congruence].
  assert (Hl : lstat (fs w1) (OsPath.join (mirror_directory s) (Sha256.hexdigest h)) = Some nd).
  { unfold lstat. rewrite (resolve_entry _ _ M _ HM1 (hexdigest_valid h)). simpl.
    rewrite Hkeep by apply hexdigest_not_tmp. exact Hentry. }
  destruct (lstat_not_link_stat _ _ _ Hl (Hnl _ Hsrc)) as [Hst _].
  unfold Os.exists_. rewrite Hst. by apply bool_decide_eq_true_2.
Qed.

(** X7. After a [fetch] that returned, the source is cached: the
    consistency query on the world that [fetch] left answers [CACHED]
    (and changes nothing). *)
Theorem fetch_then_cached (w w1 : world) (M : cpath) :
  real_dir_path (fs w) (mirror_directory (self w)) M →
  well_formed (fs w) →
  fetch w = (inr tt, w1) →
  get_consistency w1 = (inr CACHED, w1).
Proof.
  intros HM Hwf. unfold fetch, bind at 1, get_self. intros H.
  apply bind_inv_ok in H as (sha256 & w2 & Hm & H).
  destruct (decide (Some sha256 ≠ ref (self w))) as [|Heq]; [discriminate|].
  unfold ret in H. injection H as <-.
  apply dec_stable in Heq.
  destruct (_ensure_mirror_entry _ _ _ _ HM Hwf Hm) as [Hex Hs].
  destruct (_ensure_mirror_publishes _ _ _ _ HM Hm) as (_ & HM2 & _ & _).
  apply (get_consistency_present _ M sha256); rewrite Hs; done.
Qed.

Lemma fetch_then_cached_witness :
  let w := Examples.world_of "files/sally"
             (Some "fc09e2c376889efdf4ddb400ea287e0191e1eb8e6d6f32b1bf9379df4a81be6b")
             Examples.project in
  get_consistency (fetch w).2 = (inr CACHED, (fetch w).2).
Proof.
  intros w.
  apply (fetch_then_cached w (fetch w).2 ["cache"; "project_ref"]).
  - apply real_dir_pathb_sound. vm_compute. reflexivity.
  - apply well_formedb_sound. vm_compute. reflexivity.
  - assert (H : (fetch w).1 = inr tt) by (vm_compute; reflexivity).
    rewrite <- H. apply surjective_pairing.
Defined.


Lemma track_inv w new_ref w1 :
  track w = (inr new_ref, w1) →
  ∃ w0, _ensure_mirror w = (inr new_ref, w0) ∧ fs w1 = fs w0 ∧ self w1 = self w0.
Proof.
  unfold track, bind at 1, get_self. intros H.
  apply bind_inv_ok in H as (r & w0 & Hm & H).
  apply bind_inv_ok in H as ([] & w2 & Hw & H).
  unfold ret in H. injection H as <- <-.
  exists w0. split; [done|].
  destruct (truthy (ref (self w)) && bool_decide (ref (self w) ≠ Some r)).
  - unfold warn in Hw. by injection Hw as <-.
  - unfold ret in Hw. by injection Hw as <-.
Qed.

(** X8. After [track] returned a new ref and [set_ref] stored it, the
    source is cached: [set_ref] changes the member [ref] of the node
    and no other, [get_ref] gives the new ref, loading the ref from the
    node gives the same source again, and the consistency query of a
    source that has loaded its ref from the node answers [CACHED]. *)
Theorem track_then_ref_is_cached (w w1 : world) (new_ref : string) (nd : node) (M : cpath) :
  real_dir_path (fs w) (mirror_directory (self w)) M →
  well_formed (fs w) →
  track w = (inr new_ref, w1) →
  let s' := (set_ref new_ref nd (self w1)).1 in
  let nd' := (set_ref new_ref nd (self w1)).2 in
  let w2 := {| self := load_ref nd' (self w1); fs := fs w1; warnings := warnings w1 |} in
  get_ref s' = Some new_ref
  ∧ load_ref nd' s' = s'
  ∧ (∀ key, key ≠ "ref" → nd' !! key = nd !! key)
  ∧ get_consistency w2 = (inr CACHED, w2).
Proof.
  intros HM Hwf H. apply track_inv in H as (w0 & Hm & Hfs & Hs).
  destruct (_ensure_mirror_entry _ _ _ _ HM Hwf Hm) as [Hex Hs0].
  cbn zeta. unfold set_ref, load_ref, get_ref. cbn [fst snd ref].
  rewrite lookup_insert, decide_True by done.
  split; [done|]. split; [done|]. split.
  { intros key Hk. by rewrite lookup_insert_ne. }
  destruct (_ensure_mirror_publishes _ _ _ _ HM Hm) as (_ & HM0 & _ & _).
  apply (get_consistency_present _ M new_ref); cbn [self fs ref mirror_directory];
    [|done|]; rewrite Hfs, Hs, Hs0; done.
Qed.

Lemma track_then_ref_is_cached_witness :
  let w := Examples.world_of "files/sally" None Examples.project in
  let new_ref := "fc09e2c376889efdf4ddb400ea287e0191e1eb8e6d6f32b1bf9379df4a81be6b" in
  let w1 := (track w).2 in
  let nd : node := {["path" := "files/sally"]} in
  let s' := (set_ref new_ref nd (self w1)).1 in
  let nd' := (set_ref new_ref nd (self w1)).2 in
  let w2 := {| self := load_ref nd' (self w1); fs := fs w1; warnings := warnings w1 |} in
  get_ref s' = Some new_ref
  ∧ load_ref nd' s' = s'
  ∧ (∀ key, key ≠ "ref" → nd' !! key = nd !! key)
  ∧ get_consistency w2 = (inr CACHED, w2).
Proof.
  intros w new_ref w1 nd.
  apply (track_then_ref_is_cached w w1 new_ref nd ["cache"; "project_ref"]).
  - apply real_dir_pathb_sound. vm_compute. reflexivity.
  - apply well_formedb_sound. vm_compute. reflexivity.
  - assert (H : (track w).1 = inr new_ref) by (vm_compute; reflexivity).
    rewrite <- H. apply surjective_pairing.
Defined.

(** ** What a mirror population moves into place *)

(** What [os.rename] makes of the disk when a tree is moved to an entry
    of the mirror directory. *)
Lemma rename_tree d M mirror_dir c src ksrc d' :
  real_dir_path d mirror_dir M → Utils.valid_name c = true →
  resolve d false src = Some ksrc → ksrc ≠ [] →
  ¬ ksrc `prefix_of` M ++ [c] → ¬ (M ++ [c]) `prefix_of` ksrc →
  Os.rename src (OsPath.join mirror_dir c) d = inr d' →
  ∀ k, node_at d' k =
         if decide ((M ++ [c]) `prefix_of` k)
         then node_at d (ksrc ++ drop (length (M ++ [c])) k)
         else if decide (ksrc `prefix_of` k) then None else node_at d k.
Proof.
  intros HM Hc Hsrc Hk0 Hnp Hnp'. unfold Os.rename.
  rewrite (resolve_entry d mirror_dir M c HM Hc), Hsrc.
  destruct (node_at d ksrc) as [n|] eqn:Hn; [|discriminate].
  rewrite decide_False by (intros ->; by apply Hnp).
  rewrite decide_False by (intros [?|?]; [done|by destruct M]).
  intros H.
  assert (Hmv : d' = move_tree ksrc (M ++ [c]) d).
  { destruct n as [m0 c0|t|m0].
    - destruct (node_at d (M ++ [c])) as [[]|]; first [discriminate H | by injection H as <-].
    - destruct (node_at d (M ++ [c])) as [[]|]; first [discriminate H | by injection H as <-].
    - rewrite decide_False in H by done.
      destruct (node_at d (M ++ [c])) as [[]|]; try discriminate H;
        try (by injection H as <-).
      destruct (dir_empty d (M ++ [c])); first [discriminate H | by injection H as <-]. }
  subst d'. intros k. destruct k as [|x k].
  { rewrite decide_False by (intros Hp; apply prefix_nil_inv in Hp; by destruct M).
    rewrite decide_False by (intros Hp; by apply prefix_nil_inv in Hp). done. }
  unfold node_at at 1. rewrite lookup_move_tree by done. unfold moved.
  repeat case_decide; try done.
  destruct (ksrc ++ drop (length (M ++ [c])) (x :: k)) eqn:E; [|done].
  apply app_eq_nil in E as [? _]. done.
Qed.

Lemma snoc_prefix_snoc (M : list string) (a b : string) (q : list string) :
  (M ++ [a]) `prefix_of` M ++ b :: q → a = b.
Proof.
  intros [r Hr]. rewrite <- !app_assoc in Hr. apply app_inv_head in Hr.
  simpl in Hr. by injection Hr as ->.
Qed.

(** What [publish] makes of the disk when [targetdir] is the directory
    [moveable] of the scratch directory. *)
Lemma publish_tree s td n h M w w1 :
  real_dir_path (fs w) (mirror_directory s) M →
  real_dir_path (fs w) td (M ++ [Utils.tmp_name n]) →
  publish s (OsPath.join td "moveable") (Sha256.hexdigest h) w = (inr tt, w1) →
  (∀ q, node_at (fs w1) ((M ++ [Sha256.hexdigest h]) ++ q)
        = node_at (fs w) ((M ++ [Utils.tmp_name n]) ++ ["moveable"] ++ q))
  ∧ (∀ k, ¬ (M ++ [Sha256.hexdigest h]) `prefix_of` k →
          ¬ (M ++ [Utils.tmp_name n]) `prefix_of` k →
          node_at (fs w1) k = node_at (fs w) k).
Proof.
  intros HM Htd. rewrite (publish_real _ _ _ _ _ HM).
  set (sha := Sha256.hexdigest h). set (Mt := M ++ [Utils.tmp_name n]) in *.
  intros H.
  apply bind_inv_ok in H as (present & w0 & Hq & H).
  rewrite on_disk_query_total in Hq. injection Hq as <- <-.
  apply bind_inv_ok in H as ([] & w2 & Hrm & H).
  assert (Hne : sha ≠ Utils.tmp_name n) by apply hexdigest_not_tmp.
  assert (Hv : Utils.valid_name "moveable" = true) by reflexivity.
  assert (H2 : ∀ k, node_at (fs w2) k = node_at (fs w) k
                    ∨ ((M ++ [sha]) `prefix_of` k ∧ node_at (fs w2) k = None)).
  { destruct (Os.exists_ (fs w) _).
    - apply on_disk_inv in Hrm as (Hrm & _ & _).
      unfold Utils._force_rmtree in Hrm. apply atomic_inv in Hrm.
      unfold Os.rmtree in Hrm.
      rewrite (resolve_entry (fs w) (mirror_directory s) M sha HM (hexdigest_valid h)) in Hrm.
      destruct (node_at (fs w) (M ++ [sha])) as [[]|]; try discriminate Hrm.
      injection Hrm as <-. intros k. rewrite node_at_remove_tree by (by destruct M).
      case_decide; auto.
    - unfold ret in Hrm. injection Hrm as <-. auto. }
  assert (Hout : ∀ k, ¬ (M ++ [sha]) `prefix_of` k → node_at (fs w2) k = node_at (fs w) k).
  { intros k Hk. destruct (H2 k) as [?|[? _]]; done. }
  assert (HM2 : real_dir_path (fs w2) (mirror_directory s) M).
  { eapply real_dir_path_frame; [|exact HM]. intros i Hi. apply Hout.
    intros Hp. apply prefix_take_length in Hp; [done|lia]. }
  assert (Htd2 : real_dir_path (fs w2) td Mt).
  { eapply real_dir_path_frame; [|exact Htd]. intros i Hi. apply Hout.
    intros Hp. unfold Mt in Hp.
    destruct (decide (i ≤ length M)%nat) as [Hle|Hgt].
    - rewrite take_app_le in Hp by done.
      apply prefix_take_length in Hp; [done|done].
    - rewrite take_ge in Hp by (rewrite length_app; simpl; lia).
      by apply (snoc_prefix_snoc M sha (Utils.tmp_name n) []) in Hp. }
  apply on_disk_inv in H as (H & _ & _). apply atomic_inv in H.
  pose proof (resolve_entry _ _ _ _ Htd2 Hv) as Hsrc.
  assert (Hnp1 : ¬ (Mt ++ ["moveable"]) `prefix_of` M ++ [sha]).
  { intros Hp. apply prefix_length in Hp. unfold Mt in Hp.
    rewrite !length_app in Hp. simpl in Hp. lia. }
  assert (Hnp2 : ¬ (M ++ [sha]) `prefix_of` Mt ++ ["moveable"]).
  { intros Hp. unfold Mt in Hp. rewrite <- app_assoc in Hp.
    by apply (snoc_prefix_snoc M sha (Utils.tmp_name n) ["moveable"]) in Hp. }
  pose proof (rename_tree _ _ _ _ _ _ _ HM2 (hexdigest_valid h) Hsrc
                ltac:(by destruct Mt) Hnp1 Hnp2 H) as Hmv.
  split.
  - intros q. rewrite Hmv. rewrite decide_True by (by apply prefix_app_r).
    rewrite drop_app_length. rewrite <- app_assoc. apply Hout.
    intros Hp. unfold Mt in Hp. rewrite <- app_assoc in Hp.
    by apply (snoc_prefix_snoc M sha (Utils.tmp_name n) (["moveable"] ++ q)) in Hp.
  - intros k Hk1 Hk2. rewrite Hmv. rewrite decide_False by done.
    rewrite decide_False; [by apply Hout|].
    intros Hp. apply Hk2. etransitivity; [|exact Hp]. by apply prefix_app_r.
Qed.

Lemma cleanup_frame (mirror_dir : string) M n wb w1 :
  real_dir_path (fs wb) mirror_dir M →
  (isd <- on_disk (query_total (fun d => Os.isdir d (OsPath.join mirror_dir (Utils.tmp_name n))));;
   if (isd : bool)
   then on_disk (Utils._force_rmtree (OsPath.join mirror_dir (Utils.tmp_name n)))
   else ret tt) wb = (inr tt, w1) →
  ∀ k, ¬ (M ++ [Utils.tmp_name n]) `prefix_of` k → node_at (fs w1) k = node_at (fs wb) k.
Proof.
  intros HM H. apply bind_inv_ok in H as (isd & w0 & Hq & H).
  rewrite on_disk_query_total in Hq. injection Hq as <- <-.
  destruct (Os.isdir (fs wb) _).
  - apply on_disk_inv in H as (H & _ & _).
    unfold Utils._force_rmtree in H. apply atomic_inv in H.
    unfold Os.rmtree in H.
    rewrite (resolve_entry _ mirror_dir M _ HM (tmp_name_valid n)) in H.
    destruct (node_at (fs wb) (M ++ [Utils.tmp_name n])) as [[]|]; try discriminate H.
    injection H as <-. intros k Hk.
    rewrite node_at_remove_tree by (by destruct M). by rewrite decide_False.
  - unfold ret in H. by injection H as <-.
Qed.

Lemma prefix_snoc_inv (k M : list string) (c : string) :
  k `prefix_of` M ++ [c] → k = M ++ [c] ∨ k `prefix_of` M.
Proof.
  intros [q Hq]. destruct q as [|x q _] using rev_ind.
  - left. by rewrite app_nil_r in Hq.
  - right. rewrite app_assoc in Hq. apply app_inj_tail in Hq as [-> _].
    by apply prefix_app_r.
Qed.

(** ** What a mirror population changes *)

Lemma well_formed_below d k :
  well_formed d → k ≠ [] → node_at d k = None → ∀ q, node_at d (k ++ q) = None.
Proof.
  intros Hwf Hk0 Hk q. induction q as [|c q IH] using rev_ind.
  - by rewrite app_nil_r.
  - rewrite app_assoc, node_at_snoc.
    destruct (d !! ((k ++ q) ++ [c])) eqn:E; [|done].
    pose proof (Hwf (k ++ q) c (mk_is_Some _ _ E)) as Hd. by rewrite IH in Hd.
Qed.

(** The scratch copy of a directory changes the disk at [targetdir]
    and below it only. *)
Lemma scratch_copy_dir_frame s td Mt w targetdir w1 :
  Os.isdir (fs w) (fullpath s) = true →
  real_dir_path (fs w) td Mt → node_at (fs w) (Mt ++ ["moveable"]) = None →
  scratch_copy s td w = (inr targetdir, w1) →
  targetdir = OsPath.join td "moveable"
  ∧ changes_below (Mt ++ ["moveable"]) (fs w) (fs w1).
Proof.
  intros Hd Htd Hfree. unfold scratch_copy. intros H.
  assert (Hv : Utils.valid_name "moveable" = true) by reflexivity.
  apply bind_inv_ok in H as (isd & w0 & Hq & H).
  rewrite on_disk_query_total in Hq. injection Hq as <- <-.
  rewrite Hd in H.
  apply bind_inv_ok in H as ([] & w2 & Hc & H).
  unfold ret in H. injection H as <- <-. split; [done|].
  apply on_disk_inv in Hc as (Hc & _ & _).
  unfold Utils.copy_files in Hc.
  destruct (resolve (fs w) true (fullpath s)) as [Sk|]; [|discriminate].
  pose proof (resolve_entry _ _ _ _ Htd Hv) as HD.
  rewrite (resolve_nofollow_follow _ _ _ HD) in Hc by (by rewrite Hfree).
  revert Hc. apply (for_each_invariant (changes_below (Mt ++ ["moveable"]) (fs w))).
  - intros f da db Ha Hb.
    apply copy_member_spec in Hb as (_ & Hb & _); [|by destruct Mt].
    by eapply changes_below_trans.
  - apply changes_below_refl.
Qed.

(** The disk that [publish] leaves when [targetdir] is the directory
    [moveable] of the scratch directory. *)
Lemma publish_disk s td n h M w w1 :
  real_dir_path (fs w) (mirror_directory s) M →
  real_dir_path (fs w) td (M ++ [Utils.tmp_name n]) →
  publish s (OsPath.join td "moveable") (Sha256.hexdigest h) w = (inr tt, w1) →
  ∀ k, ¬ (M ++ [Sha256.hexdigest h]) `prefix_of` k →
       node_at (fs w1) k =
         if decide (((M ++ [Utils.tmp_name n]) ++ ["moveable"]) `prefix_of` k)
         then None else node_at (fs w) k.
Proof.
  intros HM Htd. rewrite (publish_real _ _ _ _ _ HM).
  set (sha := Sha256.hexdigest h). set (Mt := M ++ [Utils.tmp_name n]) in *.
  intros H.
  apply bind_inv_ok in H as (present & w0 & Hq & H).
  rewrite on_disk_query_total in Hq. injection Hq as <- <-.
  apply bind_inv_ok in H as ([] & w2 & Hrm & H).
  assert (Hne : sha ≠ Utils.tmp_name n) by apply hexdigest_not_tmp.
  assert (Hv : Utils.valid_name "moveable" = true) by reflexivity.
  assert (Hout : ∀ k, ¬ (M ++ [sha]) `prefix_of` k → node_at (fs w2) k = node_at (fs w) k).
  { destruct (Os.exists_ (fs w) _).
    - apply on_disk_inv in Hrm as (Hrm & _ & _).
      unfold Utils._force_rmtree in Hrm. apply atomic_inv in Hrm.
      unfold Os.rmtree in Hrm.
      rewrite (resolve_entry (fs w) (mirror_directory s) M sha HM (hexdigest_valid h)) in Hrm.
      destruct (node_at (fs w) (M ++ [sha])) as [[]|]; try discriminate Hrm.
      injection Hrm as <-. intros k Hk. rewrite node_at_remove_tree by (by destruct M).
      by rewrite decide_False.
    - unfold ret in Hrm. injection Hrm as <-. auto. }
  assert (HM2 : real_dir_path (fs w2) (mirror_directory s) M).
  { eapply real_dir_path_frame; [|exact HM]. intros i Hi. apply Hout.
    intros Hp. apply prefix_take_length in Hp; [done|lia]. }
  assert (Htd2 : real_dir_path (fs w2) td Mt).
  { eapply real_dir_path_frame; [|exact Htd]. intros i Hi. apply Hout.
    intros Hp. unfold Mt in Hp.
    destruct (decide (i ≤ length M)%nat) as [Hle|Hgt].
    - rewrite take_app_le in Hp by done.
      apply prefix_take_length in Hp; [done|done].
    - rewrite take_ge in Hp by (rewrite length_app; simpl; lia).
      by apply (snoc_prefix_snoc M sha (Utils.tmp_name n) []) in Hp. }
  apply on_disk_inv in H as (H & _ & _). apply atomic_inv in H.
  pose proof (resolve_entry _ _ _ _ Htd2 Hv) as Hsrc.
  assert (Hnp1 : ¬ (Mt ++ ["moveable"]) `prefix_of` M ++ [sha]).
  { intros Hp. apply prefix_length in Hp. unfold Mt in Hp.
    rewrite !length_app in Hp. simpl in Hp. lia. }
  assert (Hnp2 : ¬ (M ++ [sha]) `prefix_of` Mt ++ ["moveable"]).
  { intros Hp. unfold Mt in Hp. rewrite <- app_assoc in Hp.
    by apply (snoc_prefix_snoc M sha (Utils.tmp_name n) ["moveable"]) in Hp. }
  pose proof (rename_tree _ _ _ _ _ _ _ HM2 (hexdigest_valid h) Hsrc
                ltac:(by destruct Mt) Hnp1 Hnp2 H) as Hmv.
  intros k Hk. rewrite Hmv, decide_False by done.
  case_decide; [done|]. by apply Hout.
Qed.

(** X11. The mirror population of a directory subject changes the disk at
    the entry named by the digest and below it, and nowhere else: the
    subject, the rest of the project and the other entries of the mirror
    directory are as they were, and no scratch directory is left
    behind.  The source object is as it was. *)
Theorem mirror_population_changes_the_entry_only
    (w w1 : world) (sha256 : string) (M : cpath) :
  real_dir_path (fs w) (mirror_directory (self w)) M →
  well_formed (fs w) →
  Os.isdir (fs w) (fullpath (self w)) = true →
  _ensure_mirror w = (inr sha256, w1) →
  (∀ k, ¬ (M ++ [sha256]) `prefix_of` k → node_at (fs w1) k = node_at (fs w) k)
  ∧ self w1 = self w.
Proof.
  intros HM Hwf Hisd Hrun.
  split; [|by destruct (_ensure_mirror_publishes _ _ _ _ HM Hrun) as (_ & _ & ? & _)].
  revert Hrun. unfold _ensure_mirror, bind at 1, get_self.
  rewrite (tempdir_real _ _ _ _ HM). unfold _tempdir.
  set (s := self w) in *.
  destruct (Utils.mkdtemp (mirror_directory s) (fs w)) as [[e|td] d0] eqn:Htd;
    [discriminate|].
  intros H. apply finally_inv_ok in H as (wb & Hbody & Hclean).
  apply mkdtemp_go_inv in Htd as (n & -> & Hmk).
  pose proof (mkdir_dirs_preserved _ _ _ _ Hmk) as Hp0.
  apply mkdir_inv in Hmk as (k & Hk & Hfree & ->).
  rewrite (resolve_entry (fs w) (mirror_directory s) M _ HM (tmp_name_valid n)) in Hk.
  injection Hk as <-.
  set (Mt := M ++ [Utils.tmp_name n]) in *.
  set (d0 := <[Mt := IDir Stat.S_IRWXU]> (fs w)) in *.
  assert (HMt0 : Mt ≠ []) by (unfold Mt; by destruct M).
  pose proof (well_formed_below _ _ Hwf HMt0 Hfree) as Hbelow.
  assert (Htd0 : real_dir_path d0 (OsPath.join (mirror_directory s) (Utils.tmp_name n)) Mt).
  { apply real_dir_path_entry; [by eapply real_dir_path_preserved|apply tmp_name_valid|].
    unfold d0. rewrite node_at_insert_ne by done. by rewrite decide_True. }
  assert (Hfree0 : node_at d0 (Mt ++ ["moveable"]) = None).
  { unfold d0. rewrite node_at_insert_ne by done.
    rewrite decide_False; [apply Hbelow|].
    intros Heq. apply (f_equal length) in Heq. rewrite length_app in Heq.
    simpl in Heq. lia. }
  assert (Hisd0 : Os.isdir d0 (fullpath s) = true).
  { apply isdir_inv in Hisd as (Sk & m & HS & HSn).
    unfold Os.isdir. unfold d0.
    rewrite (stat_insert_missing _ _ _ _ (IDir m) HMt0 Hfree); [done|].
    unfold stat. by rewrite HS. }
  apply bind_inv_ok in Hbody as (targetdir & ws & Hscratch & Hbody).
  pose proof (scratch_copy_spec _ _ _ _ _ Hscratch) as [Hpres _]. simpl in Hpres.
  destruct (scratch_copy_dir_frame s _ Mt
              {| self := s; fs := d0; warnings := warnings w |} _ _
              Hisd0 Htd0 Hfree0 Hscratch) as (-> & Hcopy).
  cbn [fs] in Hcopy.
  apply bind_inv_ok in Hbody as (sha & wg & Hg & Hbody).
  rewrite on_disk_query in Hg.
  destruct (_generate_ref s (fs ws) _) as [e|sha'] eqn:Href; [discriminate|].
  injection Hg as <- <-.
  apply _generate_ref_hex in Href as [h ->].
  apply bind_inv_ok in Hbody as ([] & wp & Hpub & Hret).
  unfold ret in Hret. injection Hret as <- <-.
  assert (HMs : real_dir_path (fs ws) (mirror_directory s) M).
  { eapply real_dir_path_preserved; [|exact HM].
    eapply dirs_preserved_trans; [exact Hp0 | exact Hpres]. }
  assert (Htds : real_dir_path (fs ws) (OsPath.join (mirror_directory s) (Utils.tmp_name n)) Mt)
    by (by eapply real_dir_path_preserved).
  destruct (publish_spec _ _ _ _ _ _ HMs Hpub) as (HMp & _ & _).
  pose proof (publish_disk _ _ _ _ _ _ _ HMs Htds Hpub) as Hpd. fold Mt in Hpd.
  assert (Hne : Sha256.hexdigest h ≠ Utils.tmp_name n) by apply hexdigest_not_tmp.
  assert (HEMt : ∀ i, ¬ (M ++ [Sha256.hexdigest h]) `prefix_of` take i Mt).
  { intros i Hp. unfold Mt in Hp.
    destruct (decide (i ≤ length M)%nat) as [Hle|Hgt].
    - rewrite take_app_le in Hp by done. apply prefix_take_length in Hp; [done|done].
    - rewrite take_ge in Hp by (rewrite length_app; simpl; lia).
      by apply (snoc_prefix_snoc M _ (Utils.tmp_name n) []) in Hp. }
  assert (Htdp : real_dir_path (fs wp) (OsPath.join (mirror_directory s) (Utils.tmp_name n)) Mt).
  { eapply real_dir_path_frame; [|exact Htds]. intros i Hi.
    rewrite Hpd by apply HEMt. rewrite decide_False; [done|].
    intros Hp. apply prefix_length in Hp. rewrite length_app, length_take in Hp.
    simpl in Hp. lia. }
  (* the scratch directory is removed *)
  assert (Hcl : ∀ k, node_at (fs w1) k
                     = if decide (Mt `prefix_of` k) then None else node_at (fs wp) k).
  { revert Hclean. intros H. apply bind_inv_ok in H as (isd & w0 & Hq & H).
    rewrite on_disk_query_total in Hq. injection Hq as <- <-.
    rewrite (isdir_real_dir _ _ _ Htdp) in H.
    apply on_disk_inv in H as (H & _ & _).
    unfold Utils._force_rmtree in H. apply atomic_inv in H.
    unfold Os.rmtree in H. rewrite (resolve_real_dir _ _ _ false Htdp) in H.
    pose proof (real_dir_path_is_dir _ _ _ Htdp) as Hd.
    destruct (node_at (fs wp) Mt) as [[]|]; try discriminate Hd.
    injection H as <-. intros k. by apply node_at_remove_tree. }
  intros k Hk. rewrite Hcl. case_decide as Hp.
  - destruct Hp as [q ->]. by rewrite Hbelow.
  - rewrite Hpd by done. rewrite decide_False.
    2:{ intros Hp'. apply Hp. etransitivity; [|exact Hp']. by apply prefix_app_r. }
    rewrite Hcopy.
    2:{ intros Hp'. apply Hp. etransitivity; [|exact Hp']. by apply prefix_app_r. }
    unfold d0. rewrite node_at_insert_ne by done.
    rewrite decide_False; [done|]. intros ->. by apply Hp.
Qed.

Lemma mirror_population_changes_the_entry_only_witness :
  let w := Examples.world_of "files/sally" None Examples.project in
  let sha256 := "fc09e2c376889efdf4ddb400ea287e0191e1eb8e6d6f32b1bf9379df4a81be6b" in
  let w1 := (_ensure_mirror w).2 in
  (∀ k, ¬ (["cache"; "project_ref"] ++ [sha256]) `prefix_of` k →
        node_at (fs w1) k = node_at (fs w) k)
  ∧ self w1 = self w.
Proof.
  intros w sha256 w1.
  apply (mirror_population_changes_the_entry_only w w1 sha256 ["cache"; "project_ref"]).
  - apply real_dir_pathb_sound. vm_compute. reflexivity.
  - apply well_formedb_sound. vm_compute. reflexivity.
  - vm_compute. reflexivity.
  - assert (H : (_ensure_mirror w).1 = inr sha256) by (vm_compute; reflexivity).
    rewrite <- H. apply surjective_pairing.
Defined.


(** ** What staging changes *)

Lemma stays_below_refl Dk d : stays_below Dk d d.
Proof. split; [apply changes_below_refl|apply dirs_preserved_refl]. Qed.

Lemma stays_below_trans Dk d1 d2 d3 :
  stays_below Dk d1 d2 → stays_below Dk d2 d3 → stays_below Dk d1 d3.
Proof.
  intros [? ?] [? ?]. split;
    [by eapply changes_below_trans|by eapply dirs_preserved_trans].
Qed.

Lemma stays_below_insert Dk d k v :
  Dk `prefix_of` k → (is_dir (node_at d k) = true → is_dir (Some v) = true) →
  stays_below Dk d (<[k := v]> d).
Proof.
  intros Hp Hd. split; [|by apply insert_dirs_preserved].
  intros k' Hk'. rewrite node_at_insert. case_decide; [by subst|].
  rewrite decide_False; [done|]. by intros ->.
Qed.

Lemma stays_below_delete Dk d k :
  k ≠ [] → Dk `prefix_of` k → is_dir (node_at d k) = false →
  stays_below Dk d (delete k d).
Proof.
  intros Hk Hp Hd. split.
  - intros k' Hk'. rewrite node_at_delete by done.
    rewrite decide_False; [done|]. by intros ->.
  - intros k' Hk'. rewrite node_at_delete by done.
    rewrite decide_False; [done|]. intros ->. congruence.
Qed.

Lemma bind_rel {X Y : Type} (R : disk → disk → Prop) (m : SE disk X) (f : X → SE disk Y)
    d r d' :
  (∀ d1 d2 d3, R d1 d2 → R d2 d3 → R d1 d3) →
  (∀ ra d1, m d = (ra, d1) → R d d1) →
  (∀ a d1, m d = (inr a, d1) → f a d1 = (r, d') → R d1 d') →
  bind m f d = (r, d') → R d d'.
Proof.
  intros Ht Hm Hf. unfold bind. destruct (m d) as [[e|a] d1] eqn:E.
  - intros [= <- <-]. by eapply Hm.
  - intros H. eapply Ht; [by eapply Hm|by eapply Hf].
Qed.

(** A loop whose steps keep to [R], under a condition [P] that [R]
    keeps. *)
Lemma for_each_rel {X : Type} (R : disk → disk → Prop) (P : disk → Prop)
    (body : X → SE disk unit) (l : list X) :
  (∀ d, R d d) → (∀ d1 d2 d3, R d1 d2 → R d2 d3 → R d1 d3) →
  (∀ d d', P d → R d d' → P d') →
  (∀ x d r d', x ∈ l → P d → body x d = (r, d') → R d d') →
  ∀ d r d', P d → for_each l body d = (r, d') → R d d'.
Proof.
  intros Hr Ht HP Hb.
  induction l as [|x l IH]; intros d r d' Hd H.
  - unfold for_each, ret in H. injection H as <- <-. apply Hr.
  - simpl in H. revert H. apply bind_rel; [done|..].
    + intros ra d1 H1. eapply Hb; [by left|done|exact H1].
    + intros [] d1 H1 H2. eapply IH; [| |exact H2].
      * intros y da rb db Hy. apply Hb. by right.
      * eapply HP; [exact Hd|]. eapply Hb; [by left|done|exact H1].
Qed.

Lemma atomic_rel (R : disk → disk → Prop) (op : disk → exn + disk) d r d' :
  R d d → (∀ d2, op d = inr d2 → R d d2) → atomic op d = (r, d') → R d d'.
Proof.
  intros Hr Hop. unfold atomic. destruct (op d) as [e|d2] eqn:E; intros [= <- <-]; auto.
Qed.

(** Copying a member changes the disk below the destination only. *)
Lemma copy_member_rel Sk Dk f d r d' :
  Utils.copy_member Sk Dk f d = (r, d') → stays_below Dk d d'.
Proof.
  unfold Utils.copy_member.
  destruct (bool_decide (".." ∈ Utils.rel_comps f)).
  { unfold raise. intros [= <- <-]. apply stays_below_refl. }
  apply bind_rel; [apply stays_below_trans|..].
  { unfold query_total. intros ra d1 [= <- <-]. apply stays_below_refl. }
  intros src d1. unfold query_total. intros [= <- <-].
  destruct (node_at d (Sk ++ Utils.rel_comps f)) as [n|].
  2:{ unfold raise. intros [= <- <-]. apply stays_below_refl. }
  apply bind_rel; [apply stays_below_trans|..].
  - intros ra d1. apply (for_each_rel (stays_below Dk) (fun _ => True));
      [apply stays_below_refl|apply stays_below_trans|done| |done].
    intros p da rb db _ _. unfold Utils.ensure_dir.
    apply atomic_rel; [apply stays_below_refl|].
    intros d2. destruct (node_at da (Dk ++ p)) as [[]|] eqn:E; intros [= <-].
    + apply stays_below_refl.
    + apply stays_below_insert; [by apply prefix_app_r|by rewrite E].
  - intros [] d1 _. apply atomic_rel; [apply stays_below_refl|].
    intros d2 H.
    destruct n, (node_at d1 (Dk ++ Utils.rel_comps f)) as [[]|] eqn:E;
      first [discriminate H | injection H as <-];
      (apply stays_below_insert; [by apply prefix_app_r|by rewrite E]).
Qed.

Lemma copy_files_rel src dest files Dk d r d' :
  resolve d true dest = Some Dk →
  Utils.copy_files src dest files d = (r, d') → stays_below Dk d d'.
Proof.
  intros HD. unfold Utils.copy_files. rewrite HD.
  destruct (resolve d true src) as [Sk|].
  2:{ intros [= <- <-]. apply stays_below_refl. }
  apply (for_each_rel (stays_below Dk) (fun _ => True));
    [apply stays_below_refl|apply stays_below_trans|done| |done].
  intros f da rb db _ _. apply copy_member_rel.
Qed.

Lemma take_while_forallb {X : Type} (f : X → bool) (l : list X) :
  forallb f (OsPath.take_while f l) = true.
Proof.
  induction l as [|x l IH]; [done|]. simpl. destruct (f x) eqn:E; [|done].
  simpl. by rewrite E.
Qed.

Lemma basename_no_sep p : no_sep (OsPath.basename p).
Proof.
  unfold no_sep, OsPath.basename, OsPath.split. simpl.
  rewrite list_ascii_of_string_of_list_ascii.
  apply forallb_forall. intros x Hx. apply in_rev in Hx.
  pose proof (take_while_forallb (fun c => negb (OsPath.is_sep c))
                (rev (list_ascii_of_string p))) as H.
  rewrite forallb_forall in H. by apply H.
Qed.

Lemma no_sep_cases b :
  no_sep b → b = "" ∨ b = "." ∨ b = ".." ∨ Utils.valid_name b = true.
Proof.
  intros H. destruct (decide (b = "")); [by left|].
  destruct (decide (b = ".")); [by right; left|].
  destruct (decide (b = "..")); [by right; right; left|].
  right. right. right. by apply valid_name_iff.
Qed.

(** A directory, its parent and itself again: what [p/], [p/.] and [p/..]
    lead to. *)
Lemma resolve_special d p k follow b :
  real_dir_path d p k → b = "" ∨ b = "." ∨ b = ".." →
  ∃ k', resolve d follow (OsPath.join p b) = Some k' ∧ is_dir (node_at d k') = true.
Proof.
  intros HS Hb. pose proof (real_dir_path_is_dir _ _ _ HS) as Hdir.
  destruct HS as (Hne & <- & Hvk & Hdk).
  assert (Hs : OsPath.startswith_sep b = false) by (by destruct Hb as [->|[->| ->]]).
  assert (Hsp : OsPath.split_sep b = [b]) by (by destruct Hb as [->|[->| ->]]).
  unfold resolve. rewrite decide_False by (by apply join_ne).
  destruct (split_sep_join p b Hne Hs) as (X & -> & HX). rewrite Hsp.
  rewrite walk_dirs by (by rewrite HX). rewrite HX. simpl app.
  rewrite walk_cons. destruct Hb as [->|[->| ->]].
  - rewrite decide_True by tauto. rewrite walk_nil. eauto.
  - rewrite decide_True by tauto. rewrite walk_nil. eauto.
  - rewrite decide_False by (intros [|]; done). rewrite decide_True by done.
    rewrite walk_nil. eexists. split; [done|].
    destruct (Utils.rel_comps p) as [|c k0 _] using rev_ind; [done|].
    rewrite removelast_last.
    destruct k0 as [|c0 k0]; [done|].
    specialize (Hdk (length (c0 :: k0))). rewrite take_app_length in Hdk.
    apply Hdk. rewrite length_app. simpl. lia.
Qed.

(** [safe_copy] to an entry of a directory changes that entry only;
    the entry has the name of a file when the copy is made. *)
Lemma safe_copy_rel d directory Dk b src r d' :
  real_dir_path d directory Dk → no_sep b →
  Utils.safe_copy src (OsPath.join directory b) d = (r, d') →
  stays_below Dk d d' ∧ (r = inr tt → Utils.valid_name b = true).
Proof.
  intros HD Hb. unfold Utils.safe_copy.
  destruct (no_sep_cases b Hb) as [Hsp|[Hsp|[Hsp|Hv]]].
  1-3: destruct (resolve_special d directory Dk false b HD ltac:(tauto)) as (k' & Hr & Hk');
    unfold bind, Utils.unlink_if_exists, Os.unlink; rewrite Hr;
    destruct (node_at d k') as [[]|]; try discriminate Hk';
    intros [= <- <-]; (split; [apply stays_below_refl|done]).
  pose proof (resolve_entry _ _ _ _ HD Hv) as Hr.
  intros H. split; [|done]. revert H.
  apply bind_rel; [apply stays_below_trans|..].
  - intros ra d1. unfold Utils.unlink_if_exists, Os.unlink. rewrite Hr.
    destruct (node_at d (Dk ++ [b])) as [[]|] eqn:E; intros [= <- <-];
      try apply stays_below_refl;
      (apply stays_below_delete; [by destruct Dk|by apply prefix_app_r|by rewrite E]).
  - intros [] du Hu. apply atomic_rel; [apply stays_below_refl|].
    intros d2 Hc. apply copyfile_inv in Hc as (m & c & k & _ & Hk & ->).
    destruct (free_after_unlink _ _ _ _ Hu Hk) as [Hkf Hnone].
    assert (HDu : real_dir_path du directory Dk).
    { eapply real_dir_path_preserved; [|exact HD].
      revert Hu. unfold Utils.unlink_if_exists, Os.unlink. rewrite Hr.
      destruct (node_at d (Dk ++ [b])) as [[]|] eqn:E; intros [= <-];
        try apply dirs_preserved_refl;
        (apply (stays_below_delete Dk);
           [by destruct Dk|by apply prefix_app_r|by rewrite E]). }
    rewrite (resolve_entry _ _ _ _ HDu Hv) in Hkf. injection Hkf as <-.
    apply stays_below_insert; [by apply prefix_app_r|by rewrite Hnone].
Qed.

(** The copy that [stage] makes changes the disk below the destination
    only, whether it succeeds or not. *)
Lemma stage_copy_rel directory w r w1 Dk :
  real_dir_path (fs w) directory Dk →
  stage_copy directory w = (r, w1) →
  stays_below Dk (fs w) (fs w1) ∧ self w1 = self w ∧ warnings w1 = warnings w
  ∧ (Os.isdir (fs w) (fullpath (self w)) = false →
     ∀ files, r = inr files →
       files = [OsPath.basename (path (self w))]
       ∧ Utils.valid_name (OsPath.basename (path (self w))) = true).
Proof.
  intros HD. unfold stage_copy, bind at 1, get_self.
  rewrite (bind_ok _ _ _ _ _ (on_disk_query_total _ w)).
  destruct (Os.isdir (fs w) (fullpath (self w))) eqn:Hisd.
  - rewrite (bind_ok _ _ _ _ _ (on_disk_query_total _ w)).
    unfold bind.
    destruct (on_disk (Utils.copy_files _ _ _) w) as [[e|[]] w2] eqn:Hc;
      intros [= <- <-]; apply on_disk_inv in Hc as (Hc & ? & ?);
      (split; [|done]);
      apply (copy_files_rel _ _ _ Dk) in Hc; try done;
      by apply resolve_real_dir.
  - unfold bind.
    destruct (on_disk (Utils.safe_copy _ _) w) as [[e|[]] w2] eqn:Hc;
      intros [= <- <-]; apply on_disk_inv in Hc as (Hc & ? & ?);
      apply (safe_copy_rel _ _ Dk) in Hc as [Hc Hv];
      try done; try apply basename_no_sep.
    split; [done|]. split; [done|]. split; [done|].
    intros _ files [= <-]. split; [done|]. by apply Hv.
Qed.


Lemma dirs_below_preserved d d' k r :
  dirs_preserved d d' → dirs_below d k r → dirs_below d' k r.
Proof. intros Hp H i Hi. apply Hp, H, Hi. Qed.

Lemma staged_name_preserved d d' Dk f :
  dirs_preserved d d' → staged_name d Dk f → staged_name d' Dk f.
Proof.
  intros Hp [->|(r & c & -> & Hv & Hb)]; [by left|].
  right. exists r, c. split; [done|]. split; [done|]. by eapply dirs_below_preserved.
Qed.

Lemma join_all_real d l :
  ∀ p k, real_dir_path d p k →
    Forall (fun c => Utils.valid_name c = true) l → dirs_below d k l →
    real_dir_path d (OsPath.join_all p l) (k ++ l).
Proof.
  induction l as [|c l IH]; intros p k Hp Hv Hb.
  - by rewrite app_nil_r.
  - inversion Hv as [|? ? Hc Hl]; subst.
    apply dirs_below_cons in Hb as [Hd Hb].
    change (OsPath.join_all p (c :: l)) with (OsPath.join_all (OsPath.join p c) l).
    rewrite (cons_middle c k l), app_assoc. apply IH; [|done|done].
    by apply real_dir_path_entry.
Qed.

Lemma chmod_rel Dk p m d d' k :
  Os.chmod p m d = inr d' → resolve d true p = Some k → Dk `prefix_of` k →
  stays_below Dk d d'.
Proof.
  intros H Hr Hp. apply chmod_inv in H as (k' & n & Hr' & Hn & ->).
  rewrite Hr in Hr'. injection Hr' as <-.
  apply stays_below_insert; [done|]. rewrite Hn. by destruct n.
Qed.

Lemma stage_chmod_dir_rel directory Dk r c i d res d' :
  real_dir_path d directory Dk →
  Forall (fun c => Utils.valid_name c = true) (r ++ [c]) → dirs_below d Dk r →
  (1 ≤ i ≤ length r)%nat →
  stage_chmod_dir directory (r ++ [c]) i d = (res, d') → stays_below Dk d d'.
Proof.
  intros HD Hv Hb Hi. unfold stage_chmod_dir.
  rewrite take_app_le by lia.
  assert (Hreal : real_dir_path d (OsPath.join_all directory (take i r)) (Dk ++ take i r)).
  { apply join_all_real; [done| |].
    - apply Forall_take. by apply Forall_app in Hv as [? _].
    - intros j Hj. rewrite length_take in Hj. rewrite take_take.
      replace (j `min` i) with j by lia. apply Hb. lia. }
  unfold bind, query_total, assert_.
  destruct (Os.isdir d _ && negb (Os.islink d _)).
  - unfold ret. apply atomic_rel; [apply stays_below_refl|].
    intros d2 H. eapply chmod_rel; [exact H|by apply resolve_real_dir|by apply prefix_app_r].
  - unfold raise. intros [= <- <-]. apply stays_below_refl.
Qed.

Lemma stage_chmod_leaf_rel Dk p k d res d' :
  resolve d false p = Some k → Dk `prefix_of` k →
  (lnk <- query_total (fun dk => Os.islink dk p);;
   if (lnk : bool) then ret tt
   else
     isd <- query_total (fun dk => Os.isdir dk p);;
     if (isd : bool) then atomic (Os.chmod p rwxr_xr_x)
     else
       st <- query (fun dk => match stat dk p with
                              | Some n => inr n
                              | None => inl FileNotFoundError
                              end);;
       let st_mode := match st with IFile m _ | IDir m => m | ILink _ => 0%Z end in
       if decide (Z.land st_mode Stat.S_IXUSR ≠ 0%Z)
       then atomic (Os.chmod p rwxr_xr_x)
       else atomic (Os.chmod p rw_r__r__)) d = (res, d') →
  stays_below Dk d d'.
Proof.
  intros Hr Hp. unfold bind at 1, query_total.
  destruct (Os.islink d p) eqn:Hl.
  { unfold ret. intros [= <- <-]. apply stays_below_refl. }
  assert (Hrt : resolve d true p = Some k) by (by rewrite <- (not_islink_resolve d p Hl)).
  unfold bind at 1. destruct (Os.isdir d p).
  { apply atomic_rel; [apply stays_below_refl|]. intros d2 H. by eapply chmod_rel. }
  unfold bind, query. destruct (stat d p) as [n|].
  2:{ intros [= <- <-]. apply stays_below_refl. }
  cbv zeta. case_decide as Hx.
  - apply atomic_rel; [apply stays_below_refl|]. intros d2 Hc. by eapply chmod_rel.
  - apply atomic_rel; [apply stays_below_refl|]. intros d2 Hc. by eapply chmod_rel.
Qed.

Lemma valid_names_no_sep (l : list string) :
  Forall (fun c => Utils.valid_name c = true) l → Forall no_sep l.
Proof.
  intros H. eapply Forall_impl; [exact H|].
  intros c Hc. by apply valid_name_iff in Hc as [_ ?].
Qed.

Lemma stage_chmod_one_rel directory Dk f d res d' :
  real_dir_path d directory Dk → staged_name d Dk f →
  stage_chmod_one directory f d = (res, d') → stays_below Dk d d'.
Proof.
  intros HD [->|(r & c & -> & Hv & Hb)]; unfold stage_chmod_one.
  - change (OsPath.split_sep ".") with ["."]. cbn [length Nat.sub seq for_each].
    unfold bind at 1, ret.
    apply (stage_chmod_leaf_rel Dk _ Dk); [by apply resolve_dot|done].
  - rewrite split_sep_concat; [|by destruct r|by apply valid_names_no_sep].
    rewrite length_app. cbn [length]. replace (length r + 1 - 1) with (length r) by lia.
    apply bind_rel; [apply stays_below_trans|..].
    + intros ra d1.
      apply (for_each_rel (stays_below Dk)
               (fun d => real_dir_path d directory Dk ∧ dirs_below d Dk r));
        [apply stays_below_refl|apply stays_below_trans| | |done].
      * intros da db [? ?] [_ Hp]. split;
          [by eapply real_dir_path_preserved|by eapply dirs_below_preserved].
      * intros i da rb db Hi [HDa Hba]. apply list_elem_of_In, in_seq in Hi.
        apply stage_chmod_dir_rel; [done|done|done|lia].
    + intros [] d1 Hloop.
      assert (Hst : stays_below Dk d d1).
      { revert Hloop.
        apply (for_each_rel (stays_below Dk)
                 (fun d => real_dir_path d directory Dk ∧ dirs_below d Dk r));
          [apply stays_below_refl|apply stays_below_trans| | |done].
        - intros da db [? ?] [_ Hp]. split;
            [by eapply real_dir_path_preserved|by eapply dirs_below_preserved].
        - intros i da rb db Hi [HDa Hba]. apply list_elem_of_In, in_seq in Hi.
          apply stage_chmod_dir_rel; [done|done|done|lia]. }
      destruct Hst as [_ Hp].
      apply (stage_chmod_leaf_rel Dk _ (Dk ++ r ++ [c])); [|by apply prefix_app_r].
      apply resolve_member; [by eapply real_dir_path_preserved|done|
                             by eapply dirs_below_preserved].
Qed.

Lemma stage_chmod_rel directory Dk files d res d' :
  real_dir_path d directory Dk → (∀ f, f ∈ files → staged_name d Dk f) →
  stage_chmod directory files d = (res, d') → stays_below Dk d d'.
Proof.
  intros HD Hf. unfold stage_chmod.
  apply (for_each_rel (stays_below Dk)
           (fun d => real_dir_path d directory Dk ∧ ∀ f, f ∈ files → staged_name d Dk f));
    [apply stays_below_refl|apply stays_below_trans| | |done].
  - intros da db [? Hn] [_ Hp]. split; [by eapply real_dir_path_preserved|].
    intros f Hin. eapply staged_name_preserved; [exact Hp|by apply Hn].
  - intros f da rb db Hin [HDa Hna]. apply stage_chmod_one_rel; [done|by apply Hna].
Qed.

(** X12. Staging changes the disk at the destination directory and below
    it, and nowhere else, whether [stage] returns or raises: the
    subject, the project and the mirror directory are as they were, and
    so are the source object and the warnings given.  (Destination
    reached through real directories; for a directory subject, the
    destination is empty and subject and destination are not inside
    each other.) *)
Theorem stage_changes_the_destination_only
    (directory : string) (w w' : world) (r : exn + unit) (Dk : cpath) :
  real_dir_path (fs w) directory Dk →
  (Os.isdir (fs w) (fullpath (self w)) = true →
     dir_empty (fs w) Dk = true
     ∧ ∃ Sk, real_dir_path (fs w) (fullpath (self w)) Sk
             ∧ ¬ Sk `prefix_of` Dk ∧ ¬ Dk `prefix_of` Sk) →
  stage directory w = (r, w') →
  (∀ k, ¬ Dk `prefix_of` k → node_at (fs w') k = node_at (fs w) k)
  ∧ self w' = self w ∧ warnings w' = warnings w.
Proof.
  intros HD Hdir. unfold stage, bind.
  destruct (stage_copy directory w) as [[e|files] w1] eqn:Hc.
  { intros [= <- <-].
    destruct (stage_copy_rel _ _ _ _ Dk HD Hc) as ([? _] & ? & ? & _). done. }
  intros H. apply on_disk_inv in H as (H & Hs & Hw).
  destruct (stage_copy_rel _ _ _ _ Dk HD Hc) as (Hcopy & Hs1 & Hw1 & Hfile).
  assert (HD1 : real_dir_path (fs w1) directory Dk).
  { eapply real_dir_path_preserved; [apply Hcopy|done]. }
  assert (Hnames : ∀ f, f ∈ files → staged_name (fs w1) Dk f).
  { destruct (Os.isdir (fs w) (fullpath (self w))) eqn:Hisd.
    - destruct (Hdir eq_refl) as (_ & Sk & HS & HSD & HDS).
      destruct (stage_copy_dir _ _ _ _ Sk Dk HS HD HSD HDS Hc) as (-> & _ & Hall).
      intros f Hf. destruct (Hall f Hf) as (_ & _ & Hready).
      destruct (list_relative_paths_inv _ _ Sk f (resolve_real_dir _ _ _ true HS) Hf)
        as [->|(r0 & c & -> & Hv & _ & _)]; [by left|].
      right. exists r0, c. split; [done|]. split; [done|].
      rewrite rel_comps_concat in Hready by (done || by destruct r0).
      by apply dest_ready_dirs_below in Hready.
    - destruct (Hfile eq_refl files eq_refl) as [-> Hv].
      intros f Hf. apply list_elem_of_singleton in Hf as ->.
      right. exists [], (OsPath.basename (path (self w))).
      split; [done|]. split; [by constructor|apply dirs_below_nil]. }
  pose proof (stage_chmod_rel _ _ _ _ _ _ HD1 Hnames H) as Hchmod.
  destruct (stays_below_trans _ _ _ _ Hcopy Hchmod) as [Hfr _].
  split; [done|]. split; congruence.
Qed.

Lemma stage_changes_the_destination_only_witness :
  let w := Examples.world_of "files/sally" None Examples.project in
  let w' := (stage "/out" w).2 in
  (∀ k, ¬ ["out"] `prefix_of` k → node_at (fs w') k = node_at (fs w) k)
  ∧ self w' = self w ∧ warnings w' = warnings w.
Proof.
  intros w w'.
  apply (stage_changes_the_destination_only "/out" w w' (stage "/out" w).1 ["out"]).
  - apply real_dir_pathb_sound. vm_compute. reflexivity.
  - intros _. split; [vm_compute; reflexivity|].
    exists ["proj"; "files"; "sally"]. split; [|split].
    + apply real_dir_pathb_sound. vm_compute. reflexivity.
    + intros [q Hq]. discriminate.
    + intros [q Hq]. discriminate.
  - apply surjective_pairing.
Defined.

(** ** Staging a single file *)




(** ** The mirror entry of a single file *)

Lemma mkdir_keeps_stat p m d d' :
  Os.mkdir p m d = inr d' → ∀ q x, stat d q = Some x → stat d' q = Some x.
Proof.
  intros H q x Hq. apply mkdir_inv in H as (k & _ & Hn & ->).
  apply stat_insert_missing; [by intros ->|done|done].
Qed.

Lemma makedirs_go_keeps_stat :
  ∀ fuel name d r d',
    Os.makedirs_go fuel name d = (r, d') →
    ∀ q x, stat d q = Some x → stat d' q = Some x.
Proof.
  set (R := fun d d' : disk => ∀ q x, stat d q = Some x → stat d' q = Some x).
  assert (Hrefl : ∀ d, R d d) by (by intros d q x).
  assert (Htrans : ∀ d1 d2 d3, R d1 d2 → R d2 d3 → R d1 d3).
  { intros d1 d2 d3 H1 H2 q x Hq. by apply H2, H1. }
  assert (Hmk : ∀ name d r d',
            atomic (Os.mkdir name default_dir_mode) d = (r, d') → R d d').
  { intros name d r d'. apply atomic_rel; [apply Hrefl|].
    intros d2 H2 q x. by eapply mkdir_keeps_stat. }
  induction fuel as [|fuel IH]; intros name d r d'; fold (R d d').
  - cbn [Os.makedirs_go]. destruct (Os.makedirs_parts name) as [head tail].
    unfold bind, query_total.
    match goal with |- context [if ?c then _ else _] => destruct c end.
    + unfold raise. intros Hm. injection Hm as <- <-. apply Hrefl.
    + apply Hmk.
  - cbn [Os.makedirs_go]. destruct (Os.makedirs_parts name) as [head tail].
    unfold bind, query_total.
    match goal with |- context [if ?c then _ else _] => destruct c end.
    + destruct (Os.makedirs_go fuel head d) as [[e|[]] d1] eqn:E.
      * pose proof (IH _ _ _ _ E) as Hp. fold (R d d1) in Hp.
        destruct e; try (intros H; injection H as <- <-; exact Hp).
        case_decide as Hdot.
        -- unfold ret. intros Hm. injection Hm as <- <-. exact Hp.
        -- intros Hm. eapply Htrans; [exact Hp|]. by eapply Hmk.
      * pose proof (IH _ _ _ _ E) as Hp. fold (R d d1) in Hp. case_decide as Hdot.
        -- unfold ret. intros Hm. injection Hm as <- <-. exact Hp.
        -- intros Hm. eapply Htrans; [exact Hp|]. by eapply Hmk.
    + apply Hmk.
Qed.

Lemma _generate_ref_regular_file s d full m c :
  lstat d full = Some (IFile m c) →
  _generate_ref s d full
  = inr (Sha256.hexdigest
           (encode_utf8 (path s) ++ encode_utf8 (Sha256.hexdigest (encode_utf8 c)))).
Proof.
  intros Hl. destruct (lstat_not_link_stat d full _ Hl eq_refl) as [Hs _].
  unfold _generate_ref, Os.isdir. rewrite Hs. cbn [is_dir unique_parts].
  unfold unique_key, Os.isdir, Os.islink, Utils.sha256sum. rewrite Hs, Hl.
  reflexivity.
Qed.

(** What [_ensure_mirror] publishes for a subject that is a regular
    file. *)
Lemma _ensure_mirror_file_entry
    (w w1 : world) (sha256 : string) (M : cpath) (m : Z) (c : string) :
  real_dir_path (fs w) (mirror_directory (self w)) M →
  stat (fs w) (fullpath (self w)) = Some (IFile m c) →
  _ensure_mirror w = (inr sha256, w1) →
  sha256 = Sha256.hexdigest
             (encode_utf8 (path (self w))
              ++ encode_utf8 (Sha256.hexdigest (encode_utf8 c)))
  ∧ lstat (fs w1) (OsPath.join (mirror_directory (self w)) sha256) = Some (IFile m c).
Proof.
  intros HM Hsrc. unfold _ensure_mirror, bind at 1, get_self.
  rewrite (tempdir_real _ _ _ _ HM). unfold _tempdir.
  set (s := self w) in *.
  destruct (Utils.mkdtemp (mirror_directory s) (fs w)) as [[e|td] d0] eqn:Htd;
    [discriminate|].
  intros H. apply finally_inv_ok in H as (wb & Hbody & Hclean).
  apply mkdtemp_go_inv in Htd as (n & -> & Hmk).
  pose proof (mkdir_dirs_preserved _ _ _ _ Hmk) as Hp0.
  pose proof (mkdir_keeps_stat _ _ _ _ Hmk _ _ Hsrc) as Hsrc0.
  apply bind_inv_ok in Hbody as (targetdir & ws & Hscratch & Hbody).
  pose proof (scratch_copy_spec _ _ _ _ _ Hscratch) as [Hpres _]. simpl in Hpres.
  (* the scratch copy is the file *)
  assert (Hfile : lstat (fs ws) targetdir = Some (IFile m c)).
  { revert Hscratch. unfold scratch_copy. intros H.
    apply bind_inv_ok in H as (isd & w0 & Hq & H).
    rewrite on_disk_query_total in Hq. injection Hq as <- <-.
    cbn [fs] in H. unfold Os.isdir in H. rewrite Hsrc0 in H. cbn [is_dir] in H.
    apply bind_inv_ok in H as ([] & w2 & Hm1 & H).
    destruct (OsPath.split (path s)) as [base tl].
    apply bind_inv_ok in H as ([] & w3 & Hm2 & H).
    apply bind_inv_ok in H as ([] & w4 & Hc & H).
    unfold ret in H. injection H as <- <-.
    apply on_disk_inv in Hm1 as (Hm1 & _ & _).
    apply on_disk_inv in Hm2 as (Hm2 & _ & _).
    apply on_disk_inv in Hc as (Hc & _ & _).
    cbn [fs] in Hm1.
    pose proof (makedirs_go_keeps_stat _ _ _ _ _ Hm1 _ _ Hsrc0) as Hs2.
    pose proof (makedirs_go_keeps_stat _ _ _ _ _ Hm2 _ _ Hs2) as Hs3.
    apply safe_copy_spec in Hc as (m' & c' & Hs3' & Hl).
    rewrite Hs3 in Hs3'. injection Hs3' as <- <-. exact Hl. }
  apply bind_inv_ok in Hbody as (sha & wg & Hg & Hbody).
  rewrite on_disk_query in Hg.
  rewrite (_generate_ref_regular_file _ _ _ _ _ Hfile) in Hg.
  injection Hg as <- <-.
  set (h := encode_utf8 (path s) ++ encode_utf8 (Sha256.hexdigest (encode_utf8 c))) in *.
  apply bind_inv_ok in Hbody as ([] & wp & Hpub & Hret).
  unfold ret in Hret. injection Hret as <- <-. split; [reflexivity|].
  assert (HMs : real_dir_path (fs ws) (mirror_directory s) M).
  { eapply real_dir_path_preserved; [|exact HM].
    eapply dirs_preserved_trans; [exact Hp0 | exact Hpres]. }
  destruct (publish_spec _ _ _ _ _ _ HMs Hpub) as (HMp & _ & _).
  destruct (publish_node _ _ _ _ _ _ HMs Hpub) as (nd & Hnd & Hentry).
  rewrite Hfile in Hnd. injection Hnd as <-.
  destruct (cleanup_spec _ _ _ _ _ HMp Hclean) as (HM1 & Hkeep & _).
  unfold lstat. rewrite (resolve_entry _ _ M _ HM1 (hexdigest_valid h)).
  cbn [mbind option_bind]. rewrite Hkeep by apply hexdigest_not_tmp. exact Hentry.
Qed.

(** X14. The mirror entry of a single-file subject is the file itself:
    when [_ensure_mirror] returns for a subject that is a regular file
    (or a symbolic link to one), the digest is the SHA-256 of the
    declared path followed by the hexadecimal SHA-256 of the bytes, and
    the entry named by the digest is a regular file with the bytes and
    the mode of the subject, not a directory that holds it. *)
Theorem single_file_mirror_entry
    (w w1 : world) (sha256 : string) (M : cpath) (m : Z) (c : string) :
  real_dir_path (fs w) (mirror_directory (self w)) M →
  stat (fs w) (fullpath (self w)) = Some (IFile m c) →
  _ensure_mirror w = (inr sha256, w1) →
  sha256 = Sha256.hexdigest
             (encode_utf8 (path (self w))
              ++ encode_utf8 (Sha256.hexdigest (encode_utf8 c)))
  ∧ lstat (fs w1) (OsPath.join (mirror_directory (self w)) sha256) = Some (IFile m c).
Proof. apply _ensure_mirror_file_entry. Qed.

Lemma single_file_mirror_entry_witness :
  let w := Examples.world_of "files/bob.txt" None Examples.project in
  let sha256 := Examples.bob_digest in
  let w1 := (_ensure_mirror w).2 in
  sha256 = Sha256.hexdigest
             (encode_utf8 (path (self w))
              ++ encode_utf8 (Sha256.hexdigest (encode_utf8 ("Hi bob" +:+ LF))))
  ∧ lstat (fs w1) (OsPath.join (mirror_directory (self w)) sha256)
    = Some (IFile 420 ("Hi bob" +:+ LF)).
Proof.
  intros w sha256 w1.
  apply (single_file_mirror_entry w w1 sha256 ["cache"; "project_ref"] 420 ("Hi bob" +:+ LF)).
  - apply real_dir_pathb_sound. vm_compute. reflexivity.
  - vm_compute. reflexivity.
  - assert (H : (_ensure_mirror w).1 = inr sha256) by (vm_compute; reflexivity).
    rewrite <- H. apply surjective_pairing.
Defined.

(** ** An empty ref *)

(** X15. A source whose declared ref is the empty string counts as
    cached as soon as the mirror directory exists: [sha or self.ref] is
    the empty string, [os.path.join] of the mirror directory and the
    empty string is the mirror directory itself (with a slash at its
    end), which exists, so the consistency query answers [CACHED]
    although no entry was ever made. *)
Theorem empty_ref_is_cached (w : world) (M : cpath) :
  real_dir_path (fs w) (mirror_directory (self w)) M →
  ref (self w) = Some "" →
  _get_mirror_file (self w) None w
  = (inr (OsPath.join (mirror_directory (self w)) ""), w)
  ∧ get_consistency w = (inr CACHED, w).
Proof.
  intros HM Href.
  assert (Hmf : _get_mirror_file (self w) None w
                = (inr (OsPath.join (mirror_directory (self w)) ""), w)).
  { rewrite (_get_mirror_file_real _ None _ _ HM). cbn [truthy]. by rewrite Href. }
  split; [done|].
  unfold get_consistency, bind at 1, get_self. rewrite Href.
  rewrite (bind_ok _ _ _ _ _ Hmf).
  rewrite (bind_ok _ _ _ _ _ (on_disk_query_total _ w)).
  destruct (resolve_special (fs w) _ M true "" HM ltac:(tauto)) as (k & Hr & Hk).
  unfold Os.exists_, stat. rewrite Hr. cbn [mbind option_bind].
  destruct (node_at (fs w) k) as [n|]; [|done].
  by rewrite bool_decide_eq_true_2.
Qed.

Lemma empty_ref_is_cached_witness :
  let w := Examples.world_of "files/sally" (Some "") Examples.project in
  _get_mirror_file (self w) None w
  = (inr (OsPath.join (mirror_directory (self w)) ""), w)
  ∧ get_consistency w = (inr CACHED, w).
Proof.
  intros w. apply (empty_ref_is_cached w ["cache"; "project_ref"]).
  - apply real_dir_pathb_sound. vm_compute. reflexivity.
  - reflexivity.
Defined.


(** ** The element plugin *)

Lemma tar_compression_cases (c : string) :
  c ∈ ["none"; "gzip"; "xz"; "bzip2"] →
  c = "none" ∨ c = "gzip" ∨ c = "xz" ∨ c = "bzip2".
Proof.
  rewrite !elem_of_cons, elem_of_nil. tauto.
Qed.

(** X16. [configure] accepts exactly the four compression options, and
    what it accepts, [assemble] knows: of an element that [configure]
    returned, both dictionary look-ups of [assemble] succeed (no
    [KeyError]), and the extension of the archive names the compression
    of the [tarfile] mode: [.tar] for mode [w:], and [.tar.] followed by
    the compression for [w:gz], [w:xz] and [w:bz2]. *)
Theorem tar_configure_fits_assemble
    (element_name node_filename node_compression outputdir : string)
    (node_checksums : option (list string)) :
  (∀ e, TarElement.configure element_name node_filename node_compression node_checksums
        = inr e →
     ∃ c, TarElement.getitem TarElement.compress_map node_compression = inr c
          ∧ TarElement.assemble_mode e = inr ("w:" +:+ c)
          ∧ TarElement.assemble_tarname e outputdir
            = inr (OsPath.join outputdir
                     (node_filename +:+ ".tar" +:+ (if decide (c = "") then "" else "." +:+ c))))
  ∧ ((∃ msg, TarElement.configure element_name node_filename node_compression node_checksums
             = inl (TarElement.ElementError msg))
     ↔ node_compression ∉ ["none"; "gzip"; "xz"; "bzip2"]).
Proof.
  unfold TarElement.configure. cbn [TarElement.compression TarElement.name].
  split.
  - intros e. destruct (bool_decide_reflect (node_compression ∈ ["none"; "gzip"; "xz"; "bzip2"]))
      as [Hin|]; [|discriminate].
    intros [= <-]. unfold TarElement.assemble_mode, TarElement.assemble_tarname.
    cbn [TarElement.compression TarElement.filename].
    apply tar_compression_cases in Hin as [->|[->|[->| ->]]].
    + exists "". repeat split; reflexivity.
    + exists "gz". repeat split; reflexivity.
    + exists "xz". repeat split; reflexivity.
    + exists "bz2". repeat split; reflexivity.
  - destruct (bool_decide_reflect (node_compression ∈ ["none"; "gzip"; "xz"; "bzip2"]))
      as [Hin|Hout].
    + split; [by intros [? [=]]|done].
    + split; [done|]. intros _. eauto.
Qed.

Lemma assemble_hashes_spec (e : TarElement.Element) (outputdir : string) :
  ∀ (checksums hashes : list string),
    (∀ h, h ∈ checksums → h ∈ TarElement.hash_map) → NoDup hashes →
    ∃ out, TarElement.assemble_hashes e outputdir checksums hashes = inr out
           ∧ NoDup out
           ∧ ∀ p, p ∈ out ↔
                  p ∈ hashes
                  ∨ ∃ h, h ∈ checksums
                         ∧ p = OsPath.join outputdir
                                 (TarElement.filename e +:+ "." +:+ h +:+ "sum").
Proof.
  induction checksums as [|h rest IH]; intros hashes Hall Hnd.
  - exists hashes. split; [done|]. split; [done|]. intros p. split; [by left|].
    intros [?|(h & Hh & _)]; [done|]. by apply elem_of_nil in Hh.
  - cbn [TarElement.assemble_hashes].
    rewrite bool_decide_eq_true_2 by (apply Hall; by left).
    set (hp := OsPath.join outputdir (TarElement.filename e +:+ "." +:+ h +:+ "sum")).
    destruct (bool_decide_reflect (hp ∈ hashes)) as [Hin|Hout].
    + destruct (IH hashes) as (out & Ho & Hn & Hiff);
        [intros; apply Hall; by right|done|].
      exists out. split; [done|]. split; [done|]. intros p. rewrite Hiff.
      split; intros [?|(h' & Hh' & Hp)]; auto.
      * right. exists h'. split; [by right|done].
      * apply elem_of_cons in Hh' as [-> |?]; [left; by rewrite Hp|].
        right. by exists h'.
    + destruct (IH (hashes ++ [hp])) as (out & Ho & Hn & Hiff);
        [intros; apply Hall; by right| |].
      { apply NoDup_app. split; [done|]. split; [|apply NoDup_singleton].
        intros x Hx Hx'. apply list_elem_of_singleton in Hx'. by subst. }
      exists out. split; [done|]. split; [done|]. intros p. rewrite Hiff.
      rewrite elem_of_app, list_elem_of_singleton.
      split; intros [Hp|(h' & Hh' & Hp)].
      * destruct Hp as [?| ->]; [by left|]. right. exists h. split; [by left|done].
      * right. exists h'. split; [by right|done].
      * by left; left.
      * apply elem_of_cons in Hh' as [-> |?]; [left; by right|].
        right. by exists h'.
Qed.

Lemma append_nil_r (a : string) : a +:+ "" = a.
Proof.
  induction a as [|x a IH]; [done|].
  change (String x a +:+ "") with (String x (a +:+ "")). by rewrite IH.
Qed.

Lemma concat_mentions (sep : string) (l : list string) (x : string) :
  x ∈ l → mentions (String.concat sep l) x.
Proof.
  induction l as [|y l IH]; intros Hx; [by apply elem_of_nil in Hx|].
  apply elem_of_cons in Hx as [->|Hx].
  - destruct l as [|z l].
    + exists "", "". simpl. by rewrite append_nil_l, (append_nil_r y).
    + exists "", (sep +:+ String.concat sep (z :: l)). by rewrite append_nil_l.
  - destruct l as [|z l]; [by apply elem_of_nil in Hx|].
    destruct (IH Hx) as (pre & post & E).
    exists (y +:+ sep +:+ pre), post.
    change (String.concat sep (y :: z :: l))
      with (y +:+ sep +:+ String.concat sep (z :: l)).
    rewrite E. by rewrite !append_assoc.
Qed.

(** X17. [preflight] passes exactly when every checksum asked for is one
    of [sha1], [sha256], [sha512] and [md5]; then every look-up of
    [assemble] in its [hash_map] succeeds, and [hashes] gets one key for
    every distinct checksum asked for, the path of the archive with
    [.<checksum>sum] in place of its extension.  Otherwise [preflight]
    raises an [ElementError] that names every unsupported checksum. *)
Theorem tar_preflight_fits_assemble (e : TarElement.Element) (outputdir : string) :
  (TarElement.preflight e = inr tt
   ↔ ∀ h, h ∈ TarElement.include_checksums e → h ∈ TarElement.CHECKSUMS)
  ∧ (TarElement.preflight e = inr tt →
     ∃ hashes,
       TarElement.assemble_hashes e outputdir (TarElement.include_checksums e) []
       = inr hashes
       ∧ NoDup hashes
       ∧ ∀ p, p ∈ hashes ↔
              ∃ h, h ∈ TarElement.include_checksums e
                   ∧ p = OsPath.join outputdir
                           (TarElement.filename e +:+ "." +:+ h +:+ "sum"))
  ∧ (TarElement.preflight e ≠ inr tt →
     ∃ msg, TarElement.preflight e = inl (TarElement.ElementError msg)
            ∧ ∀ h, h ∈ TarElement.include_checksums e → h ∉ TarElement.CHECKSUMS →
                   mentions msg h).
Proof.
  assert (Hiff : TarElement.preflight e = inr tt
                 ↔ ∀ h, h ∈ TarElement.include_checksums e → h ∈ TarElement.CHECKSUMS).
  { unfold TarElement.preflight.
    destruct (bool_decide_reflect
                ((list_to_set (TarElement.include_checksums e) : gset string)
                 ⊆ TarElement.CHECKSUMS)) as [Hs|Hn].
    - split; [|done]. intros _ h Hh. apply Hs. by apply elem_of_list_to_set.
    - split; [done|]. intros Hall. destruct Hn. intros h Hh.
      apply elem_of_list_to_set in Hh. by apply Hall. }
  split; [exact Hiff|]. split.
  - intros Hok. destruct (assemble_hashes_spec e outputdir
                            (TarElement.include_checksums e) [])
      as (out & Ho & Hn & Hout).
    + intros h Hh. by apply Hiff.
    + constructor.
    + exists out. split; [done|]. split; [done|]. intros p. rewrite Hout.
      split; [intros [Hp|?]; [by apply elem_of_nil in Hp|done]|by right].
  - intros Hno. unfold TarElement.preflight in Hno |- *.
    destruct (bool_decide ((list_to_set (TarElement.include_checksums e) : gset string)
                           ⊆ TarElement.CHECKSUMS)); [done|].
    eexists. split; [reflexivity|]. intros h Hh Hnot.
    assert (Hm : mentions
                   (String.concat ", "
                      (elements ((list_to_set (TarElement.include_checksums e) : gset string)
                                 ∖ TarElement.CHECKSUMS))) h).
    { apply concat_mentions. apply elem_of_elements, elem_of_difference.
      split; [by apply elem_of_list_to_set|done]. }
    destruct Hm as (pre & post & ->).
    exists (TarElement.name e +:+ ": Unsupported checksum(s) " +:+ pre), post.
    by rewrite !append_assoc.
Qed.


(** ** A mirror population keeps to the mirror directory *)

Lemma changes_inside_refl M d : changes_inside M d d.
Proof. by split. Qed.

Lemma changes_inside_trans M d1 d2 d3 :
  changes_inside M d1 d2 → changes_inside M d2 d3 → changes_inside M d1 d3.
Proof.
  intros [H1 D1] [H2 D2]. split; [|auto].
  intros k Hk. by rewrite H2, H1.
Qed.

Lemma changes_inside_real_dir M d d' p :
  changes_inside M d d' → real_dir_path d p M → real_dir_path d' p M.
Proof.
  intros [Hout Hdir] HM. pose proof (real_dir_path_is_dir _ _ _ HM) as HMd.
  destruct HM as (? & ? & ? & Hd). repeat split; try done.
  intros i Hi. simpl. destruct (decide (i < length M)) as [Hlt|Hge].
  - rewrite Hout; [by apply Hd|].
    intros Hp. apply prefix_length in Hp. rewrite length_take in Hp. lia.
  - rewrite take_ge by lia. by apply Hdir.
Qed.

Lemma stays_below_inside M Dk d d' :
  M `prefix_of` Dk → M ≠ Dk → stays_below Dk d d' → changes_inside M d d'.
Proof.
  intros Hp Hne [Hc Hd]. split; [|apply Hd].
  intros k Hk. apply Hc. intros Hp'. apply Hk. by etransitivity.
Qed.

Lemma remove_tree_inside M c q d :
  changes_inside M d (remove_tree (M ++ c :: q) d).
Proof.
  split.
  - intros k Hk. rewrite node_at_remove_tree by (by destruct M).
    rewrite decide_False; [done|]. intros Hp. apply Hk.
    etransitivity; [|exact Hp]. by apply prefix_app_r.
  - rewrite node_at_remove_tree by (by destruct M).
    rewrite decide_False; [done|]. intros Hp. apply prefix_length in Hp.
    rewrite length_app in Hp. simpl in Hp. lia.
Qed.

Lemma bind_inv_any {St X Y : Type} (m : SE St X) (f : X → SE St Y) s r s' :
  bind m f s = (r, s') →
  (∃ e, m s = (inl e, s') ∧ r = inl e)
  ∨ ∃ a s1, m s = (inr a, s1) ∧ f a s1 = (r, s').
Proof.
  unfold bind. destruct (m s) as [[e|a] s1]; intros H.
  - injection H as <- <-. left. eauto.
  - right. eauto.
Qed.

Lemma atomic_inv_any (op : disk → exn + disk) d r d' :
  atomic op d = (r, d') → d' = d ∨ (r = inr tt ∧ op d = inr d').
Proof.
  unfold atomic. destruct (op d) as [e|d2]; intros [= <- <-]; eauto.
Qed.

(** [publish] keeps to the mirror directory, whatever it returns. *)
Lemma publish_inside s td n h M w r w1 :
  real_dir_path (fs w) (mirror_directory s) M →
  real_dir_path (fs w) td (M ++ [Utils.tmp_name n]) →
  publish s (OsPath.join td "moveable") (Sha256.hexdigest h) w = (r, w1) →
  changes_inside M (fs w) (fs w1) ∧ self w1 = self w ∧ warnings w1 = warnings w.
Proof.
  intros HM Htd. rewrite (publish_real _ _ _ _ _ HM).
  set (sha := Sha256.hexdigest h). set (Mt := M ++ [Utils.tmp_name n]) in *.
  rewrite (bind_ok _ _ _ _ _ (on_disk_query_total _ w)).
  assert (Hne : sha ≠ Utils.tmp_name n) by apply hexdigest_not_tmp.
  assert (Hv : Utils.valid_name "moveable" = true) by reflexivity.
  intros H. apply bind_inv_any in H as [(e & Hrm & ->)|([] & w2 & Hrm & H)].
  - (* removing the old entry failed *)
    destruct (Os.exists_ (fs w) _); [|discriminate].
    apply on_disk_inv in Hrm as (Hrm & ? & ?). unfold Utils._force_rmtree in Hrm.
    apply atomic_inv_any in Hrm as [Heq|[? _]]; [|done].
    rewrite Heq. split; [apply changes_inside_refl|done].
  - assert (H2 : changes_inside M (fs w) (fs w2) ∧ self w2 = self w
                 ∧ warnings w2 = warnings w
                 ∧ ∀ k, ¬ (M ++ [sha]) `prefix_of` k → node_at (fs w2) k = node_at (fs w) k).
    { destruct (Os.exists_ (fs w) _).
      - apply on_disk_inv in Hrm as (Hrm & ? & ?).
        unfold Utils._force_rmtree in Hrm. apply atomic_inv in Hrm.
        unfold Os.rmtree in Hrm.
        rewrite (resolve_entry (fs w) (mirror_directory s) M sha HM (hexdigest_valid h)) in Hrm.
        destruct (node_at (fs w) (M ++ [sha])) as [[]|]; try discriminate Hrm.
        injection Hrm as <-. split; [apply remove_tree_inside|]. split; [done|].
        split; [done|]. intros k Hk. rewrite node_at_remove_tree by (by destruct M).
        by rewrite decide_False.
      - unfold ret in Hrm. injection Hrm as <-.
        split; [apply changes_inside_refl|]. done. }
    destruct H2 as (Hin2 & Hs2 & Hw2 & Hout).
    apply on_disk_inv in H as (H & Hs & Hw).
    apply atomic_inv_any in H as [Heq|[_ H]].
    { rewrite Heq. split; [done|]. split; congruence. }
    split; [|split; congruence].
    eapply changes_inside_trans; [exact Hin2|].
    assert (HM2 : real_dir_path (fs w2) (mirror_directory s) M)
      by (by eapply changes_inside_real_dir).
    assert (Htd2 : real_dir_path (fs w2) td Mt).
    { eapply real_dir_path_frame; [|exact Htd]. intros i Hi. apply Hout.
      intros Hp. unfold Mt in Hp.
      destruct (decide (i ≤ length M)%nat) as [Hle|Hgt].
      - rewrite take_app_le in Hp by done.
        apply prefix_take_length in Hp; [done|done].
      - rewrite take_ge in Hp by (rewrite length_app; simpl; lia).
        by apply (snoc_prefix_snoc M sha (Utils.tmp_name n) []) in Hp. }
    pose proof (resolve_entry _ _ _ _ Htd2 Hv) as Hsrc.
    assert (Hnp1 : ¬ (Mt ++ ["moveable"]) `prefix_of` M ++ [sha]).
    { intros Hp. apply prefix_length in Hp. unfold Mt in Hp.
      rewrite !length_app in Hp. simpl in Hp. lia. }
    assert (Hnp2 : ¬ (M ++ [sha]) `prefix_of` Mt ++ ["moveable"]).
    { intros Hp. unfold Mt in Hp. rewrite <- app_assoc in Hp.
      by apply (snoc_prefix_snoc M sha (Utils.tmp_name n) ["moveable"]) in Hp. }
    pose proof (rename_tree _ _ _ _ _ _ _ HM2 (hexdigest_valid h) Hsrc
                  ltac:(by destruct Mt) Hnp1 Hnp2 H) as Hmv.
    split.
    + intros k Hk. rewrite Hmv.
      rewrite decide_False.
      2:{ intros Hp. apply Hk. etransitivity; [|exact Hp]. by apply prefix_app_r. }
      rewrite decide_False; [done|].
      intros Hp. apply Hk. etransitivity; [|exact Hp]. unfold Mt.
      rewrite <- app_assoc. by apply prefix_app_r.
    + intros Hd. rewrite Hmv.
      rewrite decide_False.
      2:{ intros Hp. apply prefix_length in Hp. rewrite length_app in Hp. simpl in Hp. lia. }
      rewrite decide_False; [done|].
      intros Hp. apply prefix_length in Hp. unfold Mt in Hp.
      rewrite !length_app in Hp. simpl in Hp. lia.
Qed.

Lemma finally_inv_any {St X : Type} (m : SE St X) (c : SE St unit) s r s' :
  finally m c s = (r, s') → ∃ rb sb rc, m s = (rb, sb) ∧ c sb = (rc, s').
Proof.
  unfold finally. destruct (m s) as [rb sb]. destruct (c sb) as [[e|[]] sc] eqn:Ec;
    intros [= <- <-]; eauto.
Qed.

(** The copy of a directory subject into the scratch directory keeps to
    the scratch directory, whatever it returns. *)
Lemma scratch_copy_inside s td Mt w r w1 :
  Os.isdir (fs w) (fullpath s) = true →
  real_dir_path (fs w) td Mt → node_at (fs w) (Mt ++ ["moveable"]) = None →
  scratch_copy s td w = (r, w1) →
  stays_below (Mt ++ ["moveable"]) (fs w) (fs w1)
  ∧ self w1 = self w ∧ warnings w1 = warnings w
  ∧ ∀ targetdir, r = inr targetdir → targetdir = OsPath.join td "moveable".
Proof.
  intros Hd Htd Hfree. unfold scratch_copy.
  assert (Hv : Utils.valid_name "moveable" = true) by reflexivity.
  rewrite (bind_ok _ _ _ _ _ (on_disk_query_total _ w)). rewrite Hd.
  pose proof (resolve_entry _ _ _ _ Htd Hv) as HD.
  apply (resolve_nofollow_follow _ _ _) in HD; [|by rewrite Hfree].
  intros H. apply bind_inv_any in H as [(e & Hc & ->)|([] & w2 & Hc & H)].
  - apply on_disk_inv in Hc as (Hc & ? & ?).
    split; [by eapply copy_files_rel|]. done.
  - unfold ret in H. injection H as <- <-.
    apply on_disk_inv in Hc as (Hc & ? & ?).
    split; [by eapply copy_files_rel|]. repeat split; try done.
    by intros ? [= <-].
Qed.

(** The removal of the scratch directory keeps to the mirror directory,
    whatever it returns. *)
Lemma cleanup_inside (mirror_dir : string) M n wb r w1 :
  real_dir_path (fs wb) mirror_dir M →
  (isd <- on_disk (query_total (fun d => Os.isdir d (OsPath.join mirror_dir (Utils.tmp_name n))));;
   if (isd : bool)
   then on_disk (Utils._force_rmtree (OsPath.join mirror_dir (Utils.tmp_name n)))
   else ret tt) wb = (r, w1) →
  changes_inside M (fs wb) (fs w1) ∧ self w1 = self wb ∧ warnings w1 = warnings wb.
Proof.
  intros HM. rewrite (bind_ok _ _ _ _ _ (on_disk_query_total _ wb)).
  destruct (Os.isdir (fs wb) _).
  - intros H. apply on_disk_inv in H as (H & ? & ?). split; [|done].
    unfold Utils._force_rmtree in H.
    apply atomic_inv_any in H as [Heq|[_ H]].
    { rewrite Heq. apply changes_inside_refl. }
    unfold Os.rmtree in H.
    rewrite (resolve_entry _ mirror_dir M _ HM (tmp_name_valid n)) in H.
    destruct (node_at (fs wb) (M ++ [Utils.tmp_name n])) as [[]|]; try discriminate H.
    injection H as <-. apply remove_tree_inside.
  - unfold ret. intros [= <- <-]. split; [apply changes_inside_refl|done].
Qed.

(** X18. Whatever a mirror population of a directory subject returns, and
    wherever it stops, it has changed nothing outside the mirror
    directory: the subject and the rest of the project are as they were,
    also when the copy, the digest or the move into place raises.  The
    source object and the warnings are as they were. *)
Theorem mirror_population_keeps_to_the_mirror
    (w w1 : world) (r : exn + string) (M : cpath) :
  real_dir_path (fs w) (mirror_directory (self w)) M →
  well_formed (fs w) →
  Os.isdir (fs w) (fullpath (self w)) = true →
  _ensure_mirror w = (r, w1) →
  (∀ k, ¬ M `prefix_of` k → node_at (fs w1) k = node_at (fs w) k)
  ∧ self w1 = self w ∧ warnings w1 = warnings w.
Proof.
  intros HM Hwf Hisd.
  cut (_ensure_mirror w = (r, w1) →
       changes_inside M (fs w) (fs w1) ∧ self w1 = self w ∧ warnings w1 = warnings w).
  { intros Hc H. destruct (Hc H) as ([? _] & ? & ?). done. }
  unfold _ensure_mirror, bind at 1, get_self.
  rewrite (tempdir_real _ _ _ _ HM). unfold _tempdir, Utils.mkdtemp.
  set (s := self w) in *.
  destruct (mkdtemp_go_cases _ _ _ HM Utils.TMP_MAX 0) as [->|(n & Hfree & ->)].
  { intros [= <- <-]. split; [apply changes_inside_refl|done]. }
  set (Mt := M ++ [Utils.tmp_name n]) in *.
  set (d0 := <[Mt := IDir Stat.S_IRWXU]> (fs w)) in *.
  set (w0 := {| self := s; fs := d0; warnings := warnings w |}).
  assert (HMt0 : Mt ≠ []) by (unfold Mt; by destruct M).
  pose proof (well_formed_below _ _ Hwf HMt0 Hfree) as Hbelow.
  assert (Hp0 : dirs_preserved (fs w) d0).
  { apply insert_dirs_preserved. by rewrite Hfree. }
  assert (Hin0 : changes_inside M (fs w) d0).
  { split.
    - intros k Hk. unfold d0. rewrite node_at_insert_ne by done.
      rewrite decide_False; [done|]. intros <-. apply Hk. by apply prefix_app_r.
    - apply Hp0. }
  assert (HM0 : real_dir_path d0 (mirror_directory s) M)
    by (by eapply real_dir_path_preserved).
  assert (Htd0 : real_dir_path d0 (OsPath.join (mirror_directory s) (Utils.tmp_name n)) Mt).
  { apply real_dir_path_entry; [done|apply tmp_name_valid|].
    unfold d0. rewrite node_at_insert_ne by done. by rewrite decide_True. }
  assert (Hfree0 : node_at d0 (Mt ++ ["moveable"]) = None).
  { unfold d0. rewrite node_at_insert_ne by done.
    rewrite decide_False; [apply Hbelow|].
    intros Heq. apply (f_equal length) in Heq. rewrite length_app in Heq.
    simpl in Heq. lia. }
  assert (Hisd0 : Os.isdir d0 (fullpath s) = true).
  { apply isdir_inv in Hisd as (Sk & m & HS & HSn).
    unfold Os.isdir. unfold d0.
    rewrite (stat_insert_missing _ _ _ _ (IDir m) HMt0 Hfree); [done|].
    unfold stat. by rewrite HS. }
  intros H. apply finally_inv_any in H as (rb & wb & rc & Hbody & Hclean).
  assert (Hb : changes_inside M d0 (fs wb) ∧ self wb = s ∧ warnings wb = warnings w).
  { apply bind_inv_any in Hbody as [(e & Hsc & ->)|(targetdir & ws & Hsc & Hbody)].
    - destruct (scratch_copy_inside s _ Mt w0 _ _ Hisd0 Htd0 Hfree0 Hsc)
        as (Hst & ? & ? & _).
      split; [|done]. eapply stays_below_inside; [| |exact Hst].
      + unfold Mt. rewrite <- app_assoc. by apply prefix_app_r.
      + intros Heq. apply (f_equal length) in Heq. unfold Mt in Heq.
        rewrite !length_app in Heq. simpl in Heq. lia.
    - destruct (scratch_copy_inside s _ Mt w0 _ _ Hisd0 Htd0 Hfree0 Hsc)
        as (Hst & Hss & Hws & Ht).
      rewrite (Ht _ eq_refl) in Hbody. clear Ht.
      assert (Hins : changes_inside M d0 (fs ws)).
      { eapply stays_below_inside; [| |exact Hst].
        + unfold Mt. rewrite <- app_assoc. by apply prefix_app_r.
        + intros Heq. apply (f_equal length) in Heq. unfold Mt in Heq.
          rewrite !length_app in Heq. simpl in Heq. lia. }
      apply bind_inv_any in Hbody as [(e & Hg & ->)|(sha & wg & Hg & Hbody)].
      { rewrite on_disk_query in Hg. injection Hg as _ <-. done. }
      rewrite on_disk_query in Hg.
      destruct (_generate_ref s (fs ws) _) as [e|sha'] eqn:Href; [discriminate|].
      injection Hg as <- <-.
      apply _generate_ref_hex in Href as [h ->].
      assert (HMs : real_dir_path (fs ws) (mirror_directory s) M)
        by (eapply real_dir_path_preserved; [apply Hst|done]).
      assert (Htds : real_dir_path (fs ws)
                       (OsPath.join (mirror_directory s) (Utils.tmp_name n)) Mt)
        by (eapply real_dir_path_preserved; [apply Hst|done]).
      apply bind_inv_any in Hbody as [(e & Hpub & ->)|([] & wp & Hpub & Hret)].
      + destruct (publish_inside _ _ _ _ _ _ _ _ HMs Htds Hpub) as (Hinp & Hsp & Hwp).
        split; [by eapply changes_inside_trans|].
        rewrite Hsp, Hwp, Hss, Hws. done.
      + unfold ret in Hret. injection Hret as _ <-.
        destruct (publish_inside _ _ _ _ _ _ _ _ HMs Htds Hpub) as (Hinp & Hsp & Hwp).
        split; [by eapply changes_inside_trans|].
        rewrite Hsp, Hwp, Hss, Hws. done. }
  destruct Hb as (Hinb & Hsb & Hwb).
  assert (HMb : real_dir_path (fs wb) (mirror_directory s) M)
    by (by eapply changes_inside_real_dir).
  destruct (cleanup_inside _ _ _ _ _ _ HMb Hclean) as (Hinc & ? & ?).
  split; [|split; congruence].
  eapply changes_inside_trans; [exact Hin0|].
  by eapply changes_inside_trans.
Qed.

Lemma mirror_population_keeps_to_the_mirror_witness :
  let w := Examples.world_of "files/sally" None Examples.project in
  let w1 := (_ensure_mirror w).2 in
  (∀ k, ¬ ["cache"; "project_ref"] `prefix_of` k →
        node_at (fs w1) k = node_at (fs w) k)
  ∧ self w1 = self w ∧ warnings w1 = warnings w.
Proof.
  intros w w1.
  apply (mirror_population_keeps_to_the_mirror w w1 (_ensure_mirror w).1
           ["cache"; "project_ref"]).
  - apply real_dir_pathb_sound. vm_compute. reflexivity.
  - apply well_formedb_sound. vm_compute. reflexivity.
  - vm_compute. reflexivity.
  - apply surjective_pairing.
Defined.

(** ** A second mirror population of a single file *)

Lemma insert_missing_extends d k v : node_at d k = None → extends d (<[k := v]> d).
Proof.
  intros Hk k' Hs. rewrite node_at_insert. case_decide; [by subst|].
  case_decide; [|done]. subst. rewrite Hk in Hs. by destruct Hs.
Qed.

Lemma mkdir_extends p m d d' : Os.mkdir p m d = inr d' → extends d d'.
Proof.
  intros H. apply mkdir_inv in H as (k & _ & Hn & ->).
  by apply insert_missing_extends.
Qed.

(** [os.makedirs] leaves what is there as it is. *)
Lemma makedirs_go_extends :
  ∀ fuel name d r d', Os.makedirs_go fuel name d = (r, d') → extends d d'.
Proof.
  assert (Hmk : ∀ name d r d',
            atomic (Os.mkdir name default_dir_mode) d = (r, d') → extends d d').
  { intros name d r d'. apply atomic_rel; [apply extends_refl|].
    intros d2 H2. by eapply mkdir_extends. }
  induction fuel as [|fuel IH]; intros name d r d'.
  - cbn [Os.makedirs_go]. destruct (Os.makedirs_parts name) as [head tail].
    unfold bind, query_total.
    match goal with |- context [if ?c then _ else _] => destruct c end.
    + unfold raise. intros Hm. injection Hm as <- <-. apply extends_refl.
    + apply Hmk.
  - cbn [Os.makedirs_go]. destruct (Os.makedirs_parts name) as [head tail].
    unfold bind, query_total.
    match goal with |- context [if ?c then _ else _] => destruct c end.
    + destruct (Os.makedirs_go fuel head d) as [[e|[]] d1] eqn:E.
      * pose proof (IH _ _ _ _ E) as Hp.
        destruct e; try (intros H; injection H as <- <-; exact Hp).
        case_decide as Hdot.
        -- unfold ret. intros Hm. injection Hm as <- <-. exact Hp.
        -- intros Hm. eapply extends_trans; [exact Hp|]. by eapply Hmk.
      * pose proof (IH _ _ _ _ E) as Hp. case_decide as Hdot.
        -- unfold ret. intros Hm. injection Hm as <- <-. exact Hp.
        -- intros Hm. eapply extends_trans; [exact Hp|]. by eapply Hmk.
    + apply Hmk.
Qed.

(** Where a regular file is, [safe_copy] leaves a regular file. *)
Lemma safe_copy_keeps_file src dest d d1 K m0 c0 :
  node_at d K = Some (IFile m0 c0) →
  Utils.safe_copy src dest d = (inr tt, d1) →
  ∃ m1 c1, node_at d1 K = Some (IFile m1 c1).
Proof.
  intros HK. unfold Utils.safe_copy. intros H.
  apply bind_inv_ok in H as ([] & du & Hu & Hw).
  apply atomic_inv in Hw.
  apply copyfile_inv in Hw as (m & c & k & Hsrc & Hk & ->).
  destruct (free_after_unlink _ _ _ _ Hu Hk) as [Hkf Hnone].
  assert (Hk0 : k ≠ []) by (intros ->; discriminate).
  rewrite node_at_insert_ne by done. case_decide; [eauto|].
  destruct (unlink_if_exists_inv _ _ _ Hu) as [[-> Hl]|(k0 & n0 & Hr0 & Hn0 & Hnd & ->)];
    [eauto|].
  assert (H0 : k0 ≠ []).
  { intros ->. simpl in Hn0. injection Hn0 as <-. done. }
  rewrite node_at_delete by done. case_decide as E; [|eauto].
  subst k0. exfalso.
  unfold resolve in Hr0, Hkf. case_decide; [discriminate|].
  destruct (walk_delete_cases _ _ _ _ _ _ Hr0) as [E|E]; rewrite E in Hkf; congruence.
Qed.

(** X19. A single-file subject is not mirrored a second time: when the
    mirror directory holds a regular file under the digest of the
    subject, which is what a mirror population of it leaves there,
    [_ensure_mirror] raises, and so do [fetch] and [track]: the entry
    exists, and [utils._force_rmtree] fails on what is not a directory. *)
Theorem file_entry_is_not_replaced
    (w : world) (M : cpath) (m m0 : Z) (c c0 : string) :
  real_dir_path (fs w) (mirror_directory (self w)) M →
  stat (fs w) (fullpath (self w)) = Some (IFile m c) →
  lstat (fs w)
    (OsPath.join (mirror_directory (self w))
       (Sha256.hexdigest
          (encode_utf8 (path (self w))
           ++ encode_utf8 (Sha256.hexdigest (encode_utf8 c)))))
  = Some (IFile m0 c0) →
  (∃ e, (_ensure_mirror w).1 = inl e)
  ∧ (∃ e, (fetch w).1 = inl e)
  ∧ (∃ e, (track w).1 = inl e).
Proof.
  intros HM Hsrc Hent.
  cut (∃ e w1, _ensure_mirror w = (inl e, w1)).
  { intros (e & w1 & H). split; [exists e; by rewrite H|]. split; exists e.
    - unfold fetch, bind at 1, get_self. by rewrite (bind_raise _ _ _ _ _ H).
    - unfold track, bind at 1, get_self. by rewrite (bind_raise _ _ _ _ _ H). }
  destruct (_ensure_mirror w) as [[e|sha] w1] eqn:Hrun; [eauto|exfalso].
  revert Hrun. unfold _ensure_mirror, bind at 1, get_self.
  rewrite (tempdir_real _ _ _ _ HM). unfold _tempdir.
  set (s := self w) in *.
  set (h := encode_utf8 (path s) ++ encode_utf8 (Sha256.hexdigest (encode_utf8 c))) in *.
  assert (Hnode : node_at (fs w) (M ++ [Sha256.hexdigest h]) = Some (IFile m0 c0)).
  { unfold lstat in Hent.
    by rewrite (resolve_entry _ _ M _ HM (hexdigest_valid h)) in Hent. }
  destruct (Utils.mkdtemp (mirror_directory s) (fs w)) as [[e|td] d0] eqn:Htd;
    [discriminate|].
  intros H. apply finally_inv_ok in H as (wb & Hbody & Hclean).
  apply mkdtemp_go_inv in Htd as (n & -> & Hmk).
  pose proof (mkdir_dirs_preserved _ _ _ _ Hmk) as Hp0.
  pose proof (mkdir_keeps_stat _ _ _ _ Hmk _ _ Hsrc) as Hsrc0.
  pose proof (mkdir_extends _ _ _ _ Hmk) as He0.
  apply bind_inv_ok in Hbody as (targetdir & ws & Hscratch & Hbody).
  pose proof (scratch_copy_spec _ _ _ _ _ Hscratch) as [Hpres _]. simpl in Hpres.
  (* the scratch copy is the file, and the entry is a file still *)
  assert (Hfile : lstat (fs ws) targetdir = Some (IFile m c)
                  ∧ ∃ m1 c1, node_at (fs ws) (M ++ [Sha256.hexdigest h])
                             = Some (IFile m1 c1)).
  { revert Hscratch. unfold scratch_copy. intros H.
    apply bind_inv_ok in H as (isd & w0 & Hq & H).
    rewrite on_disk_query_total in Hq. injection Hq as <- <-.
    cbn [fs] in H. unfold Os.isdir in H. rewrite Hsrc0 in H. cbn [is_dir] in H.
    apply bind_inv_ok in H as ([] & w2 & Hm1 & H).
    destruct (OsPath.split (path s)) as [base tl].
    apply bind_inv_ok in H as ([] & w3 & Hm2 & H).
    apply bind_inv_ok in H as ([] & w4 & Hc & H).
    unfold ret in H. injection H as <- <-.
    apply on_disk_inv in Hm1 as (Hm1 & _ & _).
    apply on_disk_inv in Hm2 as (Hm2 & _ & _).
    apply on_disk_inv in Hc as (Hc & _ & _).
    cbn [fs] in Hm1.
    pose proof (makedirs_go_keeps_stat _ _ _ _ _ Hm1 _ _ Hsrc0) as Hs2.
    pose proof (makedirs_go_keeps_stat _ _ _ _ _ Hm2 _ _ Hs2) as Hs3.
    pose proof (makedirs_go_extends _ _ _ _ _ Hm1) as He1.
    pose proof (makedirs_go_extends _ _ _ _ _ Hm2) as He2.
    split.
    - apply safe_copy_spec in Hc as (m' & c' & Hs3' & Hl).
      rewrite Hs3 in Hs3'. injection Hs3' as <- <-. exact Hl.
    - eapply safe_copy_keeps_file; [|exact Hc].
      rewrite He2, He1, He0; [exact Hnode| | |].
      + by rewrite Hnode.
      + rewrite He0 by (by rewrite Hnode). by rewrite Hnode.
      + rewrite He1, He0; [by rewrite Hnode|by rewrite Hnode|].
        rewrite He0 by (by rewrite Hnode). by rewrite Hnode. }
  destruct Hfile as (Hfile & m1 & c1 & Hnode_s).
  apply bind_inv_ok in Hbody as (sha' & wg & Hg & Hbody).
  rewrite on_disk_query in Hg.
  rewrite (_generate_ref_regular_file _ _ _ _ _ Hfile) in Hg.
  injection Hg as <- <-. fold h in Hbody.
  apply bind_inv_ok in Hbody as ([] & wp & Hpub & _).
  assert (HMs : real_dir_path (fs ws) (mirror_directory s) M).
  { eapply real_dir_path_preserved; [|exact HM].
    eapply dirs_preserved_trans; [exact Hp0 | exact Hpres]. }
  (* the entry exists and cannot be removed *)
  revert Hpub. rewrite (publish_real _ _ _ _ _ HMs).
  rewrite (bind_ok _ _ _ _ _ (on_disk_query_total _ ws)).
  pose proof (resolve_entry _ _ M _ HMs (hexdigest_valid h)) as Hr.
  assert (Hl : lstat (fs ws) (OsPath.join (mirror_directory s) (Sha256.hexdigest h))
               = Some (IFile m1 c1)) by (unfold lstat; by rewrite Hr).
  destruct (lstat_not_link_stat _ _ _ Hl eq_refl) as [Hst _].
  unfold Os.exists_. rewrite Hst. rewrite bool_decide_eq_true_2 by done.
  intros H. apply bind_inv_ok in H as ([] & w2 & Hrm & _).
  apply on_disk_inv in Hrm as (Hrm & _ & _).
  unfold Utils._force_rmtree in Hrm. apply atomic_inv in Hrm.
  unfold Os.rmtree in Hrm. rewrite Hr, Hnode_s in Hrm. discriminate Hrm.
Qed.

Lemma file_entry_is_not_replaced_witness :
  let w := (_ensure_mirror (Examples.world_of "files/bob.txt" None Examples.project)).2 in
  (∃ e, (_ensure_mirror w).1 = inl e)
  ∧ (∃ e, (fetch w).1 = inl e)
  ∧ (∃ e, (track w).1 = inl e).
Proof.
  intros w.
  apply (file_entry_is_not_replaced w ["cache"; "project_ref"]
           420 420 ("Hi bob" +:+ LF) ("Hi bob" +:+ LF)).
  - apply real_dir_pathb_sound. vm_compute. reflexivity.
  - vm_compute. reflexivity.
  - vm_compute. reflexivity.
Defined.


(** ** A file without a directory part *)
(** The scratch copy of a single file whose path has no directory part:
    [basefolder] is [targetdir] with a slash at its end, which is there
    already. *)
Lemma scratch_copy_no_directory_part s td Mt w :
  real_dir_path (fs w) td Mt → OsPath.endswith_sep td = false →
  Os.isdir (fs w) (fullpath s) = false →
  no_sep (path s) →
  ∃ w', scratch_copy s td w = (inl FileExistsError, w')
        ∧ real_dir_path (fs w') td Mt ∧ self w' = self w
        ∧ warnings w' = warnings w
        ∧ changes_below (Mt ++ ["moveable"]) (fs w) (fs w').
Proof.
  intros Htd He Hd Hp. unfold scratch_copy.
  rewrite (bind_ok _ _ _ _ _ (on_disk_query_total _ w)). rewrite Hd.
  assert (Hv : Utils.valid_name "moveable" = true) by reflexivity.
  pose proof (makedirs_entry _ _ _ _ Htd He Hv) as Hm.
  unfold atomic, Os.mkdir in Hm.
  rewrite (resolve_entry _ _ _ _ Htd Hv) in Hm.
  destruct (node_at (fs w) (Mt ++ ["moveable"])) as [n|] eqn:En.
  - apply on_disk_eq in Hm. rewrite world_eta in Hm.
    rewrite (bind_raise _ _ _ _ _ Hm). exists w.
    split; [reflexivity|]. split; [exact Htd|]. split; [done|]. split; [done|].
    apply changes_below_refl.
  - apply on_disk_eq in Hm. rewrite (bind_ok _ _ _ _ _ Hm).
    rewrite (split_no_sep _ Hp). cbv beta iota zeta.
    set (d2 := <[Mt ++ ["moveable"] := IDir default_dir_mode]> (fs w)) in *.
    assert (Hp2 : dirs_preserved (fs w) d2).
    { apply insert_dirs_preserved. by rewrite En. }
    assert (Htd2 : real_dir_path d2 td Mt) by (by eapply real_dir_path_preserved).
    assert (Hn2 : is_dir (node_at d2 (Mt ++ ["moveable"])) = true).
    { unfold d2. rewrite node_at_insert_ne by (by destruct Mt). by rewrite decide_True. }
    pose proof (makedirs_existing d2 td Mt "moveable" Htd2 He Hv Hn2) as Hm2.
    exists {| self := self w; fs := d2; warnings := warnings w |}.
    split; [|split; [exact Htd2|split; [reflexivity|split; [reflexivity|]]]].
    + refine (bind_raise _ _ _ _ _ _).
      apply (on_disk_eq _ {| self := self w; fs := d2; warnings := warnings w |}) in Hm2.
      exact Hm2.
    + intros k Hk. cbn [fs]. unfold d2. rewrite node_at_insert_ne by (by destruct Mt).
      rewrite decide_False; [done|]. by intros <-.
Qed.

Lemma _ensure_mirror_no_directory_part (w : world) (M : cpath) (m : Z) (c : string) :
  real_dir_path (fs w) (mirror_directory (self w)) M →
  stat (fs w) (fullpath (self w)) = Some (IFile m c) →
  no_sep (path (self w)) →
  ∃ w', _ensure_mirror w = (inl FileExistsError, w')
        ∧ self w' = self w ∧ warnings w' = warnings w
        ∧ (well_formed (fs w) → ∀ k, node_at (fs w') k = node_at (fs w) k).
Proof.
  intros HM Hst Hp. unfold _ensure_mirror, bind at 1, get_self.
  rewrite (tempdir_real _ _ _ _ HM). unfold _tempdir.
  set (s := self w) in *. unfold Utils.mkdtemp.
  destruct (mkdtemp_go_cases _ _ _ HM Utils.TMP_MAX 0) as [E|(n & Hfree & E)];
    rewrite E.
  { eexists. split; [reflexivity|]. done. }
  set (td := OsPath.join (mirror_directory s) (Utils.tmp_name n)).
  set (Mt := M ++ [Utils.tmp_name n]) in *.
  set (d1 := <[Mt := IDir Stat.S_IRWXU]> (fs w)).
  set (w1 := {| self := self w; fs := d1; warnings := warnings w |}).
  assert (Hne : Mt ≠ []) by (unfold Mt; by destruct M).
  assert (Hp1 : dirs_preserved (fs w) d1).
  { apply insert_dirs_preserved. by rewrite Hfree. }
  assert (Htd : real_dir_path d1 td Mt).
  { apply real_dir_path_entry; [by eapply real_dir_path_preserved|apply tmp_name_valid|].
    unfold d1. rewrite node_at_insert_ne by (by destruct M). by rewrite decide_True. }
  assert (He : OsPath.endswith_sep td = false).
  { apply join_name; [by destruct HM|apply tmp_name_valid]. }
  assert (Hd : Os.isdir (fs w1) (fullpath s) = false).
  { unfold Os.isdir. simpl fs. unfold d1.
    by rewrite (stat_insert_missing _ _ _ _ _ Hne Hfree Hst). }
  destruct (scratch_copy_no_directory_part s td Mt w1 Htd He Hd Hp)
    as (w2 & Hsc & Htd2 & Hs2 & Hw2 & Hc2).
  unfold finally. rewrite (bind_raise _ _ _ _ _ Hsc).
  rewrite (bind_ok _ _ _ _ _ (on_disk_query_total _ w2)).
  rewrite (isdir_real_dir _ _ _ Htd2).
  unfold Utils._force_rmtree, Os.rmtree, on_disk, atomic.
  rewrite (resolve_real_dir _ _ _ false Htd2).
  pose proof (real_dir_path_is_dir _ _ _ Htd2) as Hn.
  destruct (node_at (fs w2) Mt) as [[]|]; try done.
  eexists. split; [reflexivity|]. cbn [self fs warnings].
  split; [done|]. split; [done|].
  intros Hwf k. rewrite node_at_remove_tree by done. case_decide as Hk.
  - destruct Hk as [q ->]. symmetry. by apply well_formed_below.
  - rewrite Hc2.
    2:{ intros Hp'. apply Hk. etransitivity; [|exact Hp']. by apply prefix_app_r. }
    unfold w1, d1. cbn [fs]. rewrite node_at_insert_ne by done.
    rewrite decide_False; [done|]. by intros <-.
Qed.

(** X5. A single-file subject whose declared path has no directory part
    (no slash) is never mirrored: [_ensure_mirror] makes [targetdir],
    then calls [os.makedirs] on [targetdir] joined with the empty
    [base], which is [targetdir] with a slash at its end and is there
    already; it raises [FileExistsError], and so do [fetch] and [track],
    which leave the world that [_ensure_mirror] left.  The scratch
    directory is removed on the way out: the source object and the
    warnings are as they were, and so is the disk, when every entry of
    it lies in a directory. *)
Theorem file_without_directory_part_is_not_mirrored
    (w : world) (M : cpath) (m : Z) (c : string) :
  real_dir_path (fs w) (mirror_directory (self w)) M →
  stat (fs w) (fullpath (self w)) = Some (IFile m c) →
  no_sep (path (self w)) →
  (_ensure_mirror w).1 = inl FileExistsError
  ∧ fetch w = (inl FileExistsError, (_ensure_mirror w).2)
  ∧ track w = (inl FileExistsError, (_ensure_mirror w).2)
  ∧ self (_ensure_mirror w).2 = self w
  ∧ warnings (_ensure_mirror w).2 = warnings w
  ∧ (well_formed (fs w) →
     ∀ k, node_at (fs (_ensure_mirror w).2) k = node_at (fs w) k).
Proof.
  intros HM Hst Hp.
  destruct (_ensure_mirror_no_directory_part w M m c HM Hst Hp)
    as (w' & H & Hs & Hw & Hd).
  rewrite H. cbn [fst snd].
  split; [done|]. split; [|split; [|done]].
  - unfold fetch, bind at 1, get_self. by rewrite (bind_raise _ _ _ _ _ H).
  - unfold track, bind at 1, get_self. by rewrite (bind_raise _ _ _ _ _ H).
Qed.

Lemma file_without_directory_part_is_not_mirrored_witness :
  let w := {| self := configure "/proj/files" Examples.mirror "bob.txt" None;
              fs := Examples.project; warnings := [] |} in
  (_ensure_mirror w).1 = inl FileExistsError
  ∧ fetch w = (inl FileExistsError, (_ensure_mirror w).2)
  ∧ track w = (inl FileExistsError, (_ensure_mirror w).2)
  ∧ self (_ensure_mirror w).2 = self w
  ∧ warnings (_ensure_mirror w).2 = warnings w
  ∧ (well_formed (fs w) →
     ∀ k, node_at (fs (_ensure_mirror w).2) k = node_at (fs w) k).
Proof.
  intros w.
  apply (file_without_directory_part_is_not_mirrored w ["cache"; "project_ref"]
           420 ("Hi bob" +:+ LF)).
  - apply real_dir_pathb_sound. vm_compute. reflexivity.
  - vm_compute. reflexivity.
  - vm_compute. reflexivity.
Defined.

(** * The mirror store after a fetch that raises *)

Lemma well_formed_ancestors d k q :
  well_formed d → is_Some (node_at d (k ++ q)) →
  ∀ i, is_Some (node_at d (k ++ take i q)).
Proof.
  intros Hwf. induction q as [|c q IH] using rev_ind; intros Hq i.
  - by rewrite take_nil.
  - assert (Hk : is_Some (node_at d (k ++ q))).
    { rewrite app_assoc, node_at_snoc in Hq. apply Hwf in Hq.
      destruct (node_at d (k ++ q)); [eauto|done]. }
    destruct (decide (i ≤ length q)%nat) as [Hi|Hi].
    + rewrite take_app_le by done. by apply IH.
    + rewrite take_ge by (rewrite length_app; simpl; lia). done.
Qed.

Lemma ensure_dirs_from_subject d Sk Dk (l : list (list string)) :
  Dk ≠ [] →
  Forall (fun p => is_Some (node_at d (Sk ++ p))) l →
  ∀ da da', copied_from d Sk Dk da →
            for_each l (Utils.ensure_dir Sk Dk) da = (inr tt, da') →
            copied_from d Sk Dk da'.
Proof.
  intros HDk Hl. induction Hl as [|p l Hp Hl IH]; intros da da' Hinv H.
  - unfold for_each, ret in H. by injection H as <-.
  - apply for_each_cons_inv in H as (d1 & H1 & H2).
    apply (IH d1 da'); [|done].
    unfold Utils.ensure_dir in H1. apply atomic_inv in H1.
    destruct (node_at da (Dk ++ p)) as [[]|] eqn:E; try discriminate H1;
      injection H1 as <-; [done|].
    intros q n. rewrite node_at_insert_ne by (by destruct Dk).
    case_decide as Heq; [|by apply Hinv].
    apply app_inv_head in Heq as <-. intros [= <-]. split; [done|]. by intros.
Qed.

Lemma copy_member_from_subject d Sk Dk f da da' :
  Dk ≠ [] → well_formed d →
  (∀ q, node_at da (Sk ++ q) = node_at d (Sk ++ q)) →
  copied_from d Sk Dk da →
  Utils.copy_member Sk Dk f da = (inr tt, da') →
  copied_from d Sk Dk da'.
Proof.
  intros HDk Hwf Hsrc Hinv. unfold Utils.copy_member.
  destruct (bool_decide (".." ∈ Utils.rel_comps f)); [discriminate|].
  intros H. apply bind_inv_ok in H as (src & d0 & Hq & H).
  unfold query_total in Hq. injection Hq as <- <-.
  rewrite Hsrc in H.
  destruct (node_at d (Sk ++ Utils.rel_comps f)) as [n|] eqn:En; [|discriminate].
  apply bind_inv_ok in H as ([] & d1 & Hdirs & H).
  assert (H1 : copied_from d Sk Dk d1).
  { eapply (ensure_dirs_from_subject d Sk Dk); [done| |exact Hinv|exact Hdirs].
    apply Forall_forall. intros p Hp.
    apply list_elem_of_fmap in Hp as (i & -> & _).
    apply well_formed_ancestors; [done|]. by rewrite En. }
  apply atomic_inv in H.
  assert (Hd' : da' = <[Dk ++ Utils.rel_comps f := n]> d1).
  { destruct n, (node_at d1 (Dk ++ Utils.rel_comps f)) as [[]|];
      first [discriminate H | by injection H as <-]. }
  subst da'. intros q n'. rewrite node_at_insert_ne by (by destruct Dk).
  case_decide as Heq; [|by apply H1].
  apply app_inv_head in Heq as <-. intros [= <-]. split; [by rewrite En|].
  intros m c ->. exact En.
Qed.

Lemma copy_loop_from_subject d Sk Dk (l : list string) :
  well_formed d → ¬ Sk `prefix_of` Dk → ¬ Dk `prefix_of` Sk →
  ∀ da da',
    (∀ q, node_at da (Sk ++ q) = node_at d (Sk ++ q)) →
    copied_from d Sk Dk da →
    for_each l (Utils.copy_member Sk Dk) da = (inr tt, da') →
    copied_from d Sk Dk da'.
Proof.
  intros Hwf HSD HDS.
  assert (HDk : Dk ≠ []) by (intros ->; apply HDS; apply prefix_nil).
  induction l as [|f l IH]; intros da da' Hsrc Hinv H.
  - unfold for_each, ret in H. by injection H as <-.
  - apply for_each_cons_inv in H as (d1 & H1 & H2).
    apply (IH d1 da'); [| |done].
    + intros q. destruct (copy_member_spec _ _ _ _ _ HDk H1) as (_ & Hc & _).
      rewrite Hc by (by apply not_under_source). apply Hsrc.
    + by eapply copy_member_from_subject.
Qed.

(** What [_ensure_mirror] publishes for a subject that is a directory
    holds nothing that the subject does not hold: nothing of an entry
    that was there before is left. *)
Lemma _ensure_mirror_entry_from_subject (w w1 : world) (sha256 : string) (M Sk : cpath) :
  real_dir_path (fs w) (mirror_directory (self w)) M →
  real_dir_path (fs w) (fullpath (self w)) Sk →
  well_formed (fs w) →
  ¬ M `prefix_of` Sk → ¬ Sk `prefix_of` M →
  _ensure_mirror w = (inr sha256, w1) →
  ∀ q n, node_at (fs w1) ((M ++ [sha256]) ++ q) = Some n →
         from_subject (fs w) Sk q n.
Proof.
  intros HM HS Hwf HMS HSM.
  unfold _ensure_mirror, bind at 1, get_self.
  rewrite (tempdir_real _ _ _ _ HM). unfold _tempdir.
  set (s := self w) in *.
  destruct (Utils.mkdtemp (mirror_directory s) (fs w)) as [[e|td] d0] eqn:Htd;
    [discriminate|].
  intros H. apply finally_inv_ok in H as (wb & Hbody & Hclean).
  apply mkdtemp_go_inv in Htd as (n & -> & Hmk).
  pose proof (mkdir_dirs_preserved _ _ _ _ Hmk) as Hp0.
  apply mkdir_inv in Hmk as (k & Hk & Hfree & ->).
  rewrite (resolve_entry (fs w) (mirror_directory s) M _ HM (tmp_name_valid n)) in Hk.
  injection Hk as <-.
  set (Mt := M ++ [Utils.tmp_name n]) in *.
  set (d0 := <[Mt := IDir Stat.S_IRWXU]> (fs w)) in *.
  set (Dk := Mt ++ ["moveable"]) in *.
  assert (Hv : Utils.valid_name "moveable" = true) by reflexivity.
  assert (HMt0 : Mt ≠ []) by (unfold Mt; by destruct M).
  pose proof (well_formed_below _ _ Hwf HMt0 Hfree) as Hbelow.
  assert (HS0 : real_dir_path d0 (fullpath s) Sk)
    by (by eapply real_dir_path_preserved).
  assert (Htd0 : real_dir_path d0 (OsPath.join (mirror_directory s) (Utils.tmp_name n)) Mt).
  { apply real_dir_path_entry; [by eapply real_dir_path_preserved|apply tmp_name_valid|].
    unfold d0. rewrite node_at_insert_ne by done. by rewrite decide_True. }
  assert (HDfree : ∀ q, node_at d0 (Dk ++ q) = None).
  { intros q. unfold d0, Dk. rewrite node_at_insert_ne by done.
    rewrite decide_False; [rewrite <- app_assoc; apply Hbelow|].
    intros Heq. apply (f_equal length) in Heq. rewrite !length_app in Heq.
    simpl in Heq. lia. }
  assert (HSD : ¬ Sk `prefix_of` Dk).
  { intros Hp. unfold Dk in Hp. apply prefix_snoc_inv in Hp as [Heq|Hp].
    - apply HMS. rewrite Heq. unfold Mt. rewrite <- app_assoc. by apply prefix_app_r.
    - unfold Mt in Hp. apply prefix_snoc_inv in Hp as [Heq|Hp]; [|done].
      apply HMS. rewrite Heq. by apply prefix_app_r. }
  assert (HMSq : ∀ q, ¬ M `prefix_of` Sk ++ q) by (intros q; by apply not_under_source).
  assert (HDS : ¬ Dk `prefix_of` Sk).
  { intros Hp. apply HMS. etransitivity; [|exact Hp]. unfold Dk, Mt.
    rewrite <- app_assoc. by apply prefix_app_r. }
  assert (Hsrc0 : ∀ q, node_at d0 (Sk ++ q) = node_at (fs w) (Sk ++ q)).
  { intros q. unfold d0. rewrite node_at_insert_ne by done.
    rewrite decide_False; [done|]. intros Heq. apply (HMSq q).
    rewrite <- Heq. by apply prefix_app_r. }
  apply bind_inv_ok in Hbody as (targetdir & ws & Hscratch & Hbody).
  pose proof (scratch_copy_spec _ _ _ _ _ Hscratch) as [Hpres _]. simpl in Hpres.
  assert (Hcopy1 : targetdir = OsPath.join (OsPath.join (mirror_directory s) (Utils.tmp_name n))
                                 "moveable"
                   ∧ for_each (Utils.list_relative_paths d0 (fullpath s) true)
                       (Utils.copy_member Sk Dk) d0 = (inr tt, fs ws)).
  { revert Hscratch. unfold scratch_copy. intros H.
    apply bind_inv_ok in H as (isd & w0 & Hq & H).
    rewrite on_disk_query_total in Hq. injection Hq as <- <-.
    cbn [fs] in H. rewrite (isdir_real_dir _ _ _ HS0) in H.
    apply bind_inv_ok in H as ([] & w2 & Hc & H).
    unfold ret in H. injection H as <- <-. split; [done|].
    apply on_disk_inv in Hc as (Hc & _ & _). cbn [fs] in Hc.
    unfold Utils.copy_files in Hc.
    rewrite (resolve_real_dir _ _ _ true HS0) in Hc.
    pose proof (resolve_entry _ _ _ _ Htd0 Hv) as HD.
    rewrite (resolve_nofollow_follow _ _ _ HD) in Hc
      by (fold Dk; by rewrite <- (app_nil_r Dk), HDfree).
    exact Hc. }
  destruct Hcopy1 as [-> Hcopy1].
  set (td := OsPath.join (mirror_directory s) (Utils.tmp_name n)) in *.
  assert (Hcp : copied_from (fs w) Sk Dk (fs ws)).
  { eapply (copy_loop_from_subject (fs w) Sk Dk); [done|done|done|exact Hsrc0| |exact Hcopy1].
    intros q n'. by rewrite HDfree. }
  apply bind_inv_ok in Hbody as (sha & wg & Hg & Hbody).
  rewrite on_disk_query in Hg.
  destruct (_generate_ref s (fs ws) _) as [e|sha'] eqn:Href; [discriminate|].
  injection Hg as <- <-.
  destruct (_generate_ref_hex _ _ _ _ Href) as [h ->].
  apply bind_inv_ok in Hbody as ([] & wp & Hpub & Hret).
  unfold ret in Hret. injection Hret as <- <-.
  assert (HMs : real_dir_path (fs ws) (mirror_directory s) M).
  { eapply real_dir_path_preserved; [|exact HM].
    eapply dirs_preserved_trans; [exact Hp0 | exact Hpres]. }
  assert (Htds : real_dir_path (fs ws) td Mt) by (by eapply real_dir_path_preserved).
  destruct (publish_spec _ _ _ _ _ _ HMs Hpub) as (HMp & _ & _).
  destruct (publish_tree _ _ _ _ _ _ _ HMs Htds Hpub) as (Hpt & _).
  fold Mt in Hpt.
  pose proof (cleanup_frame _ _ _ _ _ HMp Hclean) as Hcl. fold Mt in Hcl.
  intros q n'. rewrite Hcl.
  2:{ intros Hp. unfold Mt in Hp. rewrite <- app_assoc in Hp.
      apply (snoc_prefix_snoc M (Utils.tmp_name n) (Sha256.hexdigest h) q) in Hp.
      by apply (hexdigest_not_tmp h n). }
  rewrite Hpt. rewrite app_assoc. fold Dk. apply Hcp.
Qed.

(** C10. When the mirror population returns a digest that differs
    from the declared ref, [fetch] raises its [SourceError], and the
    world it leaves is the one the mirror population left: the entry
    named by the computed digest is in the mirror directory and has
    taken the place of what was there under that name before.  For a
    subject that is a file the entry is that file; for a subject that
    is a directory the entry holds nothing that the subject does not
    hold, and every file of the entry is the file of the subject at the
    same relative path.  The source object, with its declared ref, is
    as it was. *)
Theorem fetch_mismatch_leaves_entry (w w1 : world) (sha256 : string) (M : cpath) :
  real_dir_path (fs w) (mirror_directory (self w)) M →
  _ensure_mirror w = (inr sha256, w1) →
  ref (self w) ≠ Some sha256 →
  fetch w = (inl (SourceError
                    (fetch_message (path (self w)) sha256 (ref (self w)))), w1)
  ∧ _get_mirror_file (self w1) (Some sha256) w1
    = (inr (OsPath.join (mirror_directory (self w)) sha256), w1)
  ∧ Os.lexists (fs w1) (OsPath.join (mirror_directory (self w)) sha256) = true
  ∧ self w1 = self w
  ∧ ref (self w1) = ref (self w)
  ∧ (∀ m c, stat (fs w) (fullpath (self w)) = Some (IFile m c) →
            lstat (fs w1) (OsPath.join (mirror_directory (self w)) sha256)
            = Some (IFile m c))
  ∧ (∀ Sk, real_dir_path (fs w) (fullpath (self w)) Sk → well_formed (fs w) →
           ¬ M `prefix_of` Sk → ¬ Sk `prefix_of` M →
           ∀ q n, node_at (fs w1) ((M ++ [sha256]) ++ q) = Some n →
                  is_Some (node_at (fs w) (Sk ++ q))
                  ∧ ∀ m c, n = IFile m c →
                           node_at (fs w) (Sk ++ q) = Some (IFile m c)).
Proof.
  intros HM Hm Hne.
  destruct (_ensure_mirror_publishes w w1 sha256 M HM Hm) as (Hex & HM1 & Hs & h & Hh).
  split; [|split; [|split; [done|split; [done|split; [by rewrite Hs|split]]]]].
  - unfold fetch, bind, get_self. rewrite Hm.
    rewrite decide_True by congruence. reflexivity.
  - rewrite <- Hs in HM1. rewrite (_get_mirror_file_real _ _ _ _ HM1).
    rewrite Hs. unfold truthy.
    assert (sha256 ≠ "") as Hnz by (rewrite Hh; apply hexdigest_ne).
    by rewrite bool_decide_eq_false_2.
  - intros m c Hsrc.
    by destruct (_ensure_mirror_file_entry w w1 sha256 M m c HM Hsrc Hm).
  - intros Sk HS Hwf HMS HSM q n Hn.
    exact (_ensure_mirror_entry_from_subject w w1 sha256 M Sk HM HS Hwf HMS HSM Hm q n Hn).
Qed.

Lemma fetch_mismatch_leaves_entry_witness :
  let sha256 := "fc09e2c376889efdf4ddb400ea287e0191e1eb8e6d6f32b1bf9379df4a81be6b" in
  let M := ["cache"; "project_ref"] in
  let stale : disk :=
    <[ ["cache"; "project_ref"; sha256; "junk"] := IFile 420 "stale" ]>
    (<[ ["cache"; "project_ref"; sha256] := IDir 493 ]> Examples.project) in
  let w := Examples.world_of "files/sally" (Some "abc") stale in
  let w1 := (_ensure_mirror w).2 in
  fetch w = (inl (SourceError
                    (fetch_message (path (self w)) sha256 (ref (self w)))), w1)
  ∧ _get_mirror_file (self w1) (Some sha256) w1
    = (inr (OsPath.join (mirror_directory (self w)) sha256), w1)
  ∧ Os.lexists (fs w1) (OsPath.join (mirror_directory (self w)) sha256) = true
  ∧ self w1 = self w
  ∧ ref (self w1) = ref (self w)
  ∧ (∀ m c, stat (fs w) (fullpath (self w)) = Some (IFile m c) →
            lstat (fs w1) (OsPath.join (mirror_directory (self w)) sha256)
            = Some (IFile m c))
  ∧ (∀ Sk, real_dir_path (fs w) (fullpath (self w)) Sk → well_formed (fs w) →
           ¬ M `prefix_of` Sk → ¬ Sk `prefix_of` M →
           ∀ q n, node_at (fs w1) ((M ++ [sha256]) ++ q) = Some n →
                  is_Some (node_at (fs w) (Sk ++ q))
                  ∧ ∀ m c, n = IFile m c →
                           node_at (fs w) (Sk ++ q) = Some (IFile m c)).
Proof.
  intros sha256 M stale w w1.
  apply (fetch_mismatch_leaves_entry w w1 sha256 M).
  - apply real_dir_pathb_sound. vm_compute. reflexivity.
  - assert (H : (_ensure_mirror w).1 = inr sha256) by (vm_compute; reflexivity).
    rewrite <- H. apply surjective_pairing.
  - simpl. discriminate.
Defined.

(** A directory subject whose digest has an entry already, with a stale
    file in it: the fetch with a wrong ref raises, and the entry is the
    new copy. *)
Example fetch_mismatch_replaces_entry :
  let sha256 := "fc09e2c376889efdf4ddb400ea287e0191e1eb8e6d6f32b1bf9379df4a81be6b" in
  let stale : disk :=
    <[ ["cache"; "project_ref"; sha256; "junk"] := IFile 420 "stale" ]>
    (<[ ["cache"; "project_ref"; sha256] := IDir 493 ]> Examples.project) in
  let w := Examples.world_of "files/sally" (Some "abc") stale in
  let entry := OsPath.join Examples.mirror sha256 in
  let d' := fs (fetch w).2 in
  (fetch w).1 = inl (SourceError (fetch_message "files/sally" sha256 (Some "abc")))
  ∧ lstat (fs w) (OsPath.join entry "junk") = Some (IFile 420 "stale")
  ∧ lstat d' (OsPath.join entry "junk") = None
  ∧ lstat d' (OsPath.join entry "run.sh") = Some (IFile 448 "#!/bin/sh")
  ∧ lstat d' (OsPath.join entry "docs/readme") = Some (IFile 384 "read me").
Proof. vm_compute. repeat split; reflexivity. Qed.


(** * A second mirror population of a directory *)

(** ** What a listing depends on *)

Lemma omap_cons_eq {X Y : Type} (f : X → option Y) x l :
  omap f (x :: l) = match f x with Some y => y :: omap f l | None => omap f l end.
Proof. reflexivity. Qed.

Lemma omap_filter_map (P : cpath * inode → Prop) `{!∀ kv, Decision (P kv)}
    (f : cpath * inode → option string) (d : disk) :
  (∀ kv, ¬ P kv → f kv = None) →
  omap f (map_to_list d) ≡ₚ omap f (map_to_list (filter P d)).
Proof.
  intros Hf. induction d as [|i x m Hi IH] using map_ind.
  - by rewrite map_filter_empty, map_to_list_empty.
  - rewrite (map_to_list_insert m i x Hi), omap_cons_eq.
    destruct (decide (P (i, x))) as [HP|HP].
    + rewrite map_filter_insert_True by done.
      rewrite map_to_list_insert by (apply map_lookup_filter_None; by left).
      rewrite omap_cons_eq. destruct (f (i, x)); [by constructor|done].
    + rewrite map_filter_insert_not' by (done || (intros y Hy; congruence)).
      by rewrite (Hf _ HP).
Qed.

Lemma omap_ext_in {X Y : Type} (f g : X → option Y) (l : list X) :
  (∀ x, x ∈ l → f x = g x) → omap f l = omap g l.
Proof.
  induction l as [|x l IH]; intros H; [done|].
  rewrite !omap_cons_eq, (H x) by (by left).
  rewrite IH; [done|]. intros y Hy. apply H. by right.
Qed.

Lemma forallb_ext_in {X : Type} (f g : X → bool) (l : list X) :
  (∀ x, x ∈ l → f x = g x) → forallb f l = forallb g l.
Proof.
  induction l as [|x l IH]; intros H; [done|].
  simpl. rewrite (H x) by (by left).
  rewrite IH; [done|]. intros y Hy. apply H. by right.
Qed.

Lemma dir_empty_spec d k :
  dir_empty d k = true ↔ ∀ k', strict_under k k' → d !! k' = None.
Proof.
  unfold dir_empty, keys. rewrite forallb_forall. split.
  - intros H k' Hk'. destruct (d !! k') as [v|] eqn:E; [|done].
    assert (Hin : In k' (map_to_list d).*1).
    { apply list_elem_of_In, list_elem_of_fmap. exists (k', v).
      split; [done|]. by apply elem_of_map_to_list. }
    apply H in Hin. apply negb_true_iff, bool_decide_eq_false in Hin. done.
  - intros H x Hx. apply negb_true_iff, bool_decide_eq_false. intros Hs.
    apply list_elem_of_In, list_elem_of_fmap in Hx as ([k0 v0] & -> & Hin).
    apply elem_of_map_to_list in Hin. simpl in Hs. rewrite (H _ Hs) in Hin. done.
Qed.

Lemma dir_empty_local da db k :
  (∀ k', strict_under k k' → db !! k' = da !! k') → dir_empty da k = dir_empty db k.
Proof.
  intros H. apply eq_true_iff_eq. rewrite !dir_empty_spec.
  split; intros Hall k' Hk'; [rewrite H by done|rewrite <- H by done]; by apply Hall.
Qed.

Lemma listed_local da db list_dirs Sk kv :
  (∀ q, q ≠ [] → db !! (Sk ++ q) = da !! (Sk ++ q)) →
  Utils.listed da list_dirs Sk kv = Utils.listed db list_dirs Sk kv.
Proof.
  intros H. destruct kv as [k v]. unfold Utils.listed.
  case_decide as Hu; [|done]. destruct Hu as [[q ->] Hne].
  rewrite drop_app_length.
  assert (Hq : q ≠ []) by (intros ->; by rewrite app_nil_r in Hne).
  assert (Hr : Utils.real_dirs_between da Sk q = Utils.real_dirs_between db Sk q).
  { unfold Utils.real_dirs_between. apply forallb_ext_in. intros n Hn.
    apply list_elem_of_In, in_seq in Hn. rewrite H; [done|].
    destruct q, n; simpl; done || lia. }
  assert (He : dir_empty da (Sk ++ q) = dir_empty db (Sk ++ q)).
  { apply dir_empty_local. intros k' [[q' ->] Hk'].
    rewrite <- app_assoc. apply H. by destruct q. }
  by rewrite Hr, He.
Qed.

(** The listing of a directory reads what is below the directory only. *)
Lemma list_relative_paths_local da db p Sk list_dirs :
  resolve da true p = Some Sk → resolve db true p = Some Sk →
  (∀ q, node_at db (Sk ++ q) = node_at da (Sk ++ q)) →
  Utils.list_relative_paths db p list_dirs = Utils.list_relative_paths da p list_dirs.
Proof.
  intros Ha Hb H. unfold Utils.list_relative_paths. rewrite Ha, Hb.
  pose proof (H []) as H0. rewrite app_nil_r in H0. rewrite H0.
  destruct (is_dir (node_at da Sk)); [|done].
  assert (Hl : ∀ q, q ≠ [] → db !! (Sk ++ q) = da !! (Sk ++ q)).
  { intros q Hq. specialize (H q). unfold node_at in H.
    destruct (Sk ++ q) eqn:E; [|done]. apply app_eq_nil in E as [_ ?]. done. }
  rewrite (dir_empty_local da db Sk).
  2:{ intros k' [[q ->] Hne]. apply Hl. intros ->. by rewrite app_nil_r in Hne. }
  apply merge_sort_perm. apply Permutation_app_head.
  set (P := fun kv : cpath * inode => strict_under Sk kv.1).
  assert (HP : ∀ d kv, ¬ P kv → Utils.listed d list_dirs Sk kv = None).
  { intros d [k v] Hn. unfold Utils.listed. by rewrite decide_False. }
  rewrite (omap_filter_map P _ db (HP db)), (omap_filter_map P _ da (HP da)).
  assert (Hf : filter P db = filter P da).
  { apply map_eq. intros k. rewrite !map_lookup_filter.
    destruct (decide (strict_under Sk k)) as [[[q ->] Hne]|Hn].
    - rewrite Hl; [done|]. intros ->. by rewrite app_nil_r in Hne.
    - destruct (db !! k) as [x|], (da !! k) as [y|]; simpl; try done;
        rewrite ?option_guard_False by done; done. }
  rewrite Hf. apply reflexive_eq, omap_ext_in. intros kv _.
  symmetry. by apply listed_local.
Qed.

(** ** Computations that do not look below an entry *)

Lemma blind_to_ret {X : Type} (E : cpath) (x : X) : blind_to E (ret x).
Proof. intros da db r da' H [= <- <-]. eauto. Qed.

Lemma blind_to_raise {X : Type} (E : cpath) (e : exn) : blind_to E (raise (A := X) e).
Proof. intros da db r da' H [= <- <-]. eauto. Qed.

Lemma blind_to_bind {X Y : Type} (E : cpath) (m : SE disk X) (f : X → SE disk Y) :
  blind_to E m → (∀ x, blind_to E (f x)) → blind_to E (bind m f).
Proof.
  intros Hm Hf da db r da' Hab. unfold bind.
  destruct (m da) as [[e|a] d1] eqn:Ea.
  - intros [= <- <-]. destruct (Hm _ _ _ _ Hab Ea) as (db' & -> & ?). eauto.
  - intros H. destruct (Hm _ _ _ _ Hab Ea) as (d1' & -> & H1).
    by apply (Hf a _ _ _ _ H1).
Qed.

Lemma blind_to_for_each {X : Type} (E : cpath) (body : X → SE disk unit) (l : list X) :
  (∀ x, blind_to E (body x)) → blind_to E (for_each l body).
Proof.
  intros Hb. induction l as [|x l IH]; [apply blind_to_ret|].
  simpl. apply blind_to_bind; [apply Hb|]. intros _. apply IH.
Qed.

Lemma blind_to_atomic (E : cpath) (op : disk → exn + disk) :
  (∀ da db, changes_below E da db →
     match op da, op db with
     | inr a, inr b => changes_below E a b
     | inl e, inl e' => e = e'
     | _, _ => False
     end) →
  blind_to E (atomic op).
Proof.
  intros H da db r da' Hab. specialize (H da db Hab). unfold atomic.
  destruct (op da) as [e|a], (op db) as [e'|b]; try done; intros [= <- <-].
  - subst. eauto.
  - eauto.
Qed.

Lemma blind_to_query {X Y : Type} (E : cpath) (q : disk → X) (f : X → SE disk Y) :
  (∀ da db, changes_below E da db → q db = q da) →
  (∀ x, blind_to E (f x)) → blind_to E (bind (query_total q) f).
Proof.
  intros Hq Hf da db r da' Hab. unfold bind, query_total.
  rewrite (Hq da db Hab). by apply Hf.
Qed.

Lemma changes_below_insert_both (E : cpath) da db k v :
  changes_below E da db → changes_below E (<[k := v]> da) (<[k := v]> db).
Proof.
  intros H k' Hk'. rewrite !node_at_insert. repeat case_decide; try done. by apply H.
Qed.

Lemma blind_to_copy_member (E : cpath) Sk Dk f :
  (∀ q, ¬ E `prefix_of` Sk ++ q) → (∀ q, ¬ E `prefix_of` Dk ++ q) →
  blind_to E (Utils.copy_member Sk Dk f).
Proof.
  intros HS HD. unfold Utils.copy_member.
  destruct (bool_decide (".." ∈ Utils.rel_comps f)); [apply blind_to_raise|].
  apply blind_to_query; [intros da db Hab; apply Hab, HS|].
  intros [n|]; [|apply blind_to_raise].
  apply blind_to_bind.
  - apply blind_to_for_each. intros p. unfold Utils.ensure_dir.
    apply blind_to_atomic. intros da db Hab.
    rewrite (Hab (Dk ++ p)) by apply HD. rewrite (Hab (Sk ++ p)) by apply HS.
    destruct (node_at da (Dk ++ p)) as [[]|]; try done.
    by apply changes_below_insert_both.
  - intros _. apply blind_to_atomic. intros da db Hab.
    rewrite (Hab (Dk ++ Utils.rel_comps f)) by apply HD.
    destruct n, (node_at da (Dk ++ Utils.rel_comps f)) as [[]|]; try done;
      by apply changes_below_insert_both.
Qed.

(** ** A copy of a tree without symbolic links has none *)

Lemma no_new_links_refl d : no_new_links d d.
Proof. by intros k. Qed.

Lemma no_new_links_trans d1 d2 d3 :
  no_new_links d1 d2 → no_new_links d2 d3 → no_new_links d1 d3.
Proof. intros H1 H2 k Hk. by apply H1, H2. Qed.

Lemma no_new_links_insert d k v :
  is_link (Some v) = false → no_new_links d (<[k := v]> d).
Proof.
  intros Hv k'. rewrite node_at_insert. repeat case_decide; try done.
  by rewrite Hv.
Qed.

Lemma copy_member_no_new_links Sk Dk f d r d' :
  (∀ q, is_link (node_at d (Sk ++ q)) = false) →
  Utils.copy_member Sk Dk f d = (r, d') → no_new_links d d'.
Proof.
  intros HS. unfold Utils.copy_member.
  destruct (bool_decide (".." ∈ Utils.rel_comps f)).
  { unfold raise. intros [= <- <-]. apply no_new_links_refl. }
  apply bind_rel; [apply no_new_links_trans|..].
  { unfold query_total. intros ra d1 [= <- <-]. apply no_new_links_refl. }
  intros src d1. unfold query_total. intros [= <- <-].
  pose proof (HS (Utils.rel_comps f)) as Hn.
  destruct (node_at d (Sk ++ Utils.rel_comps f)) as [n|].
  2:{ unfold raise. intros [= <- <-]. apply no_new_links_refl. }
  apply bind_rel; [apply no_new_links_trans|..].
  - intros ra d1. apply (for_each_rel no_new_links (fun _ => True));
      [apply no_new_links_refl|apply no_new_links_trans|done| |done].
    intros p da rb db _ _. unfold Utils.ensure_dir.
    apply atomic_rel; [apply no_new_links_refl|].
    intros d2. destruct (node_at da (Dk ++ p)) as [[]|] eqn:E; intros [= <-].
    + apply no_new_links_refl.
    + by apply no_new_links_insert.
  - intros [] d1 _. apply atomic_rel; [apply no_new_links_refl|].
    intros d2 H.
    destruct n, (node_at d1 (Dk ++ Utils.rel_comps f)) as [[]|] eqn:E;
      first [discriminate H | injection H as <-];
      by apply no_new_links_insert.
Qed.

Lemma copy_loop_no_new_links Sk Dk (l : list string) d r d' :
  (∀ q, is_link (node_at d (Sk ++ q)) = false) →
  for_each l (Utils.copy_member Sk Dk) d = (r, d') → no_new_links d d'.
Proof.
  apply (for_each_rel no_new_links
           (fun d => ∀ q, is_link (node_at d (Sk ++ q)) = false));
    [apply no_new_links_refl|apply no_new_links_trans| |].
  - intros da db HP HR q. specialize (HR (Sk ++ q)). specialize (HP q).
    destruct (is_link (node_at db (Sk ++ q))); [|done].
    rewrite HR in HP; done.
  - intros f da rb db _ HP. by apply copy_member_no_new_links.
Qed.

(** ** What the digest of a directory without symbolic links depends on *)

Lemma unique_key_local da db p :
  stat db p = stat da p → lstat db p = lstat da p → unique_key db p = unique_key da p.
Proof.
  intros Hs Hl.
  unfold unique_key, Os.isdir, Os.islink, Os.readlink, Utils.sha256sum.
  by rewrite Hs, Hl.
Qed.

Lemma member_node_local da db p Dk f :
  real_dir_path da p Dk → real_dir_path db p Dk →
  (∀ q, node_at db (Dk ++ q) = node_at da (Dk ++ q)) →
  (∀ q, is_link (node_at da (Dk ++ q)) = false) →
  f ∈ Utils.list_relative_paths da p true →
  stat db (OsPath.join p f) = stat da (OsPath.join p f)
  ∧ lstat db (OsPath.join p f) = lstat da (OsPath.join p f).
Proof.
  intros Ha Hb Hn Hl Hf.
  apply (list_relative_paths_inv _ _ _ _ (resolve_real_dir _ _ _ true Ha)) in Hf
    as [->|(r & c & -> & Hv & Hd & Hs)].
  - unfold stat, lstat. rewrite !(resolve_dot da p Dk), !(resolve_dot db p Dk) by done.
    simpl. specialize (Hn []). rewrite app_nil_r in Hn. by rewrite Hn.
  - assert (Hd' : dirs_below db Dk r).
    { intros i Hi. rewrite Hn. by apply Hd. }
    pose proof (resolve_member da p Dk r c Ha Hv Hd) as Ra.
    pose proof (resolve_member db p Dk r c Hb Hv Hd') as Rb.
    pose proof (Hl (r ++ [c])) as Hla.
    assert (Hlb : is_link (node_at db (Dk ++ r ++ [c])) = false) by (by rewrite Hn).
    unfold stat, lstat.
    rewrite (resolve_nofollow_follow _ _ _ Ra Hla), (resolve_nofollow_follow _ _ _ Rb Hlb).
    rewrite Ra, Rb. simpl. by rewrite Hn.
Qed.

(** The digest of a directory without symbolic links reads what is
    below the directory only. *)
Lemma _generate_ref_local s s' da db p Dk :
  real_dir_path da p Dk → real_dir_path db p Dk →
  (∀ q, node_at db (Dk ++ q) = node_at da (Dk ++ q)) →
  (∀ q, is_link (node_at da (Dk ++ q)) = false) →
  _generate_ref s' db p = _generate_ref s da p.
Proof.
  intros Ha Hb Hn Hl. unfold _generate_ref.
  rewrite (isdir_real_dir _ _ _ Ha), (isdir_real_dir _ _ _ Hb).
  rewrite (list_relative_paths_local da db p Dk true
             (resolve_real_dir _ _ _ true Ha) (resolve_real_dir _ _ _ true Hb) Hn).
  assert (Hu : ∀ l : list string,
            (∀ f, f ∈ l → f ∈ Utils.list_relative_paths da p true) →
            unique_parts db (map (fun relpath => (relpath, OsPath.join p relpath)) l)
            = unique_parts da (map (fun relpath => (relpath, OsPath.join p relpath)) l)).
  { induction l as [|f l IH]; intros Hin; [done|].
    cbn [map unique_parts].
    destruct (member_node_local da db p Dk f Ha Hb Hn Hl (Hin f ltac:(by left)))
      as [Hs Hls].
    rewrite (unique_key_local da db _ Hs Hls).
    rewrite IH; [done|]. intros g Hg. apply Hin. by right. }
  by rewrite Hu.
Qed.


(** ** The second population *)

Lemma link_freeb_sound d Sk : link_freeb d Sk = true → link_free d Sk.
Proof.
  unfold link_freeb. rewrite forallb_forall. intros H q.
  unfold node_at. destruct (Sk ++ q) as [|c k] eqn:E; [done|]. rewrite <- E.
  destruct (d !! (Sk ++ q)) as [v|] eqn:Ev; [|done].
  specialize (H (Sk ++ q, v)). simpl in H.
  rewrite bool_decide_eq_true_2 in H by (by apply prefix_app_r).
  apply negb_true_iff. apply H. apply list_elem_of_In. by apply elem_of_map_to_list.
Qed.

Lemma mkdtemp_go_local d mirror_dir M :
  real_dir_path d mirror_dir M →
  ∀ fuel n td d0,
    Utils.mkdtemp_go fuel n mirror_dir d = (inr td, d0) →
    ∃ n', td = OsPath.join mirror_dir (Utils.tmp_name n')
          ∧ node_at d (M ++ [Utils.tmp_name n']) = None
          ∧ d0 = <[M ++ [Utils.tmp_name n'] := IDir Stat.S_IRWXU]> d
          ∧ ∀ db, real_dir_path db mirror_dir M →
                  (∀ i, node_at db (M ++ [Utils.tmp_name i])
                        = node_at d (M ++ [Utils.tmp_name i])) →
                  Utils.mkdtemp_go fuel n mirror_dir db
                  = (inr td, <[M ++ [Utils.tmp_name n'] := IDir Stat.S_IRWXU]> db).
Proof.
  intros Ha. induction fuel as [|fuel IH]; intros n td d0; cbn [Utils.mkdtemp_go];
    unfold Os.mkdir;
    rewrite (resolve_entry d mirror_dir M _ Ha (tmp_name_valid n)).
  - destruct (node_at d (M ++ [Utils.tmp_name n])) eqn:E; [discriminate|].
    intros [= <- <-]. exists n. repeat split; try done.
    intros db Hb Hn.
    by rewrite (resolve_entry db mirror_dir M _ Hb (tmp_name_valid n)), Hn, E.
  - destruct (node_at d (M ++ [Utils.tmp_name n])) eqn:E.
    + intros H. destruct (IH _ _ _ H) as (n' & ? & ? & ? & Hdb).
      exists n'. repeat split; try done.
      intros db Hb Hn.
      rewrite (resolve_entry db mirror_dir M _ Hb (tmp_name_valid n)), Hn, E.
      by apply Hdb.
    + intros [= <- <-]. exists n. repeat split; try done.
      intros db Hb Hn.
      by rewrite (resolve_entry db mirror_dir M _ Hb (tmp_name_valid n)), Hn, E.
Qed.

(** Over an entry that is a directory, [publish] puts the new one. *)
Lemma publish_again s td n h M w :
  real_dir_path (fs w) (mirror_directory s) M →
  real_dir_path (fs w) td (M ++ [Utils.tmp_name n]) →
  is_dir (node_at (fs w) (M ++ [Sha256.hexdigest h])) = true →
  is_dir (node_at (fs w) ((M ++ [Utils.tmp_name n]) ++ ["moveable"])) = true →
  ∃ w1, publish s (OsPath.join td "moveable") (Sha256.hexdigest h) w = (inr tt, w1).
Proof.
  intros HM Htd HE HD. rewrite (publish_real _ _ _ _ _ HM).
  rewrite (bind_ok _ _ _ _ _ (on_disk_query_total _ w)).
  set (sha := Sha256.hexdigest h) in *. set (Mt := M ++ [Utils.tmp_name n]) in *.
  assert (Hne : sha ≠ Utils.tmp_name n) by apply hexdigest_not_tmp.
  assert (Hv : Utils.valid_name "moveable" = true) by reflexivity.
  pose proof (resolve_entry _ _ M sha HM (hexdigest_valid h)) as Hr.
  assert (HE0 : M ++ [sha] ≠ []) by (by destruct M).
  destruct (node_at (fs w) (M ++ [sha])) as [[| |m0]|] eqn:HEn; try discriminate HE.
  unfold Os.exists_, stat.
  rewrite (resolve_nofollow_follow _ _ _ Hr) by (by rewrite HEn).
  cbn [mbind option_bind]. rewrite HEn. rewrite bool_decide_eq_true_2 by eauto.
  assert (Hrm : Utils._force_rmtree (OsPath.join (mirror_directory s) sha) (fs w)
                = (inr tt, remove_tree (M ++ [sha]) (fs w))).
  { unfold Utils._force_rmtree, atomic, Os.rmtree. by rewrite Hr, HEn. }
  rewrite (bind_ok _ _ _ _ _ (on_disk_eq _ _ _ _ Hrm)).
  set (dr := remove_tree (M ++ [sha]) (fs w)).
  assert (Hout : ∀ k, ¬ (M ++ [sha]) `prefix_of` k → node_at dr k = node_at (fs w) k).
  { intros k Hk. unfold dr. rewrite node_at_remove_tree by done. by rewrite decide_False. }
  assert (HM2 : real_dir_path dr (mirror_directory s) M).
  { eapply real_dir_path_frame; [|exact HM]. intros i Hi. apply Hout.
    intros Hp. apply prefix_take_length in Hp; [done|lia]. }
  assert (Htd2 : real_dir_path dr td Mt).
  { eapply real_dir_path_frame; [|exact Htd]. intros i Hi. apply Hout.
    intros Hp. unfold Mt in Hp.
    destruct (decide (i ≤ length M)%nat) as [Hle|Hgt].
    - rewrite take_app_le in Hp by done.
      apply prefix_take_length in Hp; [done|done].
    - rewrite take_ge in Hp by (rewrite length_app; simpl; lia).
      by apply (snoc_prefix_snoc M sha (Utils.tmp_name n) []) in Hp. }
  assert (Hnp1 : ¬ (Mt ++ ["moveable"]) `prefix_of` M ++ [sha]).
  { intros Hp. apply prefix_length in Hp. unfold Mt in Hp.
    rewrite !length_app in Hp. simpl in Hp. lia. }
  assert (Hnp2 : ¬ (M ++ [sha]) `prefix_of` Mt ++ ["moveable"]).
  { intros Hp. unfold Mt in Hp. rewrite <- app_assoc in Hp.
    by apply (snoc_prefix_snoc M sha (Utils.tmp_name n) ["moveable"]) in Hp. }
  assert (Hren : ∃ d2, Os.rename (OsPath.join td "moveable")
                         (OsPath.join (mirror_directory s) sha) dr = inr d2).
  { unfold Os.rename.
    rewrite (resolve_entry _ _ _ _ Htd2 Hv), (resolve_entry _ _ M sha HM2 (hexdigest_valid h)).
    rewrite (Hout _ Hnp2).
    destruct (node_at (fs w) (Mt ++ ["moveable"])) as [[| |m1]|]; try discriminate HD.
    rewrite decide_False by (intros Heq; apply Hnp1; by rewrite Heq).
    rewrite decide_False by (intros [?|?]; [by destruct Mt|done]).
    rewrite decide_False by done.
    assert (Hgone : node_at dr (M ++ [sha]) = None).
    { unfold dr. rewrite node_at_remove_tree by done. by rewrite decide_True. }
    rewrite Hgone. eauto. }
  destruct Hren as [d2 Hren].
  eexists. unfold on_disk, atomic. cbn [fs]. fold dr. rewrite Hren. reflexivity.
Qed.

Lemma cleanup_again td Mt w :
  real_dir_path (fs w) td Mt →
  ∃ w1, (isd <- on_disk (query_total (fun d => Os.isdir d td));;
         if (isd : bool) then on_disk (Utils._force_rmtree td) else ret tt) w
        = (inr tt, w1).
Proof.
  intros Htd. rewrite (bind_ok _ _ _ _ _ (on_disk_query_total _ w)).
  rewrite (isdir_real_dir _ _ _ Htd).
  pose proof (real_dir_path_is_dir _ _ _ Htd) as Hd.
  unfold on_disk, Utils._force_rmtree, atomic, Os.rmtree.
  rewrite (resolve_real_dir _ _ _ false Htd).
  destruct (node_at (fs w) Mt) as [[]|]; try discriminate Hd. eauto.
Qed.

Lemma finally_ok {St X : Type} (m : SE St X) (c : SE St unit) s a s1 s2 :
  m s = (inr a, s1) → c s1 = (inr tt, s2) → finally m c s = (inr a, s2).
Proof. unfold finally. by intros -> ->. Qed.

Lemma real_dir_path_off (E : cpath) d d' p k :
  changes_below E d d' → (∀ i, ¬ E `prefix_of` take i k) →
  real_dir_path d p k → real_dir_path d' p k.
Proof.
  intros Hc Hk. apply real_dir_path_frame. intros i _. apply Hc, Hk.
Qed.

(** A mirror population of a directory without symbolic links can be
    repeated: started on the disk that one population left, with the
    same subject and mirror directory, the next one returns the same
    digest. *)
Lemma _ensure_mirror_again (w w1 w' : world) (sha256 : string) (M Sk : cpath) :
  real_dir_path (fs w) (mirror_directory (self w)) M →
  real_dir_path (fs w) (fullpath (self w)) Sk →
  well_formed (fs w) →
  ¬ M `prefix_of` Sk → ¬ Sk `prefix_of` M →
  link_free (fs w) Sk →
  _ensure_mirror w = (inr sha256, w1) →
  fs w' = fs w1 → fullpath (self w') = fullpath (self w) →
  mirror_directory (self w') = mirror_directory (self w) →
  ∃ w2, _ensure_mirror w' = (inr sha256, w2).
Proof.
  intros HM HS Hwf HMS HSM Hnl Hrun Hfs' Hfp' Hmd'.
  revert Hrun. unfold _ensure_mirror at 1, bind at 1, get_self.
  rewrite (tempdir_real _ _ _ _ HM). unfold _tempdir.
  set (s := self w) in *.
  destruct (Utils.mkdtemp (mirror_directory s) (fs w)) as [[e|td] d0] eqn:Htd;
    [discriminate|].
  intros H. apply finally_inv_ok in H as (wb & Hbody & Hclean).
  unfold Utils.mkdtemp in Htd.
  destruct (mkdtemp_go_local _ _ _ HM _ _ _ _ Htd) as (n & -> & Hfree & -> & Hmk2).
  clear Htd.
  set (Mt := M ++ [Utils.tmp_name n]) in *.
  set (d0 := <[Mt := IDir Stat.S_IRWXU]> (fs w)) in *.
  set (Dk := Mt ++ ["moveable"]) in *.
  assert (Hv : Utils.valid_name "moveable" = true) by reflexivity.
  assert (HMt0 : Mt ≠ []) by (unfold Mt; by destruct M).
  assert (Hp0 : dirs_preserved (fs w) d0).
  { apply insert_dirs_preserved. by rewrite Hfree. }
  pose proof (well_formed_below _ _ Hwf HMt0 Hfree) as Hbelow.
  assert (HM0 : real_dir_path d0 (mirror_directory s) M)
    by (by eapply real_dir_path_preserved).
  assert (HS0 : real_dir_path d0 (fullpath s) Sk)
    by (by eapply real_dir_path_preserved).
  assert (Htd0 : real_dir_path d0 (OsPath.join (mirror_directory s) (Utils.tmp_name n)) Mt).
  { apply real_dir_path_entry; [done|apply tmp_name_valid|].
    unfold d0. rewrite node_at_insert_ne by done. by rewrite decide_True. }
  assert (HDfree : ∀ q, node_at d0 (Dk ++ q) = None).
  { intros q. unfold d0, Dk. rewrite node_at_insert_ne by done.
    rewrite decide_False; [rewrite <- app_assoc; apply Hbelow|].
    intros Heq. apply (f_equal length) in Heq. rewrite !length_app in Heq.
    simpl in Heq. lia. }
  assert (HSD : ¬ Sk `prefix_of` Dk).
  { intros Hp. unfold Dk in Hp. apply prefix_snoc_inv in Hp as [Heq|Hp].
    - apply HMS. rewrite Heq. unfold Mt. rewrite <- app_assoc. by apply prefix_app_r.
    - unfold Mt in Hp. apply prefix_snoc_inv in Hp as [Heq|Hp]; [|done].
      apply HMS. rewrite Heq. by apply prefix_app_r. }
  assert (HMSq : ∀ q, ¬ M `prefix_of` Sk ++ q) by (intros q; by apply not_under_source).
  assert (HDS : ¬ Dk `prefix_of` Sk).
  { intros Hp. apply HMS. etransitivity; [|exact Hp]. unfold Dk, Mt.
    rewrite <- app_assoc. by apply prefix_app_r. }
  assert (Hnl0 : ∀ q, is_link (node_at d0 (Sk ++ q)) = false).
  { intros q. unfold d0. rewrite node_at_insert_ne by done.
    rewrite decide_False; [apply Hnl|]. intros Heq. apply (HMSq q).
    rewrite <- Heq. by apply prefix_app_r. }
  (* the first copy *)
  apply bind_inv_ok in Hbody as (targetdir & ws & Hscratch & Hbody).
  pose proof (scratch_copy_spec _ _ _ _ _ Hscratch) as [Hpres _]. simpl in Hpres.
  assert (Hcopy1 : targetdir = OsPath.join (OsPath.join (mirror_directory s) (Utils.tmp_name n))
                                 "moveable"
                   ∧ for_each (Utils.list_relative_paths d0 (fullpath s) true)
                       (Utils.copy_member Sk Dk) d0 = (inr tt, fs ws)).
  { revert Hscratch. unfold scratch_copy. intros H.
    apply bind_inv_ok in H as (isd & w0 & Hq & H).
    rewrite on_disk_query_total in Hq. injection Hq as <- <-.
    cbn [fs] in H. rewrite (isdir_real_dir _ _ _ HS0) in H.
    apply bind_inv_ok in H as ([] & w2 & Hc & H).
    unfold ret in H. injection H as <- <-. split; [done|].
    apply on_disk_inv in Hc as (Hc & _ & _). cbn [fs] in Hc.
    unfold Utils.copy_files in Hc.
    rewrite (resolve_real_dir _ _ _ true HS0) in Hc.
    pose proof (resolve_entry _ _ _ _ Htd0 Hv) as HD.
    rewrite (resolve_nofollow_follow _ _ _ HD) in Hc
      by (fold Dk; by rewrite <- (app_nil_r Dk), HDfree).
    exact Hc. }
  destruct Hcopy1 as [-> Hcopy1].
  set (td := OsPath.join (mirror_directory s) (Utils.tmp_name n)) in *.
  apply bind_inv_ok in Hbody as (sha & wg & Hg & Hbody).
  rewrite on_disk_query in Hg.
  destruct (_generate_ref s (fs ws) _) as [e|sha'] eqn:Href; [discriminate|].
  injection Hg as <- <-.
  destruct (_generate_ref_hex _ _ _ _ Href) as [h ->].
  apply bind_inv_ok in Hbody as ([] & wp & Hpub & Hret).
  unfold ret in Hret. injection Hret as <- <-.
  set (sha := Sha256.hexdigest h) in *. set (E := M ++ [sha]).
  assert (Hne : sha ≠ Utils.tmp_name n) by apply hexdigest_not_tmp.
  assert (HMs : real_dir_path (fs ws) (mirror_directory s) M)
    by (by eapply real_dir_path_preserved).
  assert (Htds : real_dir_path (fs ws) td Mt) by (by eapply real_dir_path_preserved).
  (* where the entry is not *)
  assert (PE_M : ∀ i, ¬ E `prefix_of` take i M).
  { intros i Hp. apply prefix_length in Hp. unfold E in Hp.
    rewrite length_app, length_take in Hp. simpl in Hp. lia. }
  assert (PE_Mt : ∀ i, ¬ E `prefix_of` take i Mt).
  { intros i Hp. unfold Mt in Hp.
    destruct (decide (i ≤ length M)%nat) as [Hle|Hgt].
    - rewrite take_app_le in Hp by done. by apply PE_M in Hp.
    - rewrite take_ge in Hp by (rewrite length_app; simpl; lia).
      by apply (snoc_prefix_snoc M _ (Utils.tmp_name n) []) in Hp. }
  assert (PE_Sq : ∀ q, ¬ E `prefix_of` Sk ++ q).
  { intros q Hp. apply (HMSq q). etransitivity; [|exact Hp]. by apply prefix_app_r. }
  assert (PE_S : ∀ i, ¬ E `prefix_of` take i Sk).
  { intros i Hp. apply HMS. etransitivity; [|apply prefix_take].
    etransitivity; [|exact Hp]. by apply prefix_app_r. }
  assert (PE_D : ∀ q, ¬ E `prefix_of` Dk ++ q).
  { intros q Hp. unfold E, Dk, Mt in Hp. rewrite <- !app_assoc in Hp.
    by apply (snoc_prefix_snoc M sha (Utils.tmp_name n) (["moveable"] ++ q)) in Hp. }
  (* the scratch copy is a directory without links *)
  assert (HDdir : is_dir (node_at (fs ws) Dk) = true).
  { destruct (publish_node _ _ _ _ _ _ HMs Hpub) as (nd & Hnd & _).
    unfold lstat in Hnd. rewrite (resolve_entry _ _ _ _ Htds Hv) in Hnd.
    cbn [mbind option_bind] in Hnd. fold Dk in Hnd.
    destruct (copy_loop_spec Sk Dk d0 HSD HDS _ _ _ (fun _ => eq_refl) Hcopy1)
      as (_ & _ & _ & Hall).
    destruct (Utils.list_relative_paths d0 (fullpath s) true) as [|f l] eqn:EL.
    - simpl in Hcopy1. unfold ret in Hcopy1. injection Hcopy1 as Heq.
      rewrite <- Heq, <- (app_nil_r Dk), HDfree in Hnd. discriminate.
    - destruct (Hall f ltac:(by left)) as (_ & Hcp & Hready & _).
      destruct (Utils.rel_comps f) as [|c r] eqn:Er.
      + rewrite !app_nil_r in Hcp. rewrite Hcp. by apply real_dir_path_is_dir in HS0.
      + specialize (Hready 0 ltac:(simpl; lia)). simpl in Hready.
        by rewrite app_nil_r in Hready. }
  assert (HDnl : ∀ q, is_link (node_at (fs ws) (Dk ++ q)) = false).
  { intros q. pose proof (copy_loop_no_new_links Sk Dk _ _ _ _ Hnl0 Hcopy1 (Dk ++ q)) as Hl.
    destruct (is_link (node_at (fs ws) (Dk ++ q))); [|done].
    specialize (Hl eq_refl). by rewrite HDfree in Hl. }
  (* the disk after the first population *)
  destruct (publish_spec _ _ _ _ _ _ HMs Hpub) as (HMp & _ & _).
  pose proof (publish_disk _ _ _ _ _ _ _ HMs Htds Hpub) as Hpd.
  fold Mt in Hpd. fold Dk in Hpd. fold sha in Hpd. fold E in Hpd.
  destruct (publish_tree _ _ _ _ _ _ _ HMs Htds Hpub) as (Hpt & _).
  fold Mt in Hpt. fold sha in Hpt. fold E in Hpt.
  assert (Htdp : real_dir_path (fs wp) td Mt).
  { eapply real_dir_path_frame; [|exact Htds]. intros i Hi.
    rewrite Hpd by apply PE_Mt. rewrite decide_False; [done|].
    intros Hp. apply prefix_length in Hp. unfold Dk in Hp.
    rewrite length_app, length_take in Hp. simpl in Hp. lia. }
  assert (Hcl : ∀ k, node_at (fs w1) k
                     = if decide (Mt `prefix_of` k) then None else node_at (fs wp) k).
  { revert Hclean. intros H. apply bind_inv_ok in H as (isd & w0 & Hq & H).
    rewrite on_disk_query_total in Hq. injection Hq as <- <-.
    rewrite (isdir_real_dir _ _ _ Htdp) in H.
    apply on_disk_inv in H as (H & _ & _).
    unfold Utils._force_rmtree in H. apply atomic_inv in H.
    unfold Os.rmtree in H. rewrite (resolve_real_dir _ _ _ false Htdp) in H.
    pose proof (real_dir_path_is_dir _ _ _ Htdp) as Hd.
    destruct (node_at (fs wp) Mt) as [[]|]; try discriminate Hd.
    injection H as <-. intros k. by apply node_at_remove_tree. }
  pose proof (scratch_copy_dir_frame s _ Mt
                {| self := s; fs := d0; warnings := warnings w |} _ _
                (isdir_real_dir _ _ _ HS0) Htd0
                ltac:(cbn [fs]; fold Dk; by rewrite <- (app_nil_r Dk), HDfree) Hscratch)
    as (_ & Hcopyf).
  cbn [fs] in Hcopyf. fold Dk in Hcopyf.
  assert (F1 : changes_below E (fs w) (fs w1)).
  { intros k Hk. rewrite Hcl. case_decide as Hp.
    - destruct Hp as [q ->]. by rewrite Hbelow.
    - rewrite Hpd by done. rewrite decide_False.
      2:{ intros Hp'. apply Hp. etransitivity; [|exact Hp']. by apply prefix_app_r. }
      rewrite Hcopyf.
      2:{ intros Hp'. apply Hp. etransitivity; [|exact Hp']. by apply prefix_app_r. }
      unfold d0. rewrite node_at_insert_ne by done.
      rewrite decide_False; [done|]. intros ->. by apply Hp. }
  assert (F2 : is_dir (node_at (fs w1) E) = true).
  { rewrite Hcl. rewrite decide_False.
    2:{ intros Hp. unfold Mt, E in Hp. apply (snoc_prefix_snoc M _ sha []) in Hp. done. }
    specialize (Hpt []). rewrite app_nil_r in Hpt. rewrite Hpt.
    unfold Dk in HDdir. by rewrite app_nil_r. }
  (* the second population *)
  clear Hclean Hpub Hscratch.
  set (s' := self w') in *. set (d1 := fs w1) in *.
  assert (HM1 : real_dir_path d1 (mirror_directory s) M)
    by (by eapply (real_dir_path_off E)).
  assert (HS1 : real_dir_path d1 (fullpath s) Sk)
    by (by eapply (real_dir_path_off E)).
  specialize (Hmk2 d1 HM1).
  assert (Hmk2' : Utils.mkdtemp_go Utils.TMP_MAX 0 (mirror_directory s) d1
                  = (inr td, <[Mt := IDir Stat.S_IRWXU]> d1)).
  { apply Hmk2. intros i. apply F1. intros Hp. unfold E in Hp.
    apply (snoc_prefix_snoc M sha (Utils.tmp_name i) []) in Hp.
    by apply (hexdigest_not_tmp h i). }
  clear Hmk2.
  set (d0' := <[Mt := IDir Stat.S_IRWXU]> d1) in *.
  assert (Hab0 : changes_below E d0 d0') by (by apply changes_below_insert_both).
  assert (HM0' : real_dir_path d0' (mirror_directory s) M)
    by (by eapply (real_dir_path_off E)).
  assert (HS0' : real_dir_path d0' (fullpath s) Sk)
    by (by eapply (real_dir_path_off E)).
  assert (Htd0' : real_dir_path d0' td Mt) by (by eapply (real_dir_path_off E)).
  destruct (blind_to_for_each E _ (Utils.list_relative_paths d0 (fullpath s) true)
              (fun f => blind_to_copy_member E Sk Dk f PE_Sq PE_D)
              d0 d0' _ _ Hab0 Hcopy1) as (ds' & Hcopy2 & Habs).
  assert (HL : Utils.list_relative_paths d0' (fullpath s) true
               = Utils.list_relative_paths d0 (fullpath s) true).
  { apply (list_relative_paths_local d0 d0' _ Sk);
      [by apply resolve_real_dir|by apply resolve_real_dir|].
    intros q. apply Hab0, PE_Sq. }
  assert (Hcf2 : Utils.copy_files (fullpath s) (OsPath.join td "moveable") None d0'
                 = (inr tt, ds')).
  { unfold Utils.copy_files.
    rewrite (resolve_real_dir _ _ _ true HS0').
    pose proof (resolve_entry _ _ _ _ Htd0' Hv) as HD.
    rewrite (resolve_nofollow_follow _ _ _ HD).
    2:{ fold Dk. rewrite <- (app_nil_r Dk), Hab0 by apply PE_D. by rewrite HDfree. }
    fold Dk. by rewrite HL. }
  assert (HDdir' : is_dir (node_at ds' Dk) = true).
  { rewrite <- (app_nil_r Dk), Habs by apply PE_D. by rewrite app_nil_r. }
  assert (Hst2 : stays_below Dk d0' ds').
  { eapply copy_files_rel; [|exact Hcf2].
    pose proof (resolve_entry _ _ _ _ Htd0' Hv) as HD.
    apply (resolve_nofollow_follow _ _ _ HD).
    fold Dk. rewrite <- (app_nil_r Dk), Hab0 by apply PE_D. by rewrite HDfree. }
  assert (HMs' : real_dir_path ds' (mirror_directory s) M)
    by (eapply real_dir_path_preserved; [apply Hst2|done]).
  assert (Htds' : real_dir_path ds' td Mt)
    by (eapply real_dir_path_preserved; [apply Hst2|done]).
  assert (HTs : real_dir_path (fs ws) (OsPath.join td "moveable") Dk)
    by (by apply real_dir_path_entry).
  assert (HTs' : real_dir_path ds' (OsPath.join td "moveable") Dk)
    by (by apply real_dir_path_entry).
  assert (Hgen2 : _generate_ref s' ds' (OsPath.join td "moveable") = inr sha).
  { rewrite <- Href. apply (_generate_ref_local s s' (fs ws) ds' _ Dk); try done.
    intros q. apply Habs, PE_D. }
  assert (HE' : is_dir (node_at ds' E) = true).
  { destruct Hst2 as [Hc2 _]. rewrite Hc2.
    2:{ intros Hp. apply (PE_D []). rewrite app_nil_r.
        (* Dk is not above E *)
        exfalso. apply prefix_length in Hp. unfold Dk, Mt, E in Hp.
        rewrite !length_app in Hp. simpl in Hp. lia. }
    unfold d0'. rewrite node_at_insert_ne by done.
    rewrite decide_False; [exact F2|].
    intros Heq. unfold Mt, E in Heq. apply app_inv_head in Heq. by injection Heq. }
  set (ws' := {| self := s'; fs := ds'; warnings := warnings w' |}).
  destruct (publish_again s' td n h M ws') as [wp' Hpub2]; cbn [fs]; try done.
  { by rewrite Hmd'. }
  pose proof (publish_disk s' td n h M ws' wp'
                ltac:(cbn [fs]; by rewrite Hmd') Htds' Hpub2) as Hpd'.
  cbn [fs] in Hpd'. fold Mt in Hpd'. fold Dk in Hpd'. fold sha in Hpd'. fold E in Hpd'.
  assert (Htdp' : real_dir_path (fs wp') td Mt).
  { eapply real_dir_path_frame; [|exact Htds']. intros i Hi.
    rewrite Hpd' by apply PE_Mt. rewrite decide_False; [done|].
    intros Hp. apply prefix_length in Hp. unfold Dk in Hp.
    rewrite length_app, length_take in Hp. simpl in Hp. lia. }
  destruct (cleanup_again td Mt wp' Htdp') as [w2 Hclean2].
  exists w2. unfold _ensure_mirror, bind at 1, get_self.
  fold s'.
  rewrite (tempdir_real s' _ w' M) by (rewrite Hmd', Hfs'; exact HM1).
  unfold _tempdir, Utils.mkdtemp. rewrite Hmd', Hfs'. fold d1. rewrite Hmk2'.
  fold d0'. apply finally_ok with (s1 := wp'); [|exact Hclean2].
  assert (Hsc2 : scratch_copy s' td {| self := self w'; fs := d0'; warnings := warnings w' |}
                 = (inr (OsPath.join td "moveable"), ws')).
  { unfold scratch_copy.
    rewrite (bind_ok _ _ _ _ _ (on_disk_query_total _ _)). cbn [fs].
    rewrite !Hfp'. rewrite (isdir_real_dir _ _ _ HS0').
    pose proof (on_disk_eq
                  (Utils.copy_files (fullpath s) (OsPath.join td "moveable") None)
                  {| self := self w'; fs := d0'; warnings := warnings w' |}
                  (inr tt) ds' Hcf2) as Hod.
    cbn [self warnings] in Hod.
    rewrite (bind_ok _ _ _ _ _ Hod). reflexivity. }
  rewrite (bind_ok _ _ _ _ _ Hsc2).
  assert (Hq2 : on_disk (query (fun d => _generate_ref s' d (OsPath.join td "moveable"))) ws'
                = (inr sha, ws')).
  { rewrite on_disk_query. unfold ws' at 1. cbn [fs]. by rewrite Hgen2. }
  rewrite (bind_ok _ _ _ _ _ Hq2).
  rewrite (bind_ok _ _ _ _ _ Hpub2). reflexivity.
Qed.

(** X20. Tracking, storing the tracked ref and fetching agree: for a
    subject that is a directory outside the mirror directory, with no
    symbolic link in it, on a well-formed disk, after [track] returned
    a ref and [set_ref] stored it, [fetch] returns without an error,
    and [track] returns the same ref again. *)
Theorem track_then_fetch_returns (w w1 : world) (new_ref : string) (nd : node)
    (M Sk : cpath) :
  real_dir_path (fs w) (mirror_directory (self w)) M →
  real_dir_path (fs w) (fullpath (self w)) Sk →
  well_formed (fs w) →
  ¬ M `prefix_of` Sk → ¬ Sk `prefix_of` M →
  link_free (fs w) Sk →
  track w = (inr new_ref, w1) →
  let w2 := {| self := (set_ref new_ref nd (self w1)).1;
               fs := fs w1; warnings := warnings w1 |} in
  (∃ w3, fetch w2 = (inr tt, w3))
  ∧ (∃ w3, track w2 = (inr new_ref, w3)).
Proof.
  intros HM HS Hwf HMS HSM Hlf Ht w2.
  apply track_inv in Ht as (w0 & Hm & Hfs & Hs).
  destruct (_ensure_mirror_publishes _ _ _ _ HM Hm) as (_ & _ & Hs0 & _).
  assert (Hself : self w1 = self w) by (by rewrite Hs).
  destruct (_ensure_mirror_again w w0 w2 new_ref M Sk HM HS Hwf HMS HSM Hlf Hm)
    as [w3 Hem].
  - exact Hfs.
  - unfold w2. cbn [self set_ref fst fullpath]. by rewrite Hself.
  - unfold w2. cbn [self set_ref fst mirror_directory]. by rewrite Hself.
  - assert (Hr : ref (self w2) = Some new_ref) by reflexivity.
    split; exists w3.
    + unfold fetch, bind at 1, get_self.
      rewrite (bind_ok _ _ _ _ _ Hem). rewrite Hr.
      destruct (decide (Some new_ref ≠ Some new_ref)) as [Hne|_]; [by destruct Hne|].
      reflexivity.
    + unfold track, bind at 1, get_self.
      rewrite (bind_ok _ _ _ _ _ Hem). rewrite Hr.
      rewrite (bool_decide_eq_false_2 (Some new_ref ≠ Some new_ref)) by (intros Hne; by apply Hne).
      rewrite andb_false_r. reflexivity.
Qed.

Lemma track_then_fetch_returns_witness :
  let w := Examples.world_of "files/sally/docs" None Examples.project in
  let r := "a3c92c059b554d3a262e861f663d71c458d808ebce8f3342a7212105929e1f54" in
  let w1 := (track w).2 in
  let w2 := {| self := (set_ref r ∅ (self w1)).1; fs := fs w1; warnings := warnings w1 |} in
  (∃ w3, fetch w2 = (inr tt, w3)) ∧ (∃ w3, track w2 = (inr r, w3)).
Proof.
  intros w r w1.
  apply (track_then_fetch_returns w w1 r ∅ ["cache"; "project_ref"]
           ["proj"; "files"; "sally"; "docs"]).
  - apply real_dir_pathb_sound. vm_compute. reflexivity.
  - apply real_dir_pathb_sound. vm_compute. reflexivity.
  - apply well_formedb_sound. vm_compute. reflexivity.
  - intros [k Hk]. discriminate Hk.
  - intros [k Hk]. discriminate Hk.
  - apply link_freeb_sound. vm_compute. reflexivity.
  - assert (H : (track w).1 = inr r) by (vm_compute; reflexivity).
    rewrite <- H. apply surjective_pairing.
Defined.
